(** * Balance scanning and gas-fee estimation: a shallow embedding

    Sources embedded here:
    - [src/main/transaction/gasCalculator.ts]      (module [GasCalculator])
    - [src/main/externalData/balances/reducers.ts] (module [Reducers])
    - [src/main/externalData/balances/scan.ts]     (module [Scan])

    The JavaScript runtime fragment the sources rely on ([parseInt],
    [Number.prototype.toString], [Array.prototype.sort] with its default
    comparator, promises, object key order) lives in module [JS]. *)

From Stdlib Require Import ZArith NArith String Ascii List Bool Floats Uint63 Lia.
From Stdlib Require Import Permutation Sorted.
Import ListNotations.

Set Warnings "-inexact-float".

Open Scope string_scope.
Open Scope Z_scope.

(* ================================================================== *)
(** * The JavaScript runtime fragment *)
(* ================================================================== *)

Module JS.

(** ** Thrown values, completions and settled promises *)

(** A thrown value (or a rejection reason). *)
Inductive exn : Type :=
| TypeError                   (* property access on [undefined] *)
| Error (msg : string)        (* [new Error(msg)] raised by a library *)
| Payload (e : string).       (* a value supplied by a collaborator *)

(** Synchronous code either completes normally or throws. *)
Inductive completion (A : Type) : Type :=
| Normal (a : A)
| Throw (e : exn).
Arguments Normal {A} a.
Arguments Throw {A} e.

(** A promise is observed once settled; the transports are taken to settle
    every request ("eventually completes or fails"). *)
Inductive promise (A : Type) : Type :=
| Resolved (a : A)
| Rejected (e : exn).
Arguments Resolved {A} a.
Arguments Rejected {A} e.

Definition bind {A B} (c : completion A) (k : A -> completion B) : completion B :=
  match c with
  | Normal a => k a
  | Throw e => Throw e
  end.

Notation "x <- c ;; k" := (bind c (fun x => k))
  (at level 61, c at next level, right associativity).

(** [await p] inside synchronous-looking code. *)
Definition await {A} (p : promise A) : completion A :=
  match p with
  | Resolved a => Normal a
  | Rejected e => Throw e
  end.

(** The promise returned by an [async] function whose body completed as [c]. *)
Definition async {A} (c : completion A) : promise A :=
  match c with
  | Normal a => Resolved a
  | Throw e => Rejected e
  end.

(** [Promise.all]: resolves with every value, in order, or rejects.  When
    several inputs reject, the runtime reports the one that settled first;
    settling times are not part of this model, and the one reported here is
    the first in array order. *)
Fixpoint Promise_all {A} (ps : list (promise A)) : promise (list A) :=
  match ps with
  | [] => Resolved []
  | Rejected e :: _ => Rejected e
  | Resolved a :: ps' =>
      match Promise_all ps' with
      | Resolved l => Resolved (a :: l)
      | Rejected e => Rejected e
      end
  end.

(** [arr.map((x, i) => f x i)], from index [i] on, where [f] may throw. *)
Fixpoint mapi_from {A B} (f : A -> Z -> completion B) (i : Z) (l : list A) : completion (list B) :=
  match l with
  | [] => Normal []
  | x :: l' =>
      y <- f x i ;;
      ys <- mapi_from f (i + 1) l' ;;
      Normal (y :: ys)
  end.

(** Reading a property of a possibly-[undefined] value. *)
Definition deref {A} (o : option A) : completion A :=
  match o with
  | Some a => Normal a
  | None => Throw TypeError
  end.

(** [arr[i]]: [undefined] outside the array. *)
Definition index {A} (l : list A) (i : Z) : option A :=
  if i <? 0 then None else nth_error l (Z.to_nat i).

(** The same on an array whose elements may themselves be [undefined]. *)
Definition index_undef {A} (l : list (option A)) (i : Z) : option A :=
  match index l i with
  | Some v => v
  | None => None
  end.

Definition length_ {A} (l : list A) : Z := Z.of_nat (List.length l).

(** ** Numbers

    The numbers these sources compute with are integer-valued ([parseInt]
    results, [Math.ceil] results, their sums).  [Num z] carries the integer
    [z]; the runtime holds the double nearest to it, which is [z] itself
    throughout the safe integers, the range [intToHex] accepts.  The
    operations that look at a number beyond that range, the products in
    [Math_ceil_mul] and [String], round it first. *)
Inductive number : Type :=
| NaN
| Num (z : Z).

Definition MAX_SAFE_INTEGER : Z := 2 ^ 53 - 1.

Definition Number_isSafeInteger (x : number) : bool :=
  match x with
  | NaN => false
  | Num z => (- MAX_SAFE_INTEGER <=? z) && (z <=? MAX_SAFE_INTEGER)
  end.

Definition add (x y : number) : number :=
  match x, y with
  | Num a, Num b => Num (a + b)
  | _, _ => NaN
  end.

(** Truthiness of a possibly-[undefined] number. *)
Definition truthy (v : option number) : bool :=
  match v with
  | Some (Num z) => negb (z =? 0)
  | Some NaN => false
  | None => false
  end.

(** [v || d] *)
Definition or_else (v : option number) (d : number) : number :=
  match v with
  | Some x => if truthy v then x else d
  | None => d
  end.

(** ** Binary64 products

    The one place where these sources leave the integers is
    [nextBlockFee * 1.125 * 1.125].  A finite double is a dyadic rational,
    written [dnum / 2^dscale] with [0 <= dscale]; every operation returns
    its exact result rounded to 53 significant bits, to nearest and ties to
    even.  (The products here neither overflow nor fall into the subnormal
    range as long as the operands lie below 2^1000.) *)

(** The integer of at most 53 significant bits nearest to [m], ties to
    even. *)
Definition round53 (m : Z) : Z :=
  let a := Z.abs m in
  let e := Z.log2 a - 52 in
  if e <=? 0 then m
  else
    let q := a / 2 ^ e in
    let r := a mod 2 ^ e in
    let half := 2 ^ (e - 1) in
    let q' := if r <? half then q
              else if half <? r then q + 1
              else if Z.even q then q else q + 1 in
    Z.sgn m * (q' * 2 ^ e).

Record dyadic := { dnum : Z; dscale : Z }.

(** The double an integer-valued number is held as. *)
Definition ofInteger (z : Z) : dyadic := {| dnum := round53 z; dscale := 0 |}.

(** [x * y] *)
Definition mul64 (x y : dyadic) : dyadic :=
  {| dnum := round53 (dnum x * dnum y); dscale := dscale x + dscale y |}.

(** [Math.ceil(x)] *)
Definition Math_ceil (x : dyadic) : Z := - ((- dnum x) / 2 ^ dscale x).

(** [Math.ceil(x * a * b)] for an integer-valued [x] and literals [a], [b]. *)
Definition Math_ceil_mul (x : number) (a b : dyadic) : number :=
  match x with
  | NaN => NaN
  | Num n => Num (Math_ceil (mul64 (mul64 (ofInteger n) a) b))
  end.

(** A primitive float as a dyadic rational, for comparing the above with
    the hardware's products. *)
Definition ofFloat (f : float) : option dyadic :=
  match Prim2SF f with
  | S754_zero _ => Some {| dnum := 0; dscale := 0 |}
  | S754_finite s m e =>
      let v := if s then Z.neg m else Z.pos m in
      Some (if e <? 0 then {| dnum := v; dscale := - e |}
            else {| dnum := v * 2 ^ e; dscale := 0 |})
  | _ => None
  end.

(** [Math.floor(n / 2)] for an array length [n]. *)
Definition Math_floor_half (n : Z) : Z := n / 2.

(** ** Digits *)

Definition digitValue (c : ascii) : option Z :=
  let n := Z.of_N (N_of_ascii c) in
  if (48 <=? n) && (n <=? 57) then Some (n - 48)
  else if (97 <=? n) && (n <=? 122) then Some (n - 87)
  else if (65 <=? n) && (n <=? 90) then Some (n - 55)
  else None.

Definition digitChar (d : Z) : ascii :=
  ascii_of_N (Z.to_N (if d <? 10 then 48 + d else 87 + d)).

(** The longest prefix of radix-[R] digits, read most significant first;
    [None] when that prefix is empty. *)
Fixpoint parseDigits (R : Z) (s : string) (acc : option Z) : option Z :=
  match s with
  | EmptyString => acc
  | String c s' =>
      match digitValue c with
      | Some d =>
          if d <? R
          then parseDigits R s' (Some (R * match acc with Some a => a | None => 0 end + d))
          else acc
      | None => acc
      end
  end.

(** Digits of a non-negative integer, least significant produced first and
    pushed on the front of [rest]. *)
Fixpoint digitsAux (fuel : nat) (R z : Z) (rest : string) : string :=
  match fuel with
  | O => rest
  | S fuel' =>
      let rest' := String (digitChar (z mod R)) rest in
      if z / R =? 0 then rest' else digitsAux fuel' R (z / R) rest'
  end.

Definition digits (R z : Z) : string :=
  digitsAux (S (Z.to_nat (Z.log2 z))) R z "".

(** [x.toString(radix)] on an integer-valued number, for a radix in which
    every digit of the integer is printed: 16 in these sources, and 10 for
    safe integers. *)
Definition Number_toString (x : number) (R : Z) : string :=
  match x with
  | NaN => "NaN"
  | Num z => if z <? 0 then "-" ++ digits R (- z) else digits R z
  end.

(** ** String(x)

    A safe integer is printed digit by digit.  Beyond, [String] prints the
    shortest decimal significand [s], of [k] digits, for which
    [s * 10^(n - k)] is held as the same double, [n] being the number of
    digits of the value: followed by zeros up to 21 digits, in exponent
    notation ([1e+21]) from there, and [Infinity] from 2^1024. *)
Definition decimalLength (a : Z) : Z := Z.of_nat (String.length (digits 10 a)).

Definition heldAs (v a : Z) : bool := round53 v =? a.

(** The [k]-digit significand for [a], the closer one if two will do. *)
Definition significandOf (a n k : Z) : option Z :=
  let p := 10 ^ (n - k) in
  let lo := a / p in
  let hi := lo + 1 in
  match heldAs (lo * p) a, heldAs (hi * p) a with
  | true, true =>
      Some (if a - lo * p <? hi * p - a then lo
            else if hi * p - a <? a - lo * p then hi
            else if Z.even lo then lo else hi)
  | true, false => Some lo
  | false, true => Some hi
  | false, false => None
  end.

Fixpoint shortest (fuel : nat) (a n k : Z) : Z * Z :=
  match fuel with
  | O => (a, n)
  | S fuel' =>
      match significandOf a n k with
      | Some s => (s, k)
      | None => shortest fuel' a n (k + 1)
      end
  end.

Fixpoint zeros (m : nat) : string :=
  match m with
  | O => ""
  | S m' => String "0" (zeros m')
  end.

(** The digits and the exponent of [s * 10^(n - k)]. *)
Definition exponential (s n : Z) : string :=
  match digits 10 s with
  | String d "" => String d ("e+" ++ digits 10 (n - 1))
  | String d ds => String d ("." ++ ds ++ "e+" ++ digits 10 (n - 1))
  | "" => ""
  end.

(** A double [a] above the safe integers. *)
Definition printDouble (a : Z) : string :=
  if 2 ^ 1024 <=? a then "Infinity"
  else
    let n0 := decimalLength a in
    let '(s0, k0) := shortest 17 a n0 1 in
    let '(s, k, n) := if s0 =? 10 ^ k0 then (1, 1, n0 + 1) else (s0, k0, n0) in
    if n <=? 21 then digits 10 s ++ zeros (Z.to_nat (n - k)) else exponential s n.

(** [String(x)] *)
Definition ToString (x : number) : string :=
  match x with
  | NaN => "NaN"
  | Num z =>
      if Number_isSafeInteger x then Number_toString x 10
      else (if z <? 0 then "-" else "") ++ printDouble (round53 (Z.abs z))
  end.

(** ** parseInt *)

(** A string is its sequence of code units, each below 256.  Of the white
    space and line terminators [parseInt] skips, those below 256 are TAB,
    LF, VT, FF, CR, SP and NBSP. *)
Definition isWhiteSpace (c : ascii) : bool :=
  let n := N_of_ascii c in
  ((9 <=? n) && (n <=? 13) || (n =? 32) || (n =? 160))%N.

Fixpoint trimStart (s : string) : string :=
  match s with
  | String c s' => if isWhiteSpace c then trimStart s' else s
  | EmptyString => s
  end.

Definition stripSign (s : string) : Z * string :=
  match s with
  | String "-" s' => (-1, s')
  | String "+" s' => (1, s')
  | _ => (1, s)
  end.

Definition stripHexPrefix (s : string) : option string :=
  match s with
  | String "0" (String "x" s') => Some s'
  | String "0" (String "X" s') => Some s'
  | _ => None
  end.

(** [parseInt(s, radix)]; [radix = None] is the one-argument call. *)
Definition parseInt (s : string) (radix : option Z) : number :=
  let '(sign, s1) := stripSign (trimStart s) in
  let '(R, s2) :=
    match radix with
    | Some 16 | Some 0 | None =>
        match stripHexPrefix s1 with
        | Some s' => (16, s')
        | None => (match radix with Some 16 => 16 | _ => 10 end, s1)
        end
    | Some r => (r, s1)
    end in
  if (R <? 2) || (36 <? R) then NaN
  else match parseDigits R s2 None with
       | Some v => Num (sign * v)
       | None => NaN
       end.

(** ** Array.prototype.sort without a comparator

    [undefined] goes last; the other elements are compared as strings, by
    code unit.  The sort is stable. *)
Definition SortCompare_le (x y : option number) : bool :=
  match x, y with
  | None, None => true
  | None, Some _ => false
  | Some _, None => true
  | Some a, Some b => negb (String.ltb (ToString b) (ToString a))
  end.

(** A stable insertion sort by [le]; any stable sort gives the same array. *)
Fixpoint sort_insert {A} (le : A -> A -> bool) (x : A) (l : list A) : list A :=
  match l with
  | [] => [x]
  | y :: l' => if le x y then x :: l else y :: sort_insert le x l'
  end.

Fixpoint sort_by {A} (le : A -> A -> bool) (l : list A) : list A :=
  match l with
  | [] => []
  | x :: l' => sort_insert le x (sort_by le l')
  end.

(** [arr.sort()] on an array of numbers and [undefined]s. *)
Definition Array_sort (l : list (option number)) : list (option number) :=
  sort_by SortCompare_le l.

(** ** Objects keyed by the strings of integers

    An object is the list of its own properties in the order
    [Object.entries] and the spread operator enumerate them: first the keys
    that are array indices (canonical numeric strings below 2^32 - 1) in
    ascending numeric order, then every other key in the order of creation.
    The key [String(k)] of an integer [k] is represented by [k]. *)
Definition object (V : Type) : Type := list (Z * V).

Definition isArrayIndex (k : Z) : bool := (0 <=? k) && (k <? 2 ^ 32 - 1).

(** [o[k]] *)
Fixpoint obj_get {V} (o : object V) (k : Z) : option V :=
  match o with
  | [] => None
  | (k', v) :: o' => if k =? k' then Some v else obj_get o' k
  end.

(** [o[k] = v]: an existing property keeps its place; a new array index
    goes to its numeric position, any other new key goes last. *)
Fixpoint obj_set {V} (o : object V) (k : Z) (v : V) : object V :=
  match o with
  | [] => [(k, v)]
  | (k', v') :: o' =>
      if k =? k' then (k, v) :: o'
      else if isArrayIndex k && (negb (isArrayIndex k') || (k <? k'))
      then (k, v) :: o
      else (k', v') :: obj_set o' k v
  end.

(** [{...o}]: a fresh object receives the properties of [o] in key order. *)
Definition obj_spread {V} (o : object V) : object V :=
  fold_left (fun acc kv => obj_set acc (fst kv) (snd kv)) o [].

(** [Object.entries(o)]: the keys come back as strings. *)
Definition Object_entries {V} (o : object V) : list (string * V) :=
  map (fun kv => (ToString (Num (fst kv)), snd kv)) o.

End JS.

Import JS.

(* ================================================================== *)
(** * src/main/transaction/gasCalculator.ts *)
(* ================================================================== *)

Module GasCalculator.

(** [const oneGwei = 1e9] *)
Definition oneGwei : number := Num 1000000000.

(** [intToHex] of ethereumjs-util (release 7): it refuses anything but a
    non-negative safe integer and otherwise prints [0x] followed by
    [i.toString(16)]. *)
Definition intToHex (i : number) : completion string :=
  match i with
  | Num z =>
      if Number_isSafeInteger i && negb (z <? 0)
      then Normal ("0x" ++ Number_toString i 16)
      else Throw (Error "Received an invalid integer type")
  | NaN => Throw (Error "Received an invalid integer type")
  end.

(** The part of [RawTransaction] this code reads, and the rest of the object. *)
Record RawTransaction := {
  chainId : string;
  txFields : list (string * string)
}.

Record GasEstimateResponse := {
  error : option string;
  result : string
}.

(** [undefined] stands for a field the node left out of a malformed reply. *)
Record FeeHistoryResponse := {
  baseFeePerGas : option (list string);
  gasUsedRatio : option (list float);
  reward : option (list (list string))
}.

Inductive param :=
| PTx (tx : RawTransaction)
| PNum (n : Z)
| PStr (s : string)
| PNums (l : list Z).

Record ProviderRequest := {
  method : string;
  params : list param;
  id : Z;
  jsonrpc : string
}.

Record TargetChain := {
  type : string;
  chain_id : number
}.

Record Block := {
  baseFee : number;
  rewards : list number;
  blockGasUsedRatio : option float
}.

Record Eip1559GasFees := {
  maxBaseFeePerGas : string;
  maxPriorityFeePerGas : string;
  maxFeePerGas : string
}.

Definition rpcPayload (method : string) (params : list param) (id : Z) : ProviderRequest :=
  {| method := method; params := params; id := id; jsonrpc := "2.0" |}.

(** The node connection.  [send] is used in two styles: with a callback and
    a target chain (the reply handed to the callback is [send_callback]'s
    value), and as a promise ([send_promise]). *)
Record Connection := {
  send_callback : ProviderRequest -> TargetChain -> GasEstimateResponse;
  send_promise : ProviderRequest -> promise FeeHistoryResponse
}.

(** [class GasCalculator] *)
Record t := {
  connection : Connection;
  defaultGasLevel : string
}.

Definition getGasPrice (this : t) (rawTx : RawTransaction) : string :=
  defaultGasLevel this.

(** A string is truthy unless it is empty. *)
Definition truthyString (s : option string) : bool :=
  match s with
  | Some EmptyString => false
  | Some _ => true
  | None => false
  end.

Definition getGasEstimate (this : t) (rawTx : RawTransaction) : promise string :=
  let targetChain := {| type := "ethereum"; chain_id := parseInt (chainId rawTx) (Some 16) |} in
  let payload := rpcPayload "eth_estimateGas" [PTx rawTx] 1 in
  let response := send_callback (connection this) payload targetChain in
  match error response with
  | Some e => if truthyString (Some e) then Rejected (Payload e) else Resolved (result response)
  | None => Resolved (result response)
  end.

Definition feeHistoryBlocks (feeHistory : FeeHistoryResponse) : completion (list Block) :=
  baseFees <- deref (baseFeePerGas feeHistory) ;;
  mapi_from (fun baseFee i =>
    ratios <- deref (gasUsedRatio feeHistory) ;;
    rewardRows <- deref (reward feeHistory) ;;
    Normal {| baseFee := parseInt baseFee (Some 16);
              blockGasUsedRatio := index ratios i;
              rewards := map (fun reward => parseInt reward (Some 16))
                             (match index rewardRows i with Some r => r | None => [] end) |})
    0 baseFees.

Definition _getFeeHistory (this : t) (numBlocks : Z) (rewardPercentiles : list Z)
    (newestBlock : string) : promise (list Block) :=
  let payload := rpcPayload "eth_feeHistory" [PNum numBlocks; PStr newestBlock; PNums rewardPercentiles] 1 in
  async (feeHistory <- await (send_promise (connection this) payload) ;;
         feeHistoryBlocks feeHistory).

(** [block.gasUsedRatio >= 0.1 && block.gasUsedRatio <= 0.9]; a missing
    ratio converts to NaN and fails both comparisons. *)
Definition eligible (block : Block) : bool :=
  match blockGasUsedRatio block with
  | Some r => PrimFloat.leb 0.1 r && PrimFloat.leb r 0.9
  | None => false
  end.

(** The literal [1.125], which is 9/8. *)
Definition literal_1_125 : dyadic := {| dnum := 9; dscale := 3 |}.

(** [const calculatedFee = Math.ceil(nextBlockFee * 1.125 * 1.125)] *)
Definition calculatedFee (nextBlockFee : number) : number :=
  Math_ceil_mul nextBlockFee literal_1_125 literal_1_125.

(** [blocks.filter(...).map(block => block.rewards[0])] *)
Definition eligibleRewardsBlocks (blocks : list Block) : list (option number) :=
  map (fun block => index (rewards block) 0) (filter eligible blocks).

(** [eligibleRewardsBlocks.sort()[Math.floor(eligibleRewardsBlocks.length / 2)]] *)
Definition selectedReward (blocks : list Block) : option number :=
  index_undef (Array_sort (eligibleRewardsBlocks blocks))
              (Math_floor_half (length_ (eligibleRewardsBlocks blocks))).

(** [const medianReward = ... || oneGwei] *)
Definition medianReward (blocks : list Block) : number :=
  or_else (selectedReward blocks) oneGwei.

(** The [try] block of [getFeePerGas] once the history has arrived. *)
Definition feesFromBlocks (blocks : list Block) : completion Eip1559GasFees :=
  lastBlock <- deref (index blocks (length_ blocks - 1)) ;;
  let nextBlockFee := baseFee lastBlock in
  base <- intToHex (calculatedFee nextBlockFee) ;;
  priority <- intToHex (medianReward blocks) ;;
  total <- intToHex (add (calculatedFee nextBlockFee) (medianReward blocks)) ;;
  Normal {| maxBaseFeePerGas := base;
            maxPriorityFeePerGas := priority;
            maxFeePerGas := total |}.

(** The whole [try] block. *)
Definition tryFees (this : t) : completion Eip1559GasFees :=
  blocks <- await (_getFeeHistory this 10 [10] "latest") ;;
  feesFromBlocks blocks.

(** The [catch] block: [defaultGas]. *)
Definition defaultGas (this : t) : completion Eip1559GasFees :=
  priority <- intToHex oneGwei ;;
  total <- intToHex (add (parseInt (defaultGasLevel this) None) oneGwei) ;;
  Normal {| maxBaseFeePerGas := defaultGasLevel this;
            maxPriorityFeePerGas := priority;
            maxFeePerGas := total |}.

Definition getFeePerGas (this : t) : promise Eip1559GasFees :=
  async (match tryFees this with
         | Normal fees => Normal fees
         | Throw _ => defaultGas this
         end).

End GasCalculator.


(* ================================================================== *)
(** * src/main/externalData/balances/reducers.ts *)
(* ================================================================== *)

Module Reducers.

(** [TokenDefinition]: the fields of [Token], with [logoUri] for [logoURI].
    Chain ids are integers. *)
Record TokenDefinition := {
  name : string;
  symbol : string;
  chainId : Z;
  address : string;
  decimals : Z;
  logoUri : option string
}.

Definition TokensByChain : Type := object (list TokenDefinition).

Definition groupByChain (grouped : TokensByChain) (token : TokenDefinition) : TokensByChain :=
  obj_set (obj_spread grouped) (chainId token)
    ((match obj_get grouped (chainId token) with
      | Some tokens => tokens
      | None => []
      end) ++ [token])%list.

End Reducers.

(* ================================================================== *)
(** * src/main/externalData/balances/scan.ts *)
(* ================================================================== *)

Module Scan.

Import Reducers.

(** bignumber.js is a dependency, not part of the sources: a display
    string is kept as the expression that computes it,
    [new BigNumber(rawBalance).shiftedBy(shift).toString()]. *)
Inductive displayString : Type :=
| BigNumber_shiftedBy_toString (rawBalance : string) (shift : Z).

Record ExternalBalance := {
  balance : string;
  displayBalance : displayString
}.

(** [{...token, ...balance}]: either operand of the spread may be
    [undefined], which contributes no field. *)
Record TokenBalance := {
  tokenFields : option TokenDefinition;
  balanceFields : option ExternalBalance
}.

(** The objects [getNativeCurrencyBalance] returns; a field that the object
    literal does not mention is absent. *)
Record CurrencyBalance := {
  cb_balance : string;
  cb_displayBalance : option displayString;
  cb_displayValue : option string;
  cb_chainId : Z
}.

Definition createBalance (rawBalance : string) (decimals : Z) : ExternalBalance :=
  {| balance := rawBalance;
     displayBalance := BigNumber_shiftedBy_toString rawBalance (- decimals) |}.

(** An ethers [BigNumber], seen through its only method used here. *)
Record EthersBigNumber := { toHexString : string }.

(** [Call<EthersBigNumber, ExternalBalance>] and the batcher's per-call result. *)
Record Call := {
  target : string;
  call : string * string;
  returns : list (EthersBigNumber -> ExternalBalance)
}.

Record CallResult := {
  success : bool;
  returnValues : list ExternalBalance
}.

Inductive EthRequest : Type :=
| eth_getBalance (address blockTag chainId : string)
| eth_call (id : Z) (chainId to value data blockTag : string).

(** The collaborators: the provider [eth], the ERC-20 [Interface] built from
    the ABI, and the [multicall] module. *)
Record Env := {
  request : EthRequest -> promise string;
  encodeFunctionData_balanceOf : string -> completion string;
  (** [decodeFunctionResult('balanceOf', response)] followed by [.balance] *)
  decodeFunctionResult_balanceOf : string -> completion (option EthersBigNumber);
  multicallSupportsChain : number -> bool;
  (** [multicall(chainId, eth).batchCall(calls)] *)
  batchCall : number -> list Call -> promise (list CallResult)
}.

(** [addHexPrefix] of ethereumjs-util. *)
Definition addHexPrefix (s : string) : string :=
  match s with
  | String "0" (String "x" _) => s
  | _ => "0x" ++ s
  end.

Definition balanceCalls (owner : string) (tokens : list TokenDefinition) : list Call :=
  map (fun token =>
         {| target := address token;
            call := ("function balanceOf(address address) returns (uint256 value)", owner);
            returns := [fun bn => createBalance (toHexString bn) (decimals token)] |})
      tokens.

Definition getNativeCurrencyBalance (env : Env) (address : string) (chainId : Z)
  : promise CurrencyBalance :=
  async
    (match (rawBalance <- await (request env
                (eth_getBalance address "latest"
                   (addHexPrefix (Number_toString (Num chainId) 16)))) ;;
            let b := createBalance rawBalance 18 in
            Normal {| cb_balance := balance b;
                      cb_displayBalance := Some (displayBalance b);
                      cb_displayValue := None;
                      cb_chainId := chainId |}) with
     | Normal v => Normal v
     | Throw _ =>
         Normal {| cb_balance := "0x0";
                   cb_displayBalance := None;
                   cb_displayValue := Some "0.0";
                   cb_chainId := chainId |}
     end).

(** The module-level counter [id] is threaded through: every function that
    may issue [eth_call] takes the current value and returns the new one. *)
Definition getTokenBalance (env : Env) (token : TokenDefinition) (owner : string) (id : Z)
  : promise string * Z :=
  match encodeFunctionData_balanceOf env owner with
  | Throw _ => (Resolved "0x0", id)
  | Normal functionData =>
      let id' := id + 1 in
      (async
         (match (response <- await (request env
                     (eth_call id' (addHexPrefix (Number_toString (Num (chainId token)) 16))
                               (address token) "0x0" functionData "latest")) ;;
                 result <- decodeFunctionResult_balanceOf env response ;;
                 bn <- deref result ;;
                 Normal (toHexString bn)) with
          | Normal raw => Normal raw
          | Throw _ => Normal "0x0"
          end),
       id')
  end.

(** [tokens.map(async (token) => ...)]: the calls are issued in array order. *)
Fixpoint tokenBalancePromises (env : Env) (owner : string) (tokens : list TokenDefinition)
    (id : Z) : list (promise TokenBalance) * Z :=
  match tokens with
  | [] => ([], id)
  | token :: tokens' =>
      let '(p, id1) := getTokenBalance env token owner id in
      let balance :=
        async (rawBalance <- await p ;;
               Normal {| tokenFields := Some token;
                         balanceFields := Some (createBalance rawBalance (decimals token)) |}) in
      let '(ps, id2) := tokenBalancePromises env owner tokens' id1 in
      (balance :: ps, id2)
  end.

Definition getTokenBalancesFromContracts (env : Env) (owner : string)
    (tokens : list TokenDefinition) (id : Z) : promise (list TokenBalance) * Z :=
  let '(balances, id') := tokenBalancePromises env owner tokens id in
  (Promise_all balances, id').

(** The callback of [results.map((result, i) => ...)]. *)
Definition mergeResult (tokens : list TokenDefinition) (result : CallResult) (i : Z)
  : completion TokenBalance :=
  balance <- (if success result
              then Normal (index (returnValues result) 0)
              else (token <- deref (index tokens i) ;;
                    Normal (Some (createBalance "0x0" (decimals token))))) ;;
  Normal {| tokenFields := index tokens i; balanceFields := balance |}.

Definition getTokenBalancesFromMulticall (env : Env) (owner : string)
    (tokens : list TokenDefinition) (chainId : number) : promise (list TokenBalance) :=
  let calls := balanceCalls owner tokens in
  async (results <- await (batchCall env chainId calls) ;;
         mapi_from (mergeResult tokens) 0 results).

Definition getCurrencyBalances (env : Env) (address : string) (chains : list Z)
  : promise (list CurrencyBalance) :=
  let fetchChainBalance := getNativeCurrencyBalance env address in
  Promise_all (map fetchChainBalance chains).

(** [Object.entries(tokensByChain).map(([chain, tokens]) => ...)] *)
Fixpoint chainBalancePromises (env : Env) (owner : string)
    (entries : list (string * list TokenDefinition)) (id : Z)
  : list (promise (list TokenBalance)) * Z :=
  match entries with
  | [] => ([], id)
  | (chain, tokens) :: entries' =>
      let chainId := parseInt chain None in
      let '(p, id1) :=
        if multicallSupportsChain env chainId
        then (getTokenBalancesFromMulticall env owner tokens chainId, id)
        else getTokenBalancesFromContracts env owner tokens id in
      let '(ps, id2) := chainBalancePromises env owner entries' id1 in
      (p :: ps, id2)
  end.

Definition getTokenBalances (env : Env) (owner : string) (tokens : list TokenDefinition)
    (id : Z) : promise (list TokenBalance) * Z :=
  let tokensByChain := fold_left groupByChain tokens ([] : TokensByChain) in
  let '(promises, id') := chainBalancePromises env owner (Object_entries tokensByChain) id in
  (async (tokenBalances <- await (Promise_all promises) ;;
          Normal (concat tokenBalances)),
   id').

End Scan.


(* ================================================================== *)
(** * Specification-level notions *)
(* ================================================================== *)

Module Spec.

(** ** Strings of decimal digits *)
Fixpoint allDecimal (s : string) : bool :=
  match s with
  | EmptyString => true
  | String c s' => ((48 <=? N_of_ascii c) && (N_of_ascii c <=? 57))%N && allDecimal s'
  end.

(** ** Hex-encoded integers

    The value of a string that is [0x] followed by one or more hex digits
    and nothing else. *)
Fixpoint readDigits (R : Z) (s : string) (acc : option Z) : option Z :=
  match s with
  | EmptyString => acc
  | String c s' =>
      match digitValue c with
      | Some d =>
          if d <? R
          then readDigits R s' (Some (R * match acc with Some a => a | None => 0 end + d))
          else None
      | None => None
      end
  end.

(** The hex encoding of a non-negative integer. *)
Definition hexString (z : Z) : string := "0x" ++ digits 16 z.

Definition hexValue (s : string) : option Z :=
  match s with
  | String "0" (String "x" ds) => readDigits 16 ds None
  | _ => None
  end.

(** ** Own-property order of integer-like keys

    [key_before k k']: the key [k] may come before the distinct key [k']
    in an object.  An array index comes before every larger array index and
    before every key that is not an array index. *)
Definition key_before (k k' : Z) : Prop :=
  k <> k' /\ (isArrayIndex k' = true -> isArrayIndex k = true /\ k < k').

Definition keys {V} (o : object V) : list Z := map fst o.

(** The properties of [o] are listed in own-property order. *)
Definition ordered {V} (o : object V) : Prop := StronglySorted key_before (keys o).

(** The objects whose keys are safe integers, and the token lists whose
    chain ids are: each is held exactly, and [String] prints all its
    digits. *)
Definition safeKeys {V} (o : object V) : Prop :=
  Forall (fun kv => Number_isSafeInteger (Num (fst kv)) = true) o.

Definition safeChainIds (tokens : list Reducers.TokenDefinition) : Prop :=
  Forall (fun token => Number_isSafeInteger (Num (Reducers.chainId token)) = true) tokens.

(** The distinct elements of a list, in order of first appearance. *)
Fixpoint firstAppearances (l : list Z) : list Z :=
  match l with
  | [] => []
  | x :: l' => x :: filter (fun y => negb (y =? x)) (firstAppearances l')
  end.

(** [tokens.reduce(groupByChain, {})] *)
Definition grouped (tokens : list Reducers.TokenDefinition) : Reducers.TokensByChain :=
  fold_left Reducers.groupByChain tokens ([] : Reducers.TokensByChain).

(** The tokens of chain [c], in input order. *)
Definition tokensOfChain (tokens : list Reducers.TokenDefinition) (c : Z)
  : list Reducers.TokenDefinition :=
  filter (fun token => Reducers.chainId token =? c) tokens.

(** The tokens chain by chain, for the chains in the order [chains]. *)
Definition byChain (tokens : list Reducers.TokenDefinition) (chains : list Z)
  : list Reducers.TokenDefinition :=
  concat (map (tokensOfChain tokens) chains).

(** The order the specification words: chains by the position of their
    first token. *)
Definition firstAppearanceOrder (tokens : list Reducers.TokenDefinition)
  : list Reducers.TokenDefinition :=
  byChain tokens (firstAppearances (map Reducers.chainId tokens)).

(** ** The batched path

    The token balance a batch result yields for its token: the decoded
    balance of a successful call, a zero balance with the token's decimals
    for a failed one. *)
Definition merged (token : Reducers.TokenDefinition) (result : Scan.CallResult)
  : Scan.TokenBalance :=
  {| Scan.tokenFields := Some token;
     Scan.balanceFields :=
       if Scan.success result
       then index (Scan.returnValues result) 0
       else Some {| Scan.balance := "0x0";
                    Scan.displayBalance :=
                      Scan.BigNumber_shiftedBy_toString "0x0" (- Reducers.decimals token) |} |}.

(** The batcher's contract, for the batches [getTokenBalances] submits: on
    a chain it supports, it answers the calls for that chain's tokens with
    one result per call. *)
Definition batcherAnswers (env : Scan.Env) (owner : string)
    (tokens : list Reducers.TokenDefinition) : Prop :=
  forall c,
    In c (map Reducers.chainId tokens) ->
    Scan.multicallSupportsChain env (Num c) = true ->
    exists results,
      Scan.batchCall env (Num c) (Scan.balanceCalls owner (tokensOfChain tokens c))
      = Resolved results /\
      List.length results = List.length (tokensOfChain tokens c).

(** ** The priority fee as the specification words it

    The reward samples of the eligible blocks sorted ascending, by value;
    the element at index floor(count / 2); 1 gwei when there is none. *)
Definition sortAscending (l : list Z) : list Z := sort_by Z.leb l.

(** A reward sample that is present and a number. *)
Definition rewardSample (z : Z) : option number := Some (Num z).

Definition isZero (v : option number) : bool :=
  match v with
  | Some (Num z) => z =? 0
  | _ => false
  end.

Definition lowerMedian (rewards : list Z) : Z :=
  nth (Nat.div2 (List.length rewards)) (sortAscending rewards) 1000000000.

(** ** The requests the gas calculator sends *)

Definition feeHistoryPayload : GasCalculator.ProviderRequest :=
  GasCalculator.rpcPayload "eth_feeHistory"
    [GasCalculator.PNum 10; GasCalculator.PStr "latest"; GasCalculator.PNums [10]] 1.

Definition estimateGasPayload (rawTx : GasCalculator.RawTransaction) : GasCalculator.ProviderRequest :=
  GasCalculator.rpcPayload "eth_estimateGas" [GasCalculator.PTx rawTx] 1.

Definition estimateGasTarget (rawTx : GasCalculator.RawTransaction) : GasCalculator.TargetChain :=
  {| GasCalculator.type := "ethereum";
     GasCalculator.chain_id := parseInt (GasCalculator.chainId rawTx) (Some 16) |}.

End Spec.

(* ================================================================== *)
(** * Concrete inputs *)
(* ================================================================== *)

Module Examples.

Import GasCalculator.

(** A calculator whose node answers [eth_feeHistory] with [reply]. *)
Definition calculator (defaultGasLevel : string) (reply : promise FeeHistoryResponse) : t :=
  {| connection :=
       {| send_callback := fun _ _ => {| error := None; result := "0x5208" |};
          send_promise := fun _ => reply |};
     defaultGasLevel := defaultGasLevel |}.

(** Ten blocks with base fees 100, ..., 100, 110; the blocks whose ratio
    lies in [0.1, 0.9] carry the rewards 3, 2 and 4. *)
Definition history_100_110 : FeeHistoryResponse :=
  {| baseFeePerGas :=
       Some ["0x64"; "0x64"; "0x64"; "0x64"; "0x64"; "0x64"; "0x64"; "0x64"; "0x64"; "0x6e"];
     gasUsedRatio := Some [0.05; 0.5; 0.95; 0.1; 0.02; 0.9; 1; 0; 0.99; 0.97]%float;
     reward :=
       Some [["0x9"]; ["0x3"]; ["0x7"]; ["0x2"]; ["0x1"]; ["0x4"]; ["0x5"]; ["0x6"]; ["0x8"]; ["0xa"]] |}.

(** Three eligible blocks paying 0.9, 1 and 2 gwei; the trailing base fee
    is the upcoming block's. *)
Definition history_gwei : FeeHistoryResponse :=
  {| baseFeePerGas := Some ["0x64"; "0x64"; "0x64"; "0x6e"];
     gasUsedRatio := Some [0.5; 0.5; 0.5]%float;
     reward := Some [["0x35a4e900"]; ["0x3b9aca00"]; ["0x77359400"]] |}.

(** One eligible block with a base fee of 111199990799281 wei, whose
    product by 81 exceeds 2^53; the trailing base fee is the upcoming
    block's. *)
Definition history_large : FeeHistoryResponse :=
  {| baseFeePerGas := Some ["0x6522c3f35bb1"; "0x6522c3f35bb1"];
     gasUsedRatio := Some [0.5]%float;
     reward := Some [["0x3"]] |}.

(** Three eligible blocks, two of which paid no priority fee. *)
Definition history_zero : FeeHistoryResponse :=
  {| baseFeePerGas := Some ["0x64"; "0x64"; "0x64"; "0x6e"];
     gasUsedRatio := Some [0.5; 0.5; 0.5]%float;
     reward := Some [["0x0"]; ["0x5"]; ["0x0"]] |}.

Definition blocks_zero : list Block :=
  Eval vm_compute in
    match feeHistoryBlocks history_zero with
    | Normal blocks => blocks
    | Throw _ => []
    end.

(** Tokens and providers for the balance scanner. *)
Definition token (chainId : Z) (symbol address : string) : Reducers.TokenDefinition :=
  {| Reducers.name := symbol; Reducers.symbol := symbol; Reducers.chainId := chainId;
     Reducers.address := address; Reducers.decimals := 6; Reducers.logoUri := None |}.

Definition usdc_polygon := token 137 "USDC" "0x2791bca1f2de4661ed88a30c99a7a9449aa84174".
Definition usdc_mainnet := token 1 "USDC" "0xa0b86991c6218b36c1d19d4a2e9eb0ce3606eb48".
Definition usdt_mainnet := token 1 "USDT" "0xdac17f958d2ee523a2206206994597c13d831ec7".
Definition usdt_polygon := token 137 "USDT" "0xc2132d05d31c914a87c6611c10748aeb04b58e8f".
Definition usdc_palm := token 11297108109 "USDC" "0x4ff78d6b4d4ae9b2a3d4e5b5f15b8a3a4a9c0d21".

Definition owner : string := "0x00000000219ab540356cbb839cbe05303d7705fa".

Definition zeroBalanceOf (t : Reducers.TokenDefinition) : Scan.TokenBalance :=
  {| Scan.tokenFields := Some t;
     Scan.balanceFields :=
       Some {| Scan.balance := "0x0";
               Scan.displayBalance :=
                 Scan.BigNumber_shiftedBy_toString "0x0" (- Reducers.decimals t) |} |}.

(** A provider whose node is unreachable; no chain has a batcher. *)
Definition offline : Scan.Env :=
  {| Scan.request := fun _ => Rejected (Payload "disconnected");
     Scan.encodeFunctionData_balanceOf := fun owner => Normal ("0x70a08231" ++ owner);
     Scan.decodeFunctionResult_balanceOf := fun response =>
       Normal (Some {| Scan.toHexString := response |});
     Scan.multicallSupportsChain := fun _ => false;
     Scan.batchCall := fun _ calls =>
       Resolved (map (fun _ => {| Scan.success := false; Scan.returnValues := [] |}) calls) |}.

(** The same, but chain 1 has a batcher and its batched call itself fails. *)
Definition batcherDown : Scan.Env :=
  {| Scan.request := Scan.request offline;
     Scan.encodeFunctionData_balanceOf := Scan.encodeFunctionData_balanceOf offline;
     Scan.decodeFunctionResult_balanceOf := Scan.decodeFunctionResult_balanceOf offline;
     Scan.multicallSupportsChain := fun c => match c with Num 1 => true | _ => false end;
     Scan.batchCall := fun _ _ => Rejected (Payload "aggregate call reverted") |}.

(** Chain 1 has a batcher that reports every call as failed. *)
Definition batcherAllFailed : Scan.Env :=
  {| Scan.request := Scan.request offline;
     Scan.encodeFunctionData_balanceOf := Scan.encodeFunctionData_balanceOf offline;
     Scan.decodeFunctionResult_balanceOf := Scan.decodeFunctionResult_balanceOf offline;
     Scan.multicallSupportsChain := fun c => match c with Num 1 => true | _ => false end;
     Scan.batchCall := Scan.batchCall offline |}.

(** Chain 1 has a batcher; of two calls the first succeeds with a balance
    of 42 units and the second fails. *)
Definition batcherPartial : Scan.Env :=
  {| Scan.request := Scan.request offline;
     Scan.encodeFunctionData_balanceOf := Scan.encodeFunctionData_balanceOf offline;
     Scan.decodeFunctionResult_balanceOf := Scan.decodeFunctionResult_balanceOf offline;
     Scan.multicallSupportsChain := fun c => match c with Num 1 => true | _ => false end;
     Scan.batchCall := fun _ _ =>
       Resolved [ {| Scan.success := true;
                     Scan.returnValues := [Scan.createBalance "0x2a" 6] |};
                  {| Scan.success := false; Scan.returnValues := [] |} ] |}.

End Examples.

(* ================================================================== *)
(** * src/main/externalData/balances/reducers.ts, continued *)
(* ================================================================== *)

Module Relevant.

Import Reducers Scan.

(** [x > 0] on a number; NaN compares false. *)
Definition gt_zero (x : number) : bool :=
  match x with
  | Num z => 0 <? z
  | NaN => false
  end.

(** [t.balance] as [parseInt] reads it: the string itself, or the string
    of [undefined] when no balance field was merged in. *)
Definition balanceString (t : TokenBalance) : string :=
  match balanceFields t with
  | Some b => balance b
  | None => "undefined"
  end.

Definition relevantBalances (balances tokenBalances : list TokenBalance) : list TokenBalance :=
  let positiveBalances :=
    filter (fun t => gt_zero (parseInt (balanceString t) None)) tokenBalances in
  (balances ++ positiveBalances)%list.

End Relevant.

(* ================================================================== *)
(** * Further specification-level notions *)
(* ================================================================== *)

Module More.

Import Reducers Scan.

(** The zero balance substituted for a token whose lookup failed: the raw
    balance [0x0], displayed at the token's own decimals. *)
Definition zeroBalance (token : TokenDefinition) : TokenBalance :=
  {| tokenFields := Some token;
     balanceFields :=
       Some {| balance := "0x0";
               displayBalance := BigNumber_shiftedBy_toString "0x0" (- decimals token) |} |}.


(** The provider [env] with another batcher behind [multicall]. *)
Definition withBatchCall (env : Env)
    (batchCall' : number -> list Call -> promise (list CallResult)) : Env :=
  {| request := request env;
     encodeFunctionData_balanceOf := encodeFunctionData_balanceOf env;
     decodeFunctionResult_balanceOf := decodeFunctionResult_balanceOf env;
     multicallSupportsChain := multicallSupportsChain env;
     batchCall := batchCall' |}.


(** The chain id as it travels in a request: [addHexPrefix(chainId.toString(16))]. *)
Definition chainParam (chainId : Z) : string :=
  addHexPrefix (Number_toString (Num chainId) 16).

(** Strings of lower-case hex digits. *)
Fixpoint allLowerHex (s : string) : bool :=
  match s with
  | EmptyString => true
  | String c s' =>
      (((48 <=? N_of_ascii c) && (N_of_ascii c <=? 57))
       || ((97 <=? N_of_ascii c) && (N_of_ascii c <=? 102)))%N && allLowerHex s'
  end.

(** The order of token definitions by chain id. *)
Definition chain_le (a b : TokenDefinition) : Prop := chainId a <= chainId b.

(** Whether [owner] can be encoded into [balanceOf] call data. *)
Definition encodes (env : Env) (owner : string) : bool :=
  match encodeFunctionData_balanceOf env owner with
  | Normal _ => true
  | Throw _ => false
  end.

(** The request ids one [getTokenBalance] call takes: [id += 1] runs once
    the call data is encoded. *)
Definition idsPerCall (env : Env) (owner : string) : Z :=
  if encodes env owner then 1 else 0.

(** The tokens that are looked up one by one: those on chains without a batcher. *)
Definition unbatched (env : Env) (tokens : list TokenDefinition) : list TokenDefinition :=
  filter (fun token => negb (multicallSupportsChain env (Num (chainId token)))) tokens.

End More.

Import Spec GasCalculator.

Open Scope list_scope.

(* ================================================================== *)
(** * The runtime fragment at work *)
(* ================================================================== *)

Example parseInt_hex : parseInt "0x6e" (Some 16) = Num 110.
Proof. reflexivity. Qed.

Example parseInt_bare_hex : parseInt "6e" (Some 16) = Num 110.
Proof. reflexivity. Qed.

Example parseInt_prefix : parseInt " 12px" None = Num 12.
Proof. reflexivity. Qed.

Example parseInt_garbage : parseInt "gwei" (Some 16) = NaN.
Proof. reflexivity. Qed.

Example parseInt_empty_hex : parseInt "0x" (Some 16) = NaN.
Proof. reflexivity. Qed.

Example toString_decimal : ToString (Num 1000000000) = "1000000000".
Proof. reflexivity. Qed.

Example toString_hex : Number_toString (Num 137) 16 = "89".
Proof. reflexivity. Qed.

Example intToHex_refuses_NaN : exists e, intToHex NaN = Throw e.
Proof. eexists. reflexivity. Qed.

Example intToHex_refuses_unsafe : exists e, intToHex (Num (2 ^ 53)) = Throw e.
Proof. eexists. reflexivity. Qed.

(** The products of [Math_ceil_mul] are those of the hardware. *)
Example products_are_binary64 :
  forall n,
    In n [0; 1; 7; 100; 110; 1000000000; 111199990799281; 2 ^ 47 + 49; 2 ^ 52 + 1;
          2 ^ 53 - 1; 2 ^ 53; 2 ^ 60; 2 ^ 62 + 2 ^ 10; 2 ^ 62 - 512] ->
    option_map (fun c => Num (Math_ceil c))
      (ofFloat (PrimFloat.of_uint63 (Uint63.of_Z n) * 1.125 * 1.125)%float)
    = Some (calculatedFee (Num n)).
Proof.
  intros n H. cbn [In] in H.
  repeat (destruct H as [<- | H]; [vm_compute; reflexivity|]). destruct H.
Qed.

Example sort_is_by_string :
  Array_sort [Some (Num 9); Some (Num 100); None; Some (Num 10)]
  = [Some (Num 10); Some (Num 100); Some (Num 9); None].
Proof. reflexivity. Qed.

(** From 10^21 on the strings compared are in exponent notation. *)
Example sort_of_exponent_strings :
  Array_sort [Some (Num (10 ^ 21)); Some (Num (15 * 10 ^ 20)); Some (Num 2)]
  = [Some (Num (15 * 10 ^ 20)); Some (Num (10 ^ 21)); Some (Num 2)].
Proof. vm_compute. reflexivity. Qed.

Example keys_are_reordered :
  keys (obj_set (obj_set (obj_set (obj_set [] 137 "a") 11297108109 "b") 1 "c") 10 "d")
  = [1; 10; 137; 11297108109].
Proof. reflexivity. Qed.

Example eligible_is_closed_interval :
  map eligible
    [ {| baseFee := Num 1; rewards := []; blockGasUsedRatio := Some 0.1%float |};
      {| baseFee := Num 1; rewards := []; blockGasUsedRatio := Some 0.9%float |};
      {| baseFee := Num 1; rewards := []; blockGasUsedRatio := Some 0.09%float |};
      {| baseFee := Num 1; rewards := []; blockGasUsedRatio := Some 0.91%float |};
      {| baseFee := Num 1; rewards := []; blockGasUsedRatio := None |} ]
  = [true; true; false; false; false].
Proof. reflexivity. Qed.

(* ================================================================== *)
(** * Rounding to 53 bits *)
(* ================================================================== *)

(** Integers below 2^53 in magnitude are doubles. *)
Lemma round53_small (m : Z) : Z.abs m < 2 ^ 53 -> round53 m = m.
Proof.
  intros H. unfold round53.
  assert (Hlog : Z.log2 (Z.abs m) <= 52).
  { destruct (Z.eq_dec (Z.abs m) 0) as [-> | Hne]; [cbn; lia|].
    assert (Z.log2 (Z.abs m) < 53) by (apply Z.log2_lt_pow2; lia). lia. }
  replace (Z.log2 (Z.abs m) - 52 <=? 0) with true by (symmetry; apply Z.leb_le; lia).
  reflexivity.
Qed.

Lemma round53_opp (m : Z) : round53 (- m) = - round53 m.
Proof.
  unfold round53. rewrite Z.abs_opp, Z.sgn_opp.
  destruct (Z.log2 (Z.abs m) - 52 <=? 0); lia.
Qed.

(** Rounding a non-negative integer loses less than one part in a hundred
    (in fact less than one part in 2^53). *)
Lemma round53_lower (m : Z) : 0 <= m -> 99 * m <= 100 * round53 m.
Proof.
  intros Hm. unfold round53. rewrite (Z.abs_eq m Hm).
  destruct (Z.log2 m - 52 <=? 0) eqn:Ee; [lia|].
  apply Z.leb_gt in Ee.
  assert (Hpos : 0 < m).
  { destruct (Z.eq_dec m 0) as [-> | ]; [cbn in Ee; lia | lia]. }
  set (e := Z.log2 m - 52) in *.
  destruct (Z.log2_spec m Hpos) as [Hlow _].
  replace (Z.log2 m) with (e + 52) in Hlow by (unfold e; lia).
  rewrite Z.pow_add_r in Hlow by lia.
  assert (HP : 0 < 2 ^ e) by (apply Z.pow_pos_nonneg; lia).
  set (P := 2 ^ e) in *.
  pose proof (Z.div_mod m P ltac:(lia)) as Hdm.
  pose proof (Z.mod_pos_bound m P HP) as Hr.
  set (q := m / P) in *. set (r := m mod P) in *.
  rewrite (Z.sgn_pos m Hpos), Z.mul_1_l.
  set (q' := if r <? 2 ^ (e - 1) then q
             else if 2 ^ (e - 1) <? r then q + 1
             else if Z.even q then q else q + 1).
  assert (Hq' : q <= q').
  { unfold q'. destruct (r <? 2 ^ (e - 1)); [lia|].
    destruct (2 ^ (e - 1) <? r); [lia|]. destruct (Z.even q); lia. }
  assert (Hmul : P * q <= q' * P) by nia.
  change (2 ^ 52) with 4503599627370496 in Hlow. lia.
Qed.

(* ================================================================== *)
(** * Digits: printing and reading back *)
(* ================================================================== *)

Lemma digitValue_digitChar (d : Z) :
  0 <= d < 36 -> digitValue (digitChar d) = Some d.
Proof.
  intros Hd. unfold digitValue, digitChar.
  rewrite N_ascii_embedding.
  - rewrite Z2N.id by (destruct (d <? 10); lia).
    destruct (d <? 10) eqn:E.
    + apply Z.ltb_lt in E.
      replace ((48 <=? 48 + d) && (48 + d <=? 57)) with true
        by (symmetry; apply andb_true_iff; split; apply Z.leb_le; lia).
      f_equal; lia.
    + apply Z.ltb_ge in E.
      replace ((48 <=? 87 + d) && (87 + d <=? 57)) with false
        by (symmetry; apply andb_false_iff; right; apply Z.leb_gt; lia).
      replace ((97 <=? 87 + d) && (87 + d <=? 122)) with true
        by (symmetry; apply andb_true_iff; split; apply Z.leb_le; lia).
      f_equal; lia.
  - destruct (d <? 10); lia.
Qed.

Lemma readDigits_step (R d : Z) (rest : string) (acc : option Z) :
  0 <= d < R -> R <= 36 ->
  readDigits R (String (digitChar d) rest) acc
  = readDigits R rest (Some (R * match acc with Some a => a | None => 0 end + d)).
Proof.
  intros Hd HR. cbn [readDigits].
  rewrite digitValue_digitChar by lia.
  replace (d <? R) with true by (symmetry; apply Z.ltb_lt; lia).
  reflexivity.
Qed.

Lemma readDigits_digitsAux (R : Z) (fuel : nat) :
  2 <= R <= 36 ->
  forall z rest,
    0 <= z < 2 ^ Z.of_nat (S fuel) ->
    readDigits R (digitsAux (S fuel) R z rest) None = readDigits R rest (Some z).
Proof.
  intros HR. induction fuel as [|fuel IH]; intros z rest Hz.
  - assert (Hq : z / R = 0) by (apply Z.div_small; change (2 ^ Z.of_nat 1) with 2 in Hz; lia).
    cbn [digitsAux]. rewrite Hq. cbn [Z.eqb].
    rewrite Z.mod_small by (change (2 ^ Z.of_nat 1) with 2 in Hz; lia).
    rewrite readDigits_step by (change (2 ^ Z.of_nat 1) with 2 in Hz; lia).
    f_equal. f_equal. lia.
  - remember (S fuel) as f eqn:Ef.
    cbn [digitsAux].
    assert (Hm : 0 <= z mod R < R) by (apply Z.mod_pos_bound; lia).
    destruct (z / R =? 0) eqn:Eq.
    + apply Z.eqb_eq in Eq.
      rewrite readDigits_step by lia.
      f_equal. f_equal.
      pose proof (Z.div_mod z R ltac:(lia)). lia.
    + apply Z.eqb_neq in Eq.
      subst f. rewrite IH.
      * rewrite readDigits_step by lia.
        f_equal. f_equal.
        pose proof (Z.div_mod z R ltac:(lia)). lia.
      * split; [apply Z.div_pos; lia|].
        apply Z.div_lt_upper_bound; [lia|].
        rewrite (Nat2Z.inj_succ (S fuel)), Z.pow_succ_r in Hz by lia.
        nia.
Qed.

Lemma readDigits_digits (R z : Z) :
  2 <= R <= 36 -> 0 <= z -> readDigits R (digits R z) None = Some z.
Proof.
  intros HR Hz. unfold digits.
  rewrite readDigits_digitsAux; [reflexivity | assumption |].
  split; [assumption|].
  rewrite Nat2Z.inj_succ, Z2Nat.id by apply Z.log2_nonneg.
  destruct (Z.eq_dec z 0) as [->|Hnz]; [reflexivity|].
  apply Z.log2_spec. lia.
Qed.

Lemma readDigits_parseDigits (R : Z) (s : string) :
  forall acc v, readDigits R s acc = Some v -> parseDigits R s acc = Some v.
Proof.
  induction s as [|c s IH]; intros acc v H; cbn [readDigits parseDigits] in *.
  - assumption.
  - destruct (digitValue c) as [d|]; [|discriminate].
    destruct (d <? R); [|discriminate].
    apply IH, H.
Qed.

Lemma parseDigits_digits (R z : Z) :
  2 <= R <= 36 -> 0 <= z -> parseDigits R (digits R z) None = Some z.
Proof.
  intros. apply readDigits_parseDigits, readDigits_digits; assumption.
Qed.

Lemma hexValue_shape (s : string) (v : Z) :
  hexValue s = Some v ->
  exists ds, s = String "0" (String "x" ds) /\ readDigits 16 ds None = Some v.
Proof.
  unfold hexValue. intros H.
  destruct s as [|c0 s]; [discriminate|].
  destruct c0 as [[] [] [] [] [] [] [] []]; try discriminate.
  destruct s as [|c1 s]; [discriminate|].
  destruct c1 as [[] [] [] [] [] [] [] []]; try discriminate.
  exists s. split; [reflexivity | assumption].
Qed.

Lemma parseInt_hexValue (s : string) (v : Z) :
  hexValue s = Some v -> parseInt s None = Num v.
Proof.
  intros H. apply hexValue_shape in H as (ds & -> & H).
  apply readDigits_parseDigits in H.
  unfold parseInt. cbn -[parseDigits].
  rewrite H. f_equal. destruct v; reflexivity.
Qed.

Lemma intToHex_Normal (i : number) (h : string) :
  intToHex i = Normal h ->
  exists z, i = Num z /\ 0 <= z <= MAX_SAFE_INTEGER /\ h = String "0" (String "x" (digits 16 z)).
Proof.
  unfold intToHex. destruct i as [|z]; [discriminate|].
  destruct (Number_isSafeInteger (Num z) && negb (z <? 0)) eqn:E; [|discriminate].
  intros [= <-]. exists z. apply andb_true_iff in E as [E1 E2].
  unfold Number_isSafeInteger in E1. apply andb_true_iff in E1 as [_ E1].
  apply Z.leb_le in E1. apply negb_true_iff, Z.ltb_ge in E2.
  split; [reflexivity|]. split; [lia|].
  unfold Number_toString. replace (z <? 0) with false by (symmetry; apply Z.ltb_ge; lia).
  reflexivity.
Qed.

Lemma intToHex_safe (z : Z) :
  0 <= z <= MAX_SAFE_INTEGER ->
  intToHex (Num z) = Normal (String "0" (String "x" (digits 16 z))).
Proof.
  intros Hz. unfold intToHex, Number_isSafeInteger.
  replace (- MAX_SAFE_INTEGER <=? z) with true
    by (symmetry; apply Z.leb_le; unfold MAX_SAFE_INTEGER in *; lia).
  replace (z <=? MAX_SAFE_INTEGER) with true by (symmetry; apply Z.leb_le; lia).
  replace (z <? 0) with false by (symmetry; apply Z.ltb_ge; lia).
  cbn [andb negb]. unfold Number_toString.
  replace (z <? 0) with false by (symmetry; apply Z.ltb_ge; lia).
  reflexivity.
Qed.

Lemma hexValue_intToHex (i : number) (h : string) :
  intToHex i = Normal h -> exists z, i = Num z /\ hexValue h = Some z.
Proof.
  intros H. apply intToHex_Normal in H as (z & -> & Hz & ->).
  exists z. split; [reflexivity|].
  cbn [hexValue]. apply readDigits_digits; lia.
Qed.

(** ** Object keys: [parseInt] reads back the key of an integer *)

Lemma digitChar_decimal (d : Z) :
  0 <= d < 10 -> ((48 <=? N_of_ascii (digitChar d)) && (N_of_ascii (digitChar d) <=? 57))%N = true.
Proof.
  intros Hd. unfold digitChar.
  replace (d <? 10) with true by (symmetry; apply Z.ltb_lt; lia).
  rewrite N_ascii_embedding by lia.
  apply andb_true_iff. split; apply N.leb_le; lia.
Qed.

Lemma digitsAux_allDecimal (fuel : nat) :
  forall z rest, allDecimal rest = true -> allDecimal (digitsAux fuel 10 z rest) = true.
Proof.
  induction fuel as [|fuel IH]; intros z rest Hrest; cbn [digitsAux]; [assumption|].
  assert (Hstep : allDecimal (String (digitChar (z mod 10)) rest) = true).
  { cbn [allDecimal]. rewrite digitChar_decimal by (apply Z.mod_pos_bound; lia). exact Hrest. }
  destruct (z / 10 =? 0); [exact Hstep | apply IH, Hstep].
Qed.

Lemma digitsAux_nonempty (fuel : nat) (R z : Z) (rest : string) :
  digitsAux (S fuel) R z rest <> "".
Proof.
  revert z rest. induction fuel as [|fuel IH]; intros z rest.
  - cbn [digitsAux]. destruct (z / R =? 0); discriminate.
  - remember (S fuel) as f. cbn [digitsAux]. subst f.
    destruct (z / R =? 0); [discriminate | apply IH].
Qed.

(** A non-empty string of decimal digits has no blank, sign or [0x] to strip. *)
Lemma decimal_nothing_to_strip (s : string) :
  allDecimal s = true -> s <> "" ->
  trimStart s = s /\ stripSign s = (1, s) /\ stripHexPrefix s = None.
Proof.
  intros Hs Hne. destruct s as [|c s]; [congruence|]. clear Hne.
  cbn [allDecimal] in Hs. apply andb_true_iff in Hs as [Hc Hs].
  destruct c as [[] [] [] [] [] [] [] []]; try discriminate Hc;
    (split; [reflexivity|]; split; [reflexivity|]); try reflexivity.
  destruct s as [|c s]; [reflexivity|].
  cbn [allDecimal] in Hs. apply andb_true_iff in Hs as [Hc' _].
  destruct c as [[] [] [] [] [] [] [] []]; try discriminate Hc'; reflexivity.
Qed.

Lemma parseInt_decimal (s : string) (v : Z) :
  allDecimal s = true -> s <> "" -> parseDigits 10 s None = Some v ->
  parseInt s None = Num v /\ parseInt (String "-" s) None = Num (- v).
Proof.
  intros Hs Hne Hv.
  destruct (decimal_nothing_to_strip s Hs Hne) as (Ht & Hsign & Hhex).
  split.
  - unfold parseInt. rewrite Ht, Hsign, Hhex, Hv.
    change ((10 <? 2) || (36 <? 10)) with false. cbv iota. f_equal; lia.
  - unfold parseInt.
    change (trimStart (String "-" s)) with (String "-" s).
    change (stripSign (String "-" s)) with (-1, s).
    cbv beta iota. rewrite Hhex, Hv.
    change ((10 <? 2) || (36 <? 10)) with false. cbv iota. f_equal; lia.
Qed.

(** A safe integer is printed digit by digit. *)
Lemma ToString_safe (k : Z) :
  Number_isSafeInteger (Num k) = true ->
  ToString (Num k) = if k <? 0 then String "-" (digits 10 (- k)) else digits 10 k.
Proof. intros H. unfold ToString. rewrite H. reflexivity. Qed.

(** [parseInt(String(k))] is [k] for a safe integer [k]: the [chain] of an
    entry reads back as the chain id that created the key. *)
Lemma parseInt_ToString (k : Z) :
  Number_isSafeInteger (Num k) = true -> parseInt (ToString (Num k)) None = Num k.
Proof.
  intros Hsafe. rewrite (ToString_safe k Hsafe).
  destruct (k <? 0) eqn:E.
  - apply Z.ltb_lt in E.
    replace (Num k) with (Num (- - k)) by (f_equal; lia).
    apply parseInt_decimal.
    + apply digitsAux_allDecimal. reflexivity.
    + apply digitsAux_nonempty.
    + apply parseDigits_digits; lia.
  - apply Z.ltb_ge in E. apply parseInt_decimal.
    + apply digitsAux_allDecimal. reflexivity.
    + apply digitsAux_nonempty.
    + apply parseDigits_digits; lia.
Qed.

(** Beyond the safe integers the key no longer reads back: from 10^21 on
    [String] switches to exponent notation, of which [parseInt] reads the
    leading digits. *)
Example parseInt_ToString_exponent :
  ToString (Num (10 ^ 21)) = "1e+21" /\
  parseInt (ToString (Num (10 ^ 21))) None = Num 1 /\
  ToString (Num (2 ^ 64)) = "18446744073709552000" /\
  ToString (Num (15 * 10 ^ 20)) = "1.5e+21" /\
  ToString (Num (2 ^ 70)) = "1.1805916207174113e+21".
Proof. repeat split; vm_compute; reflexivity. Qed.

Lemma Object_entries_chain {V} (o : object V) (chain : string) (v : V) :
  safeKeys o ->
  In (chain, v) (Object_entries o) ->
  exists k, In (k, v) o /\ parseInt chain None = Num k.
Proof.
  unfold Object_entries, safeKeys. intros Hsafe H.
  apply in_map_iff in H as ([k v'] & [= <- <-] & Hin).
  exists k. split; [exact Hin|]. apply parseInt_ToString.
  rewrite Forall_forall in Hsafe. apply (Hsafe (k, v') Hin).
Qed.

(* ================================================================== *)
(** * Sorting: a least element comes first *)
(* ================================================================== *)

Section LeastFirst.

Context {A : Type}.
Variable le : A -> A -> bool.
Variable P : A -> Prop.
Variable m : A.
Variable is_m : A -> bool.

Hypothesis is_m_spec : forall x, is_m x = true <-> x = m.
Hypothesis P_m : P m.
Hypothesis m_least : forall x, P x -> le m x = true.
Hypothesis m_only : forall x, P x -> x <> m -> le x m = false.

Lemma sort_insert_In (x y : A) (l : list A) :
  In y (sort_insert le x l) -> y = x \/ In y l.
Proof.
  induction l as [|a l IH]; cbn [sort_insert].
  - intros [<- | []]. left. reflexivity.
  - destruct (le x a); cbn [In]; intuition.
Qed.

Lemma sort_by_In (y : A) (l : list A) : In y (sort_by le l) -> In y l.
Proof.
  induction l as [|a l IH]; cbn [sort_by]; [exact (fun H => H)|].
  intros H. apply sort_insert_In in H as [-> | H]; [left; reflexivity | right; apply IH, H].
Qed.

Lemma sort_insert_m (l : list A) : Forall P l -> sort_insert le m l = m :: l.
Proof.
  intros Hl. destruct l as [|a l]; [reflexivity|].
  cbn [sort_insert]. inversion Hl; subst. rewrite m_least by assumption. reflexivity.
Qed.

Lemma sort_insert_after_m (x : A) (c : nat) (l : list A) :
  P x -> x <> m ->
  sort_insert le x (repeat m c ++ l) = repeat m c ++ sort_insert le x l.
Proof.
  intros Hx Hne. induction c as [|c IH]; [reflexivity|].
  cbn [repeat app sort_insert]. rewrite m_only by assumption. f_equal. exact IH.
Qed.

(** Sorting puts the copies of the least element first. *)
Lemma sort_by_least_first (l : list A) :
  Forall P l ->
  sort_by le l
  = (repeat m (List.length (filter is_m l))
     ++ sort_by le (filter (fun x => negb (is_m x)) l)).
Proof.
  induction l as [|x l IH]; intros Hl; [reflexivity|].
  inversion Hl as [|? ? Hx Hl']; subst.
  cbn [sort_by filter]. rewrite (IH Hl').
  destruct (is_m x) eqn:Ex; cbn [negb].
  - apply is_m_spec in Ex. subst x. cbn [List.length repeat app].
    apply sort_insert_m.
    apply Forall_app. split.
    + apply Forall_forall. intros y Hy. apply repeat_spec in Hy. subst y. exact P_m.
    + apply Forall_forall. intros y Hy. apply sort_by_In, filter_In in Hy as [Hy _].
      rewrite Forall_forall in Hl'. apply Hl', Hy.
  - cbn [sort_by]. apply sort_insert_after_m; [exact Hx|].
    intros Hm. apply is_m_spec in Hm. congruence.
Qed.

Lemma sort_by_rest_not_m (l : list A) (y : A) :
  In y (sort_by le (filter (fun x => negb (is_m x)) l)) -> y <> m.
Proof.
  intros Hy Hm. apply sort_by_In, filter_In in Hy as [_ Hy].
  apply negb_true_iff in Hy. apply is_m_spec in Hm. congruence.
Qed.

End LeastFirst.

(** ** Zero is the least reward in both orders *)

Lemma compare_zero_decimal (s : string) :
  allDecimal s = true -> s <> "" -> s <> "0" ->
  String.compare "0" s = Lt.
Proof.
  intros Hs Hne H0. destruct s as [|c s]; [congruence|].
  cbn [allDecimal] in Hs. apply andb_true_iff in Hs as [Hc _].
  destruct c as [[] [] [] [] [] [] [] []]; try discriminate Hc; try reflexivity.
  destruct s; [congruence | reflexivity].
Qed.

Lemma digits_zero_only (z : Z) : 0 < z -> digits 10 z <> "0".
Proof.
  intros Hz H. pose proof (parseDigits_digits 10 z ltac:(lia) ltac:(lia)) as Hp.
  rewrite H in Hp. cbn in Hp. injection Hp as Hp. lia.
Qed.

(** The first digit of a positive integer is not 0. *)
Lemma digitsAux_leading (fuel : nat) :
  forall z rest,
    0 < z < 2 ^ Z.of_nat fuel ->
    exists t ds, 1 <= t <= 9 /\ digitsAux fuel 10 z rest = String (digitChar t) ds.
Proof.
  induction fuel as [|fuel IH]; intros z rest Hz.
  - change (2 ^ Z.of_nat 0) with 1 in Hz. lia.
  - cbn [digitsAux]. destruct (z / 10 =? 0) eqn:Eq.
    + apply Z.eqb_eq in Eq.
      assert (z < 10).
      { pose proof (Z.div_mod z 10 ltac:(lia)).
        pose proof (Z.mod_pos_bound z 10 ltac:(lia)). lia. }
      exists z, rest. split; [lia|]. rewrite Z.mod_small by lia. reflexivity.
    + apply Z.eqb_neq in Eq. apply IH.
      assert (0 <= z / 10) by (apply Z.div_pos; lia).
      split; [lia|].
      apply Z.div_lt_upper_bound; [lia|].
      rewrite Nat2Z.inj_succ, Z.pow_succ_r in Hz by lia. lia.
Qed.

Lemma digits_leading (z : Z) :
  0 < z -> exists t ds, 1 <= t <= 9 /\ digits 10 z = String (digitChar t) ds.
Proof.
  intros Hz. unfold digits. apply digitsAux_leading.
  split; [assumption|].
  rewrite Nat2Z.inj_succ, Z2Nat.id by apply Z.log2_nonneg.
  apply Z.log2_spec, Hz.
Qed.

Lemma compare_zero_leading (t : Z) (ds : string) :
  1 <= t <= 9 -> String.compare "0" (String (digitChar t) ds) = Lt.
Proof.
  intros Ht.
  assert (H : t = 1 \/ t = 2 \/ t = 3 \/ t = 4 \/ t = 5 \/ t = 6 \/ t = 7 \/ t = 8 \/ t = 9)
    by lia.
  repeat (destruct H as [-> | H]; [reflexivity|]). subst t. reflexivity.
Qed.

(** The significand [String] prints for a positive double is positive. *)
Lemma significandOf_pos (a n k s : Z) : 0 < a -> significandOf a n k = Some s -> 0 < s.
Proof.
  intros Ha. unfold significandOf, heldAs.
  assert (Hlo : 0 <= a / 10 ^ (n - k)).
  { pose proof (Z.pow_nonneg 10 (n - k) ltac:(lia)) as Hp.
    destruct (Z.eq_dec (10 ^ (n - k)) 0) as [-> | Hne]; [rewrite Z.div_0_r; lia|].
    apply Z.div_pos; lia. }
  destruct (Z.eq_dec (a / 10 ^ (n - k)) 0) as [E | E].
  - rewrite E. cbn [Z.mul]. change (round53 0) with 0.
    replace (0 =? a) with false by (symmetry; apply Z.eqb_neq; lia).
    destruct (round53 ((0 + 1) * 10 ^ (n - k)) =? a); intros [= <-]. lia.
  - destruct (round53 (a / 10 ^ (n - k) * 10 ^ (n - k)) =? a),
             (round53 ((a / 10 ^ (n - k) + 1) * 10 ^ (n - k)) =? a);
      intros [= <-]; repeat match goal with |- context [if ?b then _ else _] => destruct b end;
      lia.
Qed.

Lemma shortest_pos (fuel : nat) (a n : Z) :
  0 < a -> forall k s k', shortest fuel a n k = (s, k') -> 0 < s.
Proof.
  intros Ha. induction fuel as [|fuel IH]; intros k s k'; cbn [shortest].
  - intros [= <- _]. exact Ha.
  - destruct (significandOf a n k) as [s0|] eqn:E.
    + intros [= <- _]. apply (significandOf_pos a n k s0 Ha E).
    + apply IH.
Qed.

(** Whatever [String] prints for a positive double sorts after [0]. *)
Lemma printDouble_after_zero (a : Z) : 0 < a -> String.compare "0" (printDouble a) = Lt.
Proof.
  intros Ha. unfold printDouble.
  destruct (2 ^ 1024 <=? a); [reflexivity|].
  destruct (shortest 17 a (decimalLength a) 1) as [s0 k0] eqn:Es.
  pose proof (shortest_pos 17 a _ Ha 1 s0 k0 Es) as Hs0.
  set (skn := if s0 =? 10 ^ k0 then (1, 1, decimalLength a + 1) else (s0, k0, decimalLength a)).
  assert (Hs : 0 < fst (fst skn)) by (unfold skn; destruct (s0 =? 10 ^ k0); cbn [fst]; lia).
  destruct skn as [[s k] n]. cbn [fst] in Hs.
  destruct (digits_leading s Hs) as (t & ds & Ht & Hd).
  destruct (n <=? 21).
  - rewrite Hd. apply (compare_zero_leading t _ Ht).
  - unfold exponential. rewrite Hd. destruct ds; apply (compare_zero_leading t _ Ht).
Qed.

Lemma ToString_after_zero (z : Z) :
  0 < z -> String.compare "0" (ToString (Num z)) = Lt.
Proof.
  intros Hz. unfold ToString.
  destruct (Number_isSafeInteger (Num z)).
  - unfold Number_toString.
    replace (z <? 0) with false by (symmetry; apply Z.ltb_ge; lia).
    apply compare_zero_decimal.
    + apply digitsAux_allDecimal. reflexivity.
    + apply digitsAux_nonempty.
    + apply digits_zero_only, Hz.
  - replace (z <? 0) with false by (symmetry; apply Z.ltb_ge; lia).
    change ("" ++ printDouble (round53 (Z.abs z)))%string with (printDouble (round53 (Z.abs z))).
    apply printDouble_after_zero.
    rewrite Z.abs_eq by lia. pose proof (round53_lower z ltac:(lia)). lia.
Qed.

Lemma ToString_zero_least (z : Z) :
  0 <= z -> SortCompare_le (Some (Num 0)) (Some (Num z)) = true.
Proof.
  intros Hz. unfold SortCompare_le.
  change (ToString (Num 0)) with "0".
  apply negb_true_iff. unfold String.ltb.
  destruct (Z.eq_dec z 0) as [-> | Hnz]; [reflexivity|].
  rewrite String.compare_antisym.
  rewrite ToString_after_zero by lia. reflexivity.
Qed.

Lemma ToString_zero_only (z : Z) :
  0 < z -> SortCompare_le (Some (Num z)) (Some (Num 0)) = false.
Proof.
  intros Hz. unfold SortCompare_le.
  change (ToString (Num 0)) with "0".
  apply negb_false_iff. unfold String.ltb.
  rewrite ToString_after_zero by lia. reflexivity.
Qed.

(** For rewards that are non-negative integers, whether the element at a
    given position is 0 does not depend on sorting by value or as strings. *)
Lemma zero_at_index_either_order (rewards : list Z) (k : nat) :
  Forall (fun z => 0 <= z) rewards ->
  nth k (sortAscending rewards) 1000000000 = 0 ->
  nth_error (Array_sort (map rewardSample rewards)) k = Some (Some (Num 0)).
Proof.
  intros Hpos Hk.
  assert (Hnum : sortAscending rewards
                 = repeat 0 (List.length (filter (fun z => z =? 0) rewards))
                   ++ sort_by Z.leb (filter (fun z => negb (z =? 0)) rewards)).
  { apply (sort_by_least_first Z.leb (fun z => 0 <= z) 0 (fun z => z =? 0)).
    - intros x. apply Z.eqb_eq.
    - lia.
    - intros x Hx. apply Z.leb_le, Hx.
    - intros x Hx Hne. apply Z.leb_gt. lia.
    - exact Hpos. }
  assert (Hstr : Array_sort (map rewardSample rewards)
                 = repeat (Some (Num 0)) (List.length (filter isZero (map rewardSample rewards)))
                   ++ sort_by SortCompare_le
                        (filter (fun v => negb (isZero v)) (map rewardSample rewards))).
  { apply (sort_by_least_first SortCompare_le
             (fun v => exists z, v = Some (Num z) /\ 0 <= z) (Some (Num 0)) isZero).
    - intros [[|z]|]; cbn [isZero]; split; intros H; try discriminate H.
      + apply Z.eqb_eq in H. subst. reflexivity.
      + injection H as ->. reflexivity.
    - exists 0. split; [reflexivity | lia].
    - intros x (z & -> & Hz). apply ToString_zero_least, Hz.
    - intros x (z & -> & Hz) Hne. apply ToString_zero_only.
      assert (z <> 0) by congruence. lia.
    - apply Forall_forall. intros v Hv. apply in_map_iff in Hv as (z & <- & Hz).
      rewrite Forall_forall in Hpos. exists z. split; [reflexivity | apply Hpos, Hz]. }
  rewrite Hstr. rewrite Hnum in Hk.
  assert (Hcount : List.length (filter isZero (map rewardSample rewards))
                   = List.length (filter (fun z => z =? 0) rewards)).
  { clear. induction rewards as [|z l IH]; [reflexivity|].
    cbn [map filter rewardSample isZero]. destruct (z =? 0); cbn [List.length]; congruence. }
  rewrite Hcount.
  destruct (Nat.lt_ge_cases k (List.length (filter (fun z => z =? 0) rewards))) as [Hlt | Hge].
  - rewrite nth_error_app1 by (rewrite repeat_length; exact Hlt).
    apply nth_error_repeat, Hlt.
  - exfalso. rewrite app_nth2 in Hk by (rewrite repeat_length; exact Hge).
    rewrite repeat_length in Hk.
    set (rest := sort_by Z.leb (filter (fun z => negb (z =? 0)) rewards)) in Hk.
    destruct (nth_in_or_default (k - List.length (filter (fun z => z =? 0) rewards))
                rest 1000000000) as [Hin | Hd].
    + rewrite Hk in Hin.
      apply (sort_by_rest_not_m Z.leb 0 (fun z => z =? 0) (fun x => Z.eqb_eq x 0)) in Hin.
      congruence.
    + rewrite Hk in Hd. discriminate Hd.
Qed.

(* ================================================================== *)
(** * gasCalculator.ts: the fee estimate *)
(* ================================================================== *)

(** The three roundings of [Math.ceil(nextBlockFee * 1.125 * 1.125)]. *)
Lemma calculatedFee_Num (n : Z) :
  calculatedFee (Num n)
  = Num (- ((- round53 (round53 (round53 n * 9) * 9)) / 64)).
Proof. reflexivity. Qed.

(** Where 81 times the base fee is below 2^53, nothing is rounded and the
    result is the least integer not below 81/64 of the base fee. *)
Lemma calculatedFee_exact (n : Z) :
  Z.abs (81 * n) < 2 ^ 53 ->
  exists c, calculatedFee (Num n) = Num c /\ 64 * (c - 1) < 81 * n <= 64 * c.
Proof.
  intros Hn. rewrite calculatedFee_Num. eexists. split; [reflexivity|].
  rewrite (round53_small n) by lia.
  rewrite (round53_small (n * 9)) by lia.
  rewrite (round53_small (n * 9 * 9)) by lia.
  pose proof (Z.div_mod (- (n * 9 * 9)) 64 ltac:(lia)) as Hdm.
  pose proof (Z.mod_pos_bound (- (n * 9 * 9)) 64 ltac:(lia)) as Hr.
  lia.
Qed.

(** Whatever is rounded, the result covers the base fee it was computed
    from, and is negative for a negative base fee. *)
Lemma calculatedFee_covers (n c : Z) :
  calculatedFee (Num n) = Num c -> (0 <= n -> n <= c) /\ (n < 0 -> c < 0).
Proof.
  rewrite calculatedFee_Num. intros [= <-].
  assert (Hthree : forall k, 0 <= k -> 64 * k <= round53 (round53 (round53 k * 9) * 9)).
  { intros k Hk.
    pose proof (round53_lower k Hk) as H1.
    pose proof (round53_lower (round53 k * 9) ltac:(lia)) as H2.
    pose proof (round53_lower (round53 (round53 k * 9) * 9) ltac:(lia)) as H3.
    lia. }
  split; intros Hn.
  - pose proof (Hthree n Hn) as H.
    set (R := round53 (round53 (round53 n * 9) * 9)) in *.
    pose proof (Z.div_mod (- R) 64 ltac:(lia)) as Hdm.
    pose proof (Z.mod_pos_bound (- R) 64 ltac:(lia)) as Hr.
    lia.
  - pose proof (Hthree (- n) ltac:(lia)) as H.
    rewrite round53_opp, Z.mul_opp_l, round53_opp, Z.mul_opp_l, round53_opp in H.
    set (R := round53 (round53 (round53 n * 9) * 9)) in *.
    pose proof (Z.div_mod (- R) 64 ltac:(lia)) as Hdm.
    pose proof (Z.mod_pos_bound (- R) 64 ltac:(lia)) as Hr.
    lia.
Qed.


Lemma intToHex_oneGwei : intToHex oneGwei = Normal "0x3b9aca00".
Proof. reflexivity. Qed.

Lemma hexString_eq (z : Z) : hexString z = String "0" (String "x" (digits 16 z)).
Proof. reflexivity. Qed.

Lemma hexValue_hexString (z : Z) : 0 <= z -> hexValue (hexString z) = Some z.
Proof. intros Hz. rewrite hexString_eq. cbn [hexValue]. apply readDigits_digits; lia. Qed.

(** What the [try] block returns when it returns. *)
Lemma feesFromBlocks_Normal (blocks : list Block) (fees : Eip1559GasFees) :
  feesFromBlocks blocks = Normal fees ->
  exists lastBlock c m,
    index blocks (length_ blocks - 1) = Some lastBlock /\
    calculatedFee (baseFee lastBlock) = Num c /\
    medianReward blocks = Num m /\
    0 <= c /\ 0 <= m /\ c + m <= MAX_SAFE_INTEGER /\
    fees = {| maxBaseFeePerGas := hexString c;
              maxPriorityFeePerGas := hexString m;
              maxFeePerGas := hexString (c + m) |}.
Proof.
  unfold feesFromBlocks. intros H.
  destruct (index blocks (length_ blocks - 1)) as [lastBlock|]; [|discriminate].
  cbn [deref bind] in H.
  destruct (intToHex (calculatedFee (baseFee lastBlock))) as [base|] eqn:Eb; [|discriminate].
  cbn [bind] in H.
  destruct (intToHex (medianReward blocks)) as [priority|] eqn:Ep; [|discriminate].
  cbn [bind] in H.
  destruct (intToHex (add (calculatedFee (baseFee lastBlock)) (medianReward blocks)))
    as [total|] eqn:Et; [|discriminate].
  cbn [bind] in H. injection H as <-.
  apply intToHex_Normal in Eb as (c & Ec & Hc & ->).
  apply intToHex_Normal in Ep as (m & Em & Hm & ->).
  rewrite Ec, Em in Et. cbn [add] in Et.
  apply intToHex_Normal in Et as (s & Es & Hs & ->).
  injection Es as <-.
  exists lastBlock, c, m. repeat split; try assumption; lia.
Qed.

(** ... and when it does return. *)
Lemma feesFromBlocks_returns (blocks : list Block) (lastBlock : Block) (c m : Z) :
  index blocks (length_ blocks - 1) = Some lastBlock ->
  calculatedFee (baseFee lastBlock) = Num c ->
  medianReward blocks = Num m ->
  0 <= c -> 0 <= m -> c + m <= MAX_SAFE_INTEGER ->
  feesFromBlocks blocks
  = Normal {| maxBaseFeePerGas := hexString c;
              maxPriorityFeePerGas := hexString m;
              maxFeePerGas := hexString (c + m) |}.
Proof.
  intros Hl Hc Hm H0c H0m Hs. unfold feesFromBlocks.
  rewrite Hl. cbn [deref bind]. rewrite Hc, Hm. cbn [add].
  rewrite !intToHex_safe by lia. reflexivity.
Qed.

Lemma medianReward_falsy (blocks : list Block) :
  truthy (selectedReward blocks) = false -> medianReward blocks = oneGwei.
Proof.
  unfold medianReward, or_else. intros H. rewrite H.
  destruct (selectedReward blocks); reflexivity.
Qed.

Lemma defaultGas_returns (this : t) (d : Z) :
  parseInt (defaultGasLevel this) None = Num d ->
  0 <= d + 1000000000 <= MAX_SAFE_INTEGER ->
  defaultGas this
  = Normal {| maxBaseFeePerGas := defaultGasLevel this;
              maxPriorityFeePerGas := "0x3b9aca00";
              maxFeePerGas := hexString (d + 1000000000) |}.
Proof.
  intros Hd Hs. unfold defaultGas. rewrite intToHex_oneGwei. cbn [bind].
  rewrite Hd. unfold oneGwei. cbn [add]. rewrite intToHex_safe by assumption.
  reflexivity.
Qed.

Lemma defaultGas_Normal (this : t) (fees : Eip1559GasFees) :
  defaultGas this = Normal fees ->
  exists d, parseInt (defaultGasLevel this) None = Num d /\
            0 <= d + 1000000000 <= MAX_SAFE_INTEGER /\
            fees = {| maxBaseFeePerGas := defaultGasLevel this;
                      maxPriorityFeePerGas := "0x3b9aca00";
                      maxFeePerGas := hexString (d + 1000000000) |}.
Proof.
  unfold defaultGas. rewrite intToHex_oneGwei. cbn [bind]. intros H.
  destruct (intToHex (add (parseInt (defaultGasLevel this) None) oneGwei)) as [total|] eqn:Et;
    [|discriminate].
  cbn [bind] in H. injection H as <-.
  apply intToHex_Normal in Et as (s & Es & Hs & ->).
  destruct (parseInt (defaultGasLevel this) None) as [|d]; [discriminate|].
  unfold oneGwei in Es. cbn [add] in Es. injection Es as <-.
  exists d. repeat split; lia.
Qed.

Lemma getFeePerGas_cases (this : t) (fees : Eip1559GasFees) :
  getFeePerGas this = Resolved fees ->
  tryFees this = Normal fees \/
  (exists e, tryFees this = Throw e) /\ defaultGas this = Normal fees.
Proof.
  unfold getFeePerGas. destruct (tryFees this) as [fees'|e] eqn:E.
  - cbn [async]. intros [= ->]. left. reflexivity.
  - intros H. right. split; [eauto|].
    destruct (defaultGas this); [cbn [async] in H; congruence | discriminate].
Qed.

Lemma tryFees_resolved (this : t) (fh : FeeHistoryResponse) :
  send_promise (connection this) feeHistoryPayload = Resolved fh ->
  tryFees this = (blocks <- feeHistoryBlocks fh ;; feesFromBlocks blocks).
Proof.
  intros H. unfold tryFees, _getFeeHistory. fold feeHistoryPayload. rewrite H.
  cbn [await bind]. destruct (feeHistoryBlocks fh); reflexivity.
Qed.

Lemma tryFees_rejected (this : t) (e : exn) :
  send_promise (connection this) feeHistoryPayload = Rejected e ->
  tryFees this = Throw e.
Proof.
  intros H. unfold tryFees, _getFeeHistory. fold feeHistoryPayload. rewrite H.
  reflexivity.
Qed.

(* ================================================================== *)
(** * gasCalculator.ts: the claims *)
(* ================================================================== *)

(** With no eligible block, and with any falsy selection, the priority fee
    is 1 gwei. *)
Lemma no_eligible_block_default (blocks : list Block) :
  eligibleRewardsBlocks blocks = [] -> medianReward blocks = oneGwei.
Proof.
  intros He. apply medianReward_falsy. unfold selectedReward. rewrite He. reflexivity.
Qed.

(** C2: the priority fee is meant to be the lower median of the eligible
    rewards in ascending numeric order.  [sort()] without a comparator orders
    them as strings instead: with eligible rewards of 0.9, 1 and 2 gwei the
    code answers 2 gwei, where the lower median is 1 gwei. *)
Theorem priority_fee_is_sorted_as_strings :
  let blocks :=
    [ {| baseFee := Num 100; rewards := [Num 900000000]; blockGasUsedRatio := Some 0.5%float |};
      {| baseFee := Num 100; rewards := [Num 1000000000]; blockGasUsedRatio := Some 0.5%float |};
      {| baseFee := Num 100; rewards := [Num 2000000000]; blockGasUsedRatio := Some 0.5%float |};
      {| baseFee := Num 110; rewards := []; blockGasUsedRatio := None |} ] in
  feeHistoryBlocks Examples.history_gwei = Normal blocks /\
  eligibleRewardsBlocks blocks
    = [Some (Num 900000000); Some (Num 1000000000); Some (Num 2000000000)] /\
  Array_sort (eligibleRewardsBlocks blocks)
    = [Some (Num 1000000000); Some (Num 2000000000); Some (Num 900000000)] /\
  getFeePerGas (Examples.calculator "0x3b9aca00" (Resolved Examples.history_gwei))
    = Resolved {| maxBaseFeePerGas := "0x8c";
                  maxPriorityFeePerGas := "0x77359400";
                  maxFeePerGas := "0x7735948c" |} /\
  hexValue "0x77359400" = Some 2000000000 /\
  lowerMedian [900000000; 1000000000; 2000000000] = 1000000000.
Proof.
  cbv zeta. repeat split; vm_compute; reflexivity.
Qed.

(** C5, as stated, fails: the fallback is computed in the [catch] block,
    which can throw in its turn.  With a default gas level that does not
    read as a number, [parseInt] gives NaN, [intToHex] refuses it, and
    [getFeePerGas] rejects when the fee history cannot be fetched. *)
Lemma unreadable_default_makes_getFeePerGas_reject :
  parseInt "fast" None = NaN /\
  tryFees (Examples.calculator "fast" (Rejected (Payload "connection lost")))
  = Throw (Payload "connection lost") /\
  defaultGas (Examples.calculator "fast" (Rejected (Payload "connection lost")))
  = Throw (Error "Received an invalid integer type") /\
  getFeePerGas (Examples.calculator "fast" (Rejected (Payload "connection lost")))
  = Rejected (Error "Received an invalid integer type").
Proof. repeat split; reflexivity. Qed.

(** C5, amended: provided the configured default gas level reads as a
    number [d] with [d + 1 gwei] a non-negative safe integer,
    [getFeePerGas] always resolves, and whenever fetching or processing the
    fee history fails (the transport rejects, the reply lacks its base fees,
    the block set is empty, ...) it resolves with the default gas level,
    1 gwei, and their sum. *)
Theorem getFeePerGas_falls_back (this : t) (d : Z) :
  parseInt (defaultGasLevel this) None = Num d ->
  0 <= d + 1000000000 <= MAX_SAFE_INTEGER ->
  let fallback :=
    {| maxBaseFeePerGas := defaultGasLevel this;
       maxPriorityFeePerGas := "0x3b9aca00";
       maxFeePerGas := hexString (d + 1000000000) |} in
  (exists fees, getFeePerGas this = Resolved fees) /\
  (forall e, tryFees this = Throw e -> getFeePerGas this = Resolved fallback) /\
  (forall e, send_promise (connection this) feeHistoryPayload = Rejected e ->
             getFeePerGas this = Resolved fallback) /\
  (forall fh, send_promise (connection this) feeHistoryPayload = Resolved fh ->
              baseFeePerGas fh = None \/ baseFeePerGas fh = Some [] ->
              getFeePerGas this = Resolved fallback) /\
  hexValue (maxPriorityFeePerGas fallback) = Some 1000000000 /\
  hexValue (maxFeePerGas fallback) = Some (d + 1000000000).
Proof.
  intros Hd Hs fallback.
  assert (Hfall : forall e, tryFees this = Throw e -> getFeePerGas this = Resolved fallback).
  { intros e He. unfold getFeePerGas. rewrite He.
    rewrite (defaultGas_returns this d Hd Hs). reflexivity. }
  split; [|split; [|split; [|split; [|split]]]].
  - destruct (tryFees this) as [fees|e] eqn:E.
    + exists fees. unfold getFeePerGas. rewrite E. reflexivity.
    + exists fallback. apply (Hfall e eq_refl).
  - exact Hfall.
  - intros e He. apply (Hfall e), tryFees_rejected, He.
  - intros fh Hfh Hbase. rewrite (tryFees_resolved this fh Hfh) in Hfall.
    apply (Hfall TypeError).
    unfold feeHistoryBlocks. destruct Hbase as [-> | ->]; reflexivity.
  - reflexivity.
  - apply hexValue_hexString. lia.
Qed.

Lemma getFeePerGas_falls_back_witness :
  getFeePerGas (Examples.calculator "0x3b9aca00" (Rejected (Payload "connection lost")))
  = Resolved {| maxBaseFeePerGas := "0x3b9aca00";
                maxPriorityFeePerGas := "0x3b9aca00";
                maxFeePerGas := "0x77359400" |}.
Proof.
  assert (Hs : 0 <= 1000000000 + 1000000000 <= MAX_SAFE_INTEGER)
    by (vm_compute; split; discriminate).
  destruct (getFeePerGas_falls_back
              (Examples.calculator "0x3b9aca00" (Rejected (Payload "connection lost")))
              1000000000 eq_refl Hs) as (_ & _ & H & _).
  apply (H (Payload "connection lost")). reflexivity.
Defined.

(** C6, as stated, fails for large base fees: the two products are
    binary64 products.  For a last base fee of 111199990799281 wei,
    81 times the fee is 2^53 + 769, half-way between two doubles; the second
    product is rounded down to 2^53 + 768 and the base-fee component is
    140737488355340, one below the ceiling of 81/64 times the fee. *)
Lemma base_fee_product_is_rounded :
  getFeePerGas (Examples.calculator "0x3b9aca00" (Resolved Examples.history_large))
  = Resolved {| maxBaseFeePerGas := "0x80000000000c";
                maxPriorityFeePerGas := "0x3";
                maxFeePerGas := "0x80000000000f" |} /\
  hexValue "0x6522c3f35bb1" = Some 111199990799281 /\
  hexValue "0x80000000000c" = Some 140737488355340 /\
  64 * 140737488355340 < 81 * 111199990799281 <= 64 * 140737488355341 /\
  option_map Math_ceil
    (ofFloat (PrimFloat.of_uint63 (Uint63.of_Z 111199990799281) * 1.125 * 1.125)%float)
  = Some 140737488355340.
Proof. repeat split; vm_compute; first [reflexivity | discriminate]. Qed.

(** C6, amended: whenever the estimate is computed from a history, its
    base-fee component is the hex encoding of an integer not below the base
    fee of the last block returned, and, where 81 times that base fee is
    below 2^53, of the least integer not below 81/64 = 1.125 * 1.125 times
    it; with such a last base fee and a priority fee whose sum with that
    integer is a safe integer the estimate is computed.  For base fees 100
    (nine times) then 110 and eligible rewards 3, 2, 4 the result is 140, 3
    and 143, hex-encoded. *)
Theorem base_fee_is_two_blocks_ahead :
  (forall blocks fees,
      feesFromBlocks blocks = Normal fees ->
      exists lastBlock nextBlockFee c,
        index blocks (length_ blocks - 1) = Some lastBlock /\
        baseFee lastBlock = Num nextBlockFee /\
        maxBaseFeePerGas fees = hexString c /\
        hexValue (maxBaseFeePerGas fees) = Some c /\
        0 <= nextBlockFee <= c /\
        (81 * nextBlockFee < 2 ^ 53 ->
         64 * (c - 1) < 81 * nextBlockFee <= 64 * c)) /\
  (forall this fh blocks lastBlock nextBlockFee m,
      send_promise (connection this) feeHistoryPayload = Resolved fh ->
      feeHistoryBlocks fh = Normal blocks ->
      index blocks (length_ blocks - 1) = Some lastBlock ->
      baseFee lastBlock = Num nextBlockFee ->
      medianReward blocks = Num m ->
      0 <= nextBlockFee -> 81 * nextBlockFee < 2 ^ 53 -> 0 <= m ->
      (forall c, 81 * nextBlockFee <= 64 * c -> 64 * (c - 1) < 81 * nextBlockFee ->
                 c + m <= MAX_SAFE_INTEGER) ->
      exists c,
        64 * (c - 1) < 81 * nextBlockFee <= 64 * c /\
        getFeePerGas this
        = Resolved {| maxBaseFeePerGas := hexString c;
                      maxPriorityFeePerGas := hexString m;
                      maxFeePerGas := hexString (c + m) |}) /\
  (forall d,
      getFeePerGas (Examples.calculator d (Resolved Examples.history_100_110))
      = Resolved {| maxBaseFeePerGas := "0x8c";
                    maxPriorityFeePerGas := "0x3";
                    maxFeePerGas := "0x8f" |}) /\
  hexValue "0x8c" = Some 140 /\ hexValue "0x3" = Some 3 /\ hexValue "0x8f" = Some 143.
Proof.
  split; [|split; [|split; [|repeat split]]].
  - intros blocks fees H.
    apply feesFromBlocks_Normal in H as (lastBlock & c & m & Hl & Hc & _ & H0c & _ & _ & ->).
    destruct (baseFee lastBlock) as [|n] eqn:En; [discriminate|].
    destruct (calculatedFee_covers n c Hc) as [Hcover Hneg].
    assert (H0n : 0 <= n) by lia.
    exists lastBlock, n, c. cbn [maxBaseFeePerGas].
    split; [assumption|]. split; [exact En|]. split; [reflexivity|].
    split; [apply hexValue_hexString, H0c|]. split; [lia|].
    intros Hsmall.
    destruct (calculatedFee_exact n) as (c' & Hc' & Hbounds); [lia|].
    rewrite Hc in Hc'. injection Hc' as <-. exact Hbounds.
  - intros this fh blocks lastBlock n m Hfh Hblocks Hl Hn Hm H0n Hsmall H0m Hsafe.
    destruct (calculatedFee_exact n) as (c & Hc & Hbounds); [lia|].
    exists c. split; [exact Hbounds|].
    unfold getFeePerGas. rewrite (tryFees_resolved this fh Hfh), Hblocks. cbn [bind].
    rewrite (feesFromBlocks_returns blocks lastBlock c m Hl); try assumption.
    + reflexivity.
    + rewrite Hn. exact Hc.
    + lia.
    + apply Hsafe; lia.
  - intros d. vm_compute. reflexivity.
Qed.




(** C9: [getGasEstimate] resolves with the reply's result when the reply
    carries no error, rejects with the reply's error, unchanged, when it
    carries one, and never resolves with anything but the reply's result. *)
Theorem getGasEstimate_propagates (this : t) (rawTx : RawTransaction) :
  let response :=
    send_callback (connection this) (estimateGasPayload rawTx) (estimateGasTarget rawTx) in
  (error response = None -> getGasEstimate this rawTx = Resolved (result response)) /\
  (forall e, error response = Some e -> e <> "" ->
             getGasEstimate this rawTx = Rejected (Payload e)) /\
  (forall v, getGasEstimate this rawTx = Resolved v ->
             v = result response /\ truthyString (error response) = false).
Proof.
  cbv zeta. unfold getGasEstimate.
  fold (estimateGasPayload rawTx). fold (estimateGasTarget rawTx).
  destruct (error (send_callback (connection this) (estimateGasPayload rawTx)
                                 (estimateGasTarget rawTx))) as [e|].
  - split; [discriminate|]. split.
    + intros e' [= <-] Hne. destruct e; [congruence | reflexivity].
    + intros v. destruct e; cbn [truthyString]; [|discriminate].
      intros [= <-]. split; reflexivity.
  - split; [reflexivity|]. split; [discriminate|].
    intros v [= <-]. split; reflexivity.
Qed.

Lemma selectedReward_numeric (blocks : list Block) (rewards : list Z) :
  eligibleRewardsBlocks blocks = map rewardSample rewards ->
  Forall (fun z => 0 <= z) rewards ->
  lowerMedian rewards = 0 ->
  selectedReward blocks = Some (Num 0).
Proof.
  intros He Hpos Hmed. unfold selectedReward, index_undef, index, Math_floor_half, length_.
  rewrite He, length_map.
  replace (Z.of_nat (List.length rewards) / 2 <? 0) with false
    by (symmetry; apply Z.ltb_ge, Z.div_pos; lia).
  change 2 with (Z.of_nat 2). rewrite <- Nat2Z.inj_div, Nat2Z.id, <- Nat.div2_div.
  rewrite (zero_at_index_either_order rewards _ Hpos Hmed). reflexivity.
Qed.

(** C10: when the element selected from the sorted eligible rewards is 0
    (or NaN, or missing), the priority fee of whatever [getFeePerGas]
    resolves with is 1 gwei, not 0; with such a history and a calculated
    fee [c] that leaves room for 1 gwei it resolves with [c], 1 gwei and
    [c + 1 gwei].  For rewards that are non-negative integers the selected
    element is 0 as soon as the lower median by value is 0. *)
Theorem falsy_median_becomes_oneGwei (this : t) (fh : FeeHistoryResponse) (blocks : list Block) :
  send_promise (connection this) feeHistoryPayload = Resolved fh ->
  feeHistoryBlocks fh = Normal blocks ->
  (truthy (selectedReward blocks) = false ->
   (forall fees, getFeePerGas this = Resolved fees ->
                 maxPriorityFeePerGas fees = "0x3b9aca00" /\
                 hexValue (maxPriorityFeePerGas fees) = Some 1000000000) /\
   (forall lastBlock c,
       index blocks (length_ blocks - 1) = Some lastBlock ->
       calculatedFee (baseFee lastBlock) = Num c ->
       0 <= c -> c + 1000000000 <= MAX_SAFE_INTEGER ->
       getFeePerGas this
       = Resolved {| maxBaseFeePerGas := hexString c;
                     maxPriorityFeePerGas := "0x3b9aca00";
                     maxFeePerGas := hexString (c + 1000000000) |})) /\
  (selectedReward blocks = Some (Num 0) -> truthy (selectedReward blocks) = false) /\
  (forall rewards,
      eligibleRewardsBlocks blocks = map rewardSample rewards ->
      Forall (fun z => 0 <= z) rewards ->
      lowerMedian rewards = 0 ->
      selectedReward blocks = Some (Num 0)).
Proof.
  intros Hfh Hblocks.
  assert (Htry : tryFees this = feesFromBlocks blocks).
  { rewrite (tryFees_resolved this fh Hfh), Hblocks. reflexivity. }
  split; [|split].
  - intros Hsel. pose proof (medianReward_falsy blocks Hsel) as Hmed. split.
    + intros fees H. apply getFeePerGas_cases in H as [H | [_ H]].
      * rewrite Htry in H.
        apply feesFromBlocks_Normal in H as (_ & c & m & _ & _ & Hm & _ & _ & _ & ->).
        rewrite Hmed in Hm. injection Hm as <-. split; reflexivity.
      * apply defaultGas_Normal in H as (d & _ & _ & ->). split; reflexivity.
    + intros lastBlock c Hl Hc H0 Hs.
      unfold getFeePerGas. rewrite Htry.
      rewrite (feesFromBlocks_returns blocks lastBlock c 1000000000 Hl Hc Hmed H0);
        [reflexivity | lia | assumption].
  - intros ->. reflexivity.
  - intros rewards. apply selectedReward_numeric.
Qed.

Lemma falsy_median_becomes_oneGwei_witness :
  getFeePerGas (Examples.calculator "0x3b9aca00" (Resolved Examples.history_zero))
  = Resolved {| maxBaseFeePerGas := "0x8c";
                maxPriorityFeePerGas := "0x3b9aca00";
                maxFeePerGas := "0x3b9aca8c" |}.
Proof.
  destruct (falsy_median_becomes_oneGwei
              (Examples.calculator "0x3b9aca00" (Resolved Examples.history_zero))
              Examples.history_zero Examples.blocks_zero eq_refl eq_refl) as [H _].
  destruct (H eq_refl) as [_ H']. clear H. rename H' into H.
  apply (H {| baseFee := Num 110; rewards := []; blockGasUsedRatio := None |} 140).
  - reflexivity.
  - reflexivity.
  - vm_compute. discriminate.
  - vm_compute. discriminate.
Defined.

(* ================================================================== *)
(** * Objects: reading, writing and key order *)
(* ================================================================== *)

Section Objects.

Context {V : Type}.
Implicit Types (o : object V) (k : Z) (v : V).

Lemma obj_get_set o k v k' :
  obj_get (obj_set o k v) k' = if k' =? k then Some v else obj_get o k'.
Proof.
  induction o as [|[k0 v0] o IH]; cbn [obj_set obj_get].
  - reflexivity.
  - destruct (k =? k0) eqn:E0.
    + apply Z.eqb_eq in E0. subst k0. cbn [obj_get]. destruct (k' =? k); reflexivity.
    + destruct (isArrayIndex k && (negb (isArrayIndex k0) || (k <? k0))); cbn [obj_get].
      * reflexivity.
      * rewrite IH. destruct (k' =? k0) eqn:E1; [|reflexivity].
        apply Z.eqb_eq in E1. subst k0.
        rewrite Z.eqb_sym, E0. reflexivity.
Qed.

Lemma in_keys_set o k v x :
  In x (keys (obj_set o k v)) <-> x = k \/ In x (keys o).
Proof.
  unfold keys. induction o as [|[k0 v0] o IH]; cbn [obj_set map fst In].
  - intuition.
  - destruct (k =? k0) eqn:E0.
    + apply Z.eqb_eq in E0. subst k0. cbn [map fst In]. intuition.
    + destruct (isArrayIndex k && (negb (isArrayIndex k0) || (k <? k0)));
        cbn [map fst In]; [intuition|].
      rewrite IH. intuition.
Qed.

Lemma key_before_head k k0 :
  (k =? k0) = false ->
  isArrayIndex k && (negb (isArrayIndex k0) || (k <? k0)) = false ->
  key_before k0 k.
Proof.
  intros Hne Hb. apply Z.eqb_neq in Hne. split; [congruence|].
  intros Hk. rewrite Hk in Hb. cbn [andb] in Hb.
  apply orb_false_iff in Hb as [Hb1 Hb2].
  apply negb_false_iff in Hb1. apply Z.ltb_ge in Hb2. split; [assumption | lia].
Qed.

Lemma key_before_insert k k0 ks :
  isArrayIndex k && (negb (isArrayIndex k0) || (k <? k0)) = true ->
  Forall (key_before k0) ks ->
  Forall (key_before k) (k0 :: ks).
Proof.
  intros Hb Hks. apply andb_true_iff in Hb as [Hk Hb].
  assert (H0 : key_before k k0).
  { apply orb_true_iff in Hb as [Hb | Hb].
    - apply negb_true_iff in Hb. split; [congruence|]. intros Hc. congruence.
    - apply Z.ltb_lt in Hb. split; [lia|]. intros _. split; [assumption | lia]. }
  constructor; [assumption|].
  eapply Forall_impl; [|exact Hks].
  intros x [Hne Hx]. destruct H0 as [Hne0 H0].
  destruct (isArrayIndex x) eqn:Ex.
  - destruct (Hx eq_refl) as [Hk0 Hlt]. destruct (H0 Hk0) as [_ Hlt0].
    split; [lia|]. intros _. split; [assumption | lia].
  - split; [congruence | intros Hc; congruence].
Qed.

(** Writing a property keeps the keys in own-property order. *)
Lemma ordered_set o k v : ordered o -> ordered (obj_set o k v).
Proof.
  unfold ordered, keys. induction o as [|[k0 v0] o IH]; intros Ho; cbn [obj_set map fst].
  - repeat constructor.
  - inversion Ho as [|? ? Hs Hf]; subst.
    destruct (k =? k0) eqn:E0.
    + apply Z.eqb_eq in E0. subst k0. cbn [map fst]. constructor; assumption.
    + destruct (isArrayIndex k && (negb (isArrayIndex k0) || (k <? k0))) eqn:Eb;
        cbn [map fst].
      * constructor; [exact Ho|]. apply key_before_insert; assumption.
      * constructor; [apply IH, Hs|].
        apply Forall_forall. intros x Hx.
        apply (in_keys_set o k v x) in Hx as [-> | Hx].
        -- apply key_before_head; assumption.
        -- rewrite Forall_forall in Hf. apply Hf, Hx.
Qed.

(** A key that may follow every key of the object is appended. *)
Lemma obj_set_last o k v :
  Forall (fun k0 => key_before k0 k) (keys o) -> obj_set o k v = (o ++ [(k, v)])%list.
Proof.
  unfold keys. induction o as [|[k0 v0] o IH]; intros Hf; cbn [obj_set app].
  - reflexivity.
  - inversion Hf as [|? ? [Hne Hb] Hf']; subst. cbn [fst] in *.
    replace (k =? k0) with false by (symmetry; apply Z.eqb_neq; congruence).
    replace (isArrayIndex k && (negb (isArrayIndex k0) || (k <? k0))) with false.
    + rewrite IH by assumption. reflexivity.
    + symmetry. destruct (isArrayIndex k) eqn:Ek; [|reflexivity].
      destruct (Hb eq_refl) as [Hk0 Hlt]. rewrite Hk0. cbn [andb negb orb].
      apply Z.ltb_ge. lia.
Qed.

Lemma StronglySorted_app_before (R : Z -> Z -> Prop) (l1 l2 : list Z) (x : Z) :
  StronglySorted R (l1 ++ x :: l2) -> Forall (fun y => R y x) l1.
Proof.
  induction l1 as [|a l1 IH]; cbn [app]; intros H; [constructor|].
  inversion H as [|? ? Hs Hf]; subst. constructor.
  - rewrite Forall_forall in Hf. apply Hf, in_elt.
  - apply IH, Hs.
Qed.

Lemma fold_set_ordered (rest acc : object V) :
  ordered (acc ++ rest) ->
  fold_left (fun a kv => obj_set a (fst kv) (snd kv)) rest acc = (acc ++ rest)%list.
Proof.
  revert acc. induction rest as [|[k v] rest IH]; intros acc Ho; cbn [fold_left fst snd].
  - symmetry. apply app_nil_r.
  - rewrite obj_set_last.
    + rewrite IH; rewrite <- app_assoc; [reflexivity | exact Ho].
    + unfold ordered, keys in Ho. rewrite map_app in Ho. cbn [map fst] in Ho.
      apply StronglySorted_app_before in Ho. exact Ho.
Qed.

(** Spreading an object whose keys are in order copies it. *)
Lemma obj_spread_ordered o : ordered o -> obj_spread o = o.
Proof. intros Ho. unfold obj_spread. apply (fold_set_ordered o []), Ho. Qed.

(** The keys that are not array indices stay in creation order. *)
Lemma other_keys_set o k v :
  filter (fun x => negb (isArrayIndex x)) (keys (obj_set o k v))
  = if isArrayIndex k || existsb (Z.eqb k) (keys o)
    then filter (fun x => negb (isArrayIndex x)) (keys o)
    else (filter (fun x => negb (isArrayIndex x)) (keys o) ++ [k])%list.
Proof.
  unfold keys. induction o as [|[k0 v0] o IH]; cbn [obj_set map fst filter existsb].
  - rewrite orb_false_r. destruct (isArrayIndex k); reflexivity.
  - destruct (k =? k0) eqn:E0.
    + apply Z.eqb_eq in E0. subst k0. cbn [map fst filter].
      rewrite orb_true_r. reflexivity.
    + cbn [orb].
      destruct (isArrayIndex k && (negb (isArrayIndex k0) || (k <? k0))) eqn:Eb;
        cbn [map fst filter].
      * apply andb_true_iff in Eb as [Ek _]. rewrite Ek. cbn [negb orb]. reflexivity.
      * rewrite IH.
        destruct (isArrayIndex k || existsb (Z.eqb k) (map fst o));
          destruct (negb (isArrayIndex k0)); reflexivity.
Qed.

Lemma ordered_NoDup o : ordered o -> NoDup (keys o).
Proof.
  unfold ordered. induction (keys o) as [|k ks IH]; intros H; [constructor|].
  inversion H as [|? ? Hs Hf]; subst. constructor; [|apply IH, Hs].
  intros Hin. rewrite Forall_forall in Hf. destruct (Hf k Hin) as [Hne _]. congruence.
Qed.

Lemma obj_get_in o k v : NoDup (keys o) -> In (k, v) o -> obj_get o k = Some v.
Proof.
  unfold keys. induction o as [|[k0 v0] o IH]; intros Hnd Hin; [contradiction|].
  cbn [map fst] in Hnd. inversion Hnd as [|? ? Hnot Hnd']; subst.
  cbn [obj_get]. destruct Hin as [[= -> ->] | Hin].
  - rewrite Z.eqb_refl. reflexivity.
  - destruct (k =? k0) eqn:E; [|apply IH; assumption].
    apply Z.eqb_eq in E. subst k0. exfalso. apply Hnot.
    change k with (fst (k, v)). apply in_map, Hin.
Qed.

(** In key order, the array indices come first, ascending. *)
Lemma ordered_split (ks : list Z) :
  StronglySorted key_before ks ->
  ks = (filter isArrayIndex ks ++ filter (fun x => negb (isArrayIndex x)) ks)%list /\
  StronglySorted Z.lt (filter isArrayIndex ks).
Proof.
  induction ks as [|k ks IH]; intros H; [split; [reflexivity | constructor]|].
  inversion H as [|? ? Hs Hf]; subst. destruct (IH Hs) as [Heq Hsorted].
  cbn [filter]. destruct (isArrayIndex k) eqn:Ek; cbn [negb].
  - split; [cbn [app]; f_equal; exact Heq|].
    constructor; [assumption|].
    apply Forall_forall. intros x Hx. apply filter_In in Hx as [Hx Hix].
    rewrite Forall_forall in Hf. destruct (Hf x Hx) as [_ Hb]. apply Hb, Hix.
  - assert (Hnone : filter isArrayIndex ks = []).
    { clear -Hf Ek. induction Hf as [|x l [_ Hb] _ IHf]; [reflexivity|].
      cbn [filter]. destruct (isArrayIndex x); [|exact IHf].
      destruct (Hb eq_refl) as [Hk _]. congruence. }
    rewrite Hnone in *. cbn [app] in *. split; [|constructor].
    f_equal. exact Heq.
Qed.

End Objects.

(* ================================================================== *)
(** * reducers.ts: grouping by chain *)
(* ================================================================== *)

Import Reducers Scan.

Lemma grouped_snoc (tokens : list TokenDefinition) (token : TokenDefinition) :
  grouped (tokens ++ [token]) = groupByChain (grouped tokens) token.
Proof. unfold grouped. apply fold_left_app. Qed.

Lemma grouped_ordered (tokens : list TokenDefinition) : ordered (grouped tokens).
Proof.
  induction tokens as [|token tokens IH] using rev_ind.
  - constructor.
  - rewrite grouped_snoc. unfold groupByChain.
    rewrite obj_spread_ordered by assumption. apply ordered_set, IH.
Qed.

Lemma tokensOfChain_snoc (tokens : list TokenDefinition) (token : TokenDefinition) (c : Z) :
  tokensOfChain (tokens ++ [token]) c
  = tokensOfChain tokens c ++ (if chainId token =? c then [token] else []).
Proof. unfold tokensOfChain. rewrite filter_app. reflexivity. Qed.

(** Each chain id is bound to the tokens of that chain, in input order. *)
Lemma grouped_get (tokens : list TokenDefinition) (c : Z) :
  obj_get (grouped tokens) c
  = match tokensOfChain tokens c with
    | [] => None
    | l => Some l
    end.
Proof.
  induction tokens as [|token tokens IH] using rev_ind.
  - reflexivity.
  - rewrite grouped_snoc. unfold groupByChain.
    rewrite obj_spread_ordered by apply grouped_ordered.
    rewrite obj_get_set, tokensOfChain_snoc.
    destruct (c =? chainId token) eqn:E.
    + apply Z.eqb_eq in E. subst c. rewrite Z.eqb_refl, IH.
      destruct (tokensOfChain tokens (chainId token)); reflexivity.
    + rewrite Z.eqb_sym, E, app_nil_r. exact IH.
Qed.

Lemma grouped_keys (tokens : list TokenDefinition) (c : Z) :
  In c (keys (grouped tokens)) <-> In c (map chainId tokens).
Proof.
  induction tokens as [|token tokens IH] using rev_ind.
  - reflexivity.
  - rewrite grouped_snoc. unfold groupByChain.
    rewrite obj_spread_ordered by apply grouped_ordered.
    rewrite in_keys_set, map_app, in_app_iff, IH. cbn [map In]. intuition.
Qed.

(** An array index is a safe integer. *)
Lemma arrayIndex_safe (k : Z) : isArrayIndex k = true -> Number_isSafeInteger (Num k) = true.
Proof.
  unfold isArrayIndex, Number_isSafeInteger, MAX_SAFE_INTEGER.
  intros H. apply andb_true_iff in H as [H0 H1].
  apply Z.leb_le in H0. apply Z.ltb_lt in H1.
  change (2 ^ 32 - 1) with 4294967295 in H1.
  change (2 ^ 53 - 1) with 9007199254740991.
  apply andb_true_iff. split; apply Z.leb_le; lia.
Qed.

(** Safe chain ids make safe keys. *)
Lemma grouped_safeKeys (tokens : list TokenDefinition) :
  safeChainIds tokens -> safeKeys (grouped tokens).
Proof.
  unfold safeChainIds, safeKeys. rewrite !Forall_forall. intros Hsafe [c l] Hin. cbn [fst].
  assert (Hc : In c (keys (grouped tokens))) by (apply (in_map fst _ _ Hin)).
  apply grouped_keys, in_map_iff in Hc as (token & <- & Ht). apply Hsafe, Ht.
Qed.

Lemma firstAppearances_snoc (l : list Z) (x : Z) :
  firstAppearances (l ++ [x])
  = if existsb (Z.eqb x) l then firstAppearances l else firstAppearances l ++ [x].
Proof.
  induction l as [|a l IH]; cbn [app firstAppearances existsb]; [reflexivity|].
  rewrite IH. destruct (x =? a) eqn:E; cbn [orb].
  - destruct (existsb (Z.eqb x) l); [reflexivity|].
    rewrite filter_app. cbn [filter]. rewrite E. cbn [negb]. rewrite app_nil_r. reflexivity.
  - destruct (existsb (Z.eqb x) l); [reflexivity|].
    rewrite filter_app. cbn [filter]. rewrite E. reflexivity.
Qed.

Lemma existsb_eqb_In (x : Z) (l : list Z) : existsb (Z.eqb x) l = true <-> In x l.
Proof.
  rewrite existsb_exists. split.
  - intros (y & Hy & E). apply Z.eqb_eq in E. subst. assumption.
  - intros H. exists x. split; [assumption | apply Z.eqb_refl].
Qed.

Lemma existsb_eqb_ext (x : Z) (l l' : list Z) :
  (In x l <-> In x l') -> existsb (Z.eqb x) l = existsb (Z.eqb x) l'.
Proof.
  intros H. destruct (existsb (Z.eqb x) l) eqn:E, (existsb (Z.eqb x) l') eqn:E';
    try reflexivity.
  - apply existsb_eqb_In, H, existsb_eqb_In in E. congruence.
  - apply existsb_eqb_In, H, existsb_eqb_In in E'. congruence.
Qed.

(** The chain ids that are not array indices keep their order of first
    appearance. *)
Lemma grouped_other_keys (tokens : list TokenDefinition) :
  filter (fun x => negb (isArrayIndex x)) (keys (grouped tokens))
  = firstAppearances (filter (fun x => negb (isArrayIndex x)) (map chainId tokens)).
Proof.
  induction tokens as [|token tokens IH] using rev_ind.
  - reflexivity.
  - rewrite grouped_snoc. unfold groupByChain.
    rewrite obj_spread_ordered by apply grouped_ordered.
    rewrite other_keys_set, map_app, filter_app, IH. cbn [map filter].
    destruct (isArrayIndex (chainId token)) eqn:Ek; cbn [negb orb].
    + rewrite app_nil_r. reflexivity.
    + rewrite firstAppearances_snoc.
      rewrite (existsb_eqb_ext (chainId token) (keys (grouped tokens))
                 (filter (fun x => negb (isArrayIndex x)) (map chainId tokens))).
      * reflexivity.
      * rewrite grouped_keys, filter_In, Ek. cbn [negb]. intuition.
Qed.

(** The entries of the grouped object, spelled out. *)
Lemma grouped_entries (tokens : list TokenDefinition) :
  grouped tokens = map (fun c => (c, tokensOfChain tokens c)) (keys (grouped tokens)).
Proof.
  unfold keys. rewrite map_map.
  rewrite <- (map_id (grouped tokens)) at 1.
  apply map_ext_in. intros [c l] Hin. cbn [fst]. f_equal.
  pose proof (obj_get_in _ c l (ordered_NoDup _ (grouped_ordered tokens)) Hin) as Hget.
  rewrite grouped_get in Hget.
  destruct (tokensOfChain tokens c); congruence.
Qed.

Lemma tokensOfChain_other (tokens : list TokenDefinition) (c c' : Z) :
  c <> c' ->
  tokensOfChain (filter (fun t => negb (chainId t =? c)) tokens) c' = tokensOfChain tokens c'.
Proof.
  intros Hne. unfold tokensOfChain. induction tokens as [|t tokens IH]; [reflexivity|].
  cbn [filter]. destruct (chainId t =? c) eqn:E; cbn [negb filter].
  - apply Z.eqb_eq in E.
    replace (chainId t =? c') with false by (symmetry; apply Z.eqb_neq; congruence).
    exact IH.
  - destruct (chainId t =? c'); [f_equal|]; exact IH.
Qed.

Lemma partition_Permutation {A} (f : A -> bool) (l : list A) :
  Permutation (filter f l ++ filter (fun x => negb (f x)) l) l.
Proof.
  induction l as [|a l IH]; [constructor|].
  cbn [filter]. destruct (f a); cbn [negb app].
  - constructor. exact IH.
  - symmetry. apply Permutation_cons_app. symmetry. exact IH.
Qed.

(** Listing the tokens chain by chain, over distinct chains that cover
    them, rearranges the input and nothing else. *)
Lemma byChain_Permutation (chains : list Z) :
  NoDup chains ->
  forall tokens,
    (forall t, In t tokens -> In (chainId t) chains) ->
    Permutation (byChain tokens chains) tokens.
Proof.
  unfold byChain. induction chains as [|c chains IH]; intros Hnd tokens Hcover.
  - destruct tokens as [|t tokens]; [constructor|]. destruct (Hcover t (or_introl eq_refl)).
  - inversion Hnd as [|? ? Hnot Hnd']; subst. cbn [map concat].
    etransitivity; [|apply (partition_Permutation (fun t => chainId t =? c))].
    apply Permutation_app_head.
    rewrite <- (IH Hnd' (filter (fun t => negb (chainId t =? c)) tokens)).
    + erewrite map_ext_in; [reflexivity|].
      intros c' Hc'. cbn beta. symmetry. apply tokensOfChain_other.
      intros ->. contradiction.
    + intros t Ht. apply filter_In in Ht as [Ht Hne].
      apply negb_true_iff, Z.eqb_neq in Hne.
      destruct (Hcover t Ht) as [E | Hin]; [congruence | exact Hin].
Qed.

(** The order in which [getTokenBalances] walks the chains. *)
Lemma grouped_key_order (tokens : list TokenDefinition) :
  let chains := keys (grouped tokens) in
  let small := filter isArrayIndex chains in
  let large := filter (fun c => negb (isArrayIndex c)) chains in
  chains = small ++ large /\
  StronglySorted Z.lt small /\
  (forall c, In c small <-> isArrayIndex c = true /\ In c (map chainId tokens)) /\
  large = firstAppearances (filter (fun c => negb (isArrayIndex c)) (map chainId tokens)) /\
  NoDup chains.
Proof.
  cbv zeta. pose proof (grouped_ordered tokens) as Ho.
  destruct (ordered_split _ Ho) as [Hsplit Hsorted].
  split; [exact Hsplit|]. split; [exact Hsorted|]. split; [|split].
  - intros c. rewrite filter_In, grouped_keys. intuition.
  - apply grouped_other_keys.
  - apply ordered_NoDup, Ho.
Qed.

(* ================================================================== *)
(** * scan.ts: the two ways of loading a chain's balances *)
(* ================================================================== *)

Section Scanner.

Variable env : Env.
Variable owner : string.

(** A single [balanceOf] call never rejects. *)
Lemma getTokenBalance_resolves (token : TokenDefinition) (id : Z) :
  exists raw, fst (getTokenBalance env token owner id) = Resolved raw.
Proof.
  unfold getTokenBalance.
  destruct (encodeFunctionData_balanceOf env owner) as [data|]; cbn [fst]; [|eauto].
  match goal with
  | |- context [async (match ?c with Normal _ => _ | Throw _ => _ end)] => destruct c
  end; cbn [async]; eauto.
Qed.

(** The per-token path resolves with one balance per token, in order. *)
Lemma tokenBalancePromises_resolve (tokens : list TokenDefinition) :
  forall id, exists out,
    Promise_all (fst (tokenBalancePromises env owner tokens id)) = Resolved out /\
    map tokenFields out = map Some tokens.
Proof.
  induction tokens as [|token tokens IH]; intros id; cbn [tokenBalancePromises].
  - exists []. split; reflexivity.
  - destruct (getTokenBalance_resolves token id) as [raw Hraw].
    destruct (getTokenBalance env token owner id) as [p id1]. cbn [fst] in Hraw. subst p.
    destruct (IH id1) as (out & Hout & Hmap).
    destruct (tokenBalancePromises env owner tokens id1) as [ps id2]. cbn [fst] in *.
    cbn [await bind async Promise_all]. rewrite Hout.
    eexists. split; [reflexivity|]. cbn [map tokenFields]. f_equal. exact Hmap.
Qed.

Lemma getTokenBalancesFromContracts_resolves (tokens : list TokenDefinition) (id : Z) :
  exists out,
    fst (getTokenBalancesFromContracts env owner tokens id) = Resolved out /\
    map tokenFields out = map Some tokens.
Proof.
  unfold getTokenBalancesFromContracts.
  destruct (tokenBalancePromises_resolve tokens id) as (out & Hout & Hmap).
  destruct (tokenBalancePromises env owner tokens id) as [ps id']. cbn [fst] in *.
  exists out. split; assumption.
Qed.

Lemma mergeResult_in_range (tokens : list TokenDefinition) (result : CallResult)
    (i : nat) (token : TokenDefinition) :
  nth_error tokens i = Some token ->
  mergeResult tokens result (Z.of_nat i) = Normal (merged token result).
Proof.
  intros Ht. unfold mergeResult, merged, index.
  replace (Z.of_nat i <? 0) with false by (symmetry; apply Z.ltb_ge; lia).
  rewrite Nat2Z.id, Ht. destruct (success result); reflexivity.
Qed.

(** Merging goes by position. *)
Lemma mapi_mergeResult (tokens : list TokenDefinition) (results : list CallResult) :
  forall i : nat,
    (i + List.length results <= List.length tokens)%nat ->
    exists out,
      mapi_from (mergeResult tokens) (Z.of_nat i) results = Normal out /\
      List.length out = List.length results /\
      forall j token result,
        nth_error tokens (i + j) = Some token ->
        nth_error results j = Some result ->
        nth_error out j = Some (merged token result).
Proof.
  induction results as [|r results IH]; intros i Hlen; cbn [mapi_from].
  - exists []. repeat split. intros [|j] ? ? _ H; discriminate H.
  - cbn [List.length] in Hlen.
    destruct (nth_error tokens i) as [t|] eqn:Et;
      [|apply nth_error_None in Et; lia].
    rewrite (mergeResult_in_range tokens r i t Et). cbn [bind].
    destruct (IH (S i) ltac:(lia)) as (out & Hout & Hl & Hnth).
    replace (Z.of_nat i + 1) with (Z.of_nat (S i)) by lia.
    rewrite Hout. cbn [bind]. eexists. split; [reflexivity|]. split; [cbn; lia|].
    intros [|j] token result Ht Hr; cbn [nth_error] in *.
    + rewrite Nat.add_0_r in Ht. congruence.
    + apply Hnth; [|assumption]. rewrite <- Ht. f_equal. lia.
Qed.

Lemma map_tokenFields_nth (tokens : list TokenDefinition) (out : list TokenBalance) :
  List.length out = List.length tokens ->
  (forall j token, nth_error tokens j = Some token ->
                   exists b, nth_error out j = Some b /\ tokenFields b = Some token) ->
  map tokenFields out = map Some tokens.
Proof.
  revert out. induction tokens as [|t tokens IH]; intros [|b out] Hlen H;
    try discriminate Hlen; [reflexivity|].
  cbn [map]. f_equal.
  - destruct (H 0%nat t eq_refl) as (b' & [= <-] & Hb). exact Hb.
  - apply IH; [cbn in Hlen; lia|].
    intros j token Hj. apply (H (S j) token Hj).
Qed.

(** The batched path, when the batcher answers every call. *)
Lemma getTokenBalancesFromMulticall_resolves
    (tokens : list TokenDefinition) (chain : number) (results : list CallResult) :
  batchCall env chain (balanceCalls owner tokens) = Resolved results ->
  List.length results = List.length tokens ->
  exists out,
    getTokenBalancesFromMulticall env owner tokens chain = Resolved out /\
    List.length out = List.length tokens /\
    (forall j token result,
        nth_error tokens j = Some token ->
        nth_error results j = Some result ->
        nth_error out j = Some (merged token result)) /\
    map tokenFields out = map Some tokens.
Proof.
  intros Hbatch Hlen. unfold getTokenBalancesFromMulticall. rewrite Hbatch.
  cbn [await bind].
  destruct (mapi_mergeResult tokens results 0 ltac:(lia)) as (out & Hout & Hl & Hnth).
  change (Z.of_nat 0) with 0 in Hout. rewrite Hout. cbn [async].
  exists out. split; [reflexivity|]. split; [lia|]. split; [exact Hnth|].
  apply map_tokenFields_nth; [lia|].
  intros j token Hj.
  destruct (nth_error results j) as [r|] eqn:Er.
  - exists (merged token r). split; [apply Hnth; assumption | reflexivity].
  - apply nth_error_None in Er. assert (nth_error tokens j <> None) by congruence.
    apply nth_error_Some in H. lia.
Qed.

Lemma balanceCalls_length (tokens : list TokenDefinition) :
  List.length (balanceCalls owner tokens) = List.length tokens.
Proof. apply length_map. Qed.

Lemma chainBalancePromises_resolve (o : TokensByChain) :
  safeKeys o ->
  (forall c chainTokens,
      In (c, chainTokens) o ->
      multicallSupportsChain env (Num c) = true ->
      exists results,
        batchCall env (Num c) (balanceCalls owner chainTokens) = Resolved results /\
        List.length results = List.length chainTokens) ->
  forall id, exists outs,
    Promise_all (fst (chainBalancePromises env owner (Object_entries o) id)) = Resolved outs /\
    map (map tokenFields) outs = map (fun e => map Some (snd e)) o.
Proof.
  induction o as [|[c tokens] o IH]; intros Hsafe Hb id;
    cbn [Object_entries map fst snd chainBalancePromises].
  - exists []. split; reflexivity.
  - inversion Hsafe as [|? ? Hc Hsafe']; subst. cbn [fst] in Hc.
    rewrite (parseInt_ToString c Hc).
    assert (Hp : exists out id1,
               (if multicallSupportsChain env (Num c)
                then (getTokenBalancesFromMulticall env owner tokens (Num c), id)
                else getTokenBalancesFromContracts env owner tokens id)
               = (Resolved out, id1) /\
               map tokenFields out = map Some tokens).
    { destruct (multicallSupportsChain env (Num c)) eqn:Es.
      - destruct (Hb c tokens (or_introl eq_refl) Es) as (results & Hres & Hlen).
        destruct (getTokenBalancesFromMulticall_resolves tokens _ results Hres Hlen)
          as (out & Hout & _ & _ & Hmap).
        exists out, id. rewrite Hout. split; [reflexivity | exact Hmap].
      - destruct (getTokenBalancesFromContracts_resolves tokens id) as (out & Hout & Hmap).
        destruct (getTokenBalancesFromContracts env owner tokens id) as [p id1].
        cbn [fst] in Hout. subst p. exists out, id1. split; [reflexivity | exact Hmap]. }
    destruct Hp as (out & id1 & -> & Hmap).
    destruct (IH Hsafe' (fun c' ts Hin => Hb c' ts (or_intror Hin)) id1)
      as (outs & Houts & Hmaps).
    fold (Object_entries o).
    destruct (chainBalancePromises env owner (Object_entries o) id1) as [ps id2].
    cbn [fst] in *. cbn [Promise_all]. rewrite Houts.
    exists (out :: outs). split; [reflexivity|]. cbn [map snd]. f_equal; assumption.
Qed.

(** With a batcher that answers, [getTokenBalances] resolves with the
    tokens chain by chain, the chains in the key order of the grouped
    object. *)
Lemma getTokenBalances_resolves (tokens : list TokenDefinition) (id : Z) :
  safeChainIds tokens ->
  batcherAnswers env owner tokens ->
  exists out,
    fst (getTokenBalances env owner tokens id) = Resolved out /\
    map tokenFields out = map Some (byChain tokens (keys (grouped tokens))).
Proof.
  intros Hsafe Hb. unfold getTokenBalances. fold (grouped tokens).
  destruct (chainBalancePromises_resolve (grouped tokens)) with (id := id)
    as (outs & Houts & Hmaps).
  { apply grouped_safeKeys, Hsafe. }
  { intros c chainTokens Hin Hs.
    rewrite (grouped_entries tokens) in Hin.
    apply in_map_iff in Hin as (c' & [= -> <-] & Hc).
    apply Hb; [apply grouped_keys, Hc | exact Hs]. }
  destruct (chainBalancePromises env owner (Object_entries (grouped tokens)) id) as [ps id'].
  cbn [fst] in *. rewrite Houts. cbn [await bind async].
  exists (concat outs). split; [reflexivity|].
  rewrite concat_map, Hmaps.
  unfold byChain. rewrite concat_map, map_map.
  rewrite (grouped_entries tokens) at 1. rewrite map_map. reflexivity.
Qed.

End Scanner.

(* ================================================================== *)
(** * scan.ts: the claims *)
(* ================================================================== *)

(** The native balances: one entry per chain, in order, whatever the node
    does; a chain whose request failed gets the raw balance [0x0]. *)
Lemma getCurrencyBalances_total (env : Env) (address : string) (chains : list Z) :
  exists out,
    getCurrencyBalances env address chains = Resolved out /\
    map cb_chainId out = chains /\
    forall i c e,
      nth_error chains i = Some c ->
      request env (eth_getBalance address "latest"
                     (addHexPrefix (Number_toString (Num c) 16))) = Rejected e ->
      nth_error out i = Some {| cb_balance := "0x0";
                                cb_displayBalance := None;
                                cb_displayValue := Some "0.0";
                                cb_chainId := c |}.
Proof.
  unfold getCurrencyBalances. induction chains as [|c chains IH]; cbn [map Promise_all].
  - exists []. repeat split. intros [|i] ? ? H; discriminate H.
  - destruct IH as (out & Hout & Hmap & Hfail). rewrite Hout.
    unfold getNativeCurrencyBalance at 1.
    destruct (request env (eth_getBalance address "latest"
                             (addHexPrefix (Number_toString (Num c) 16)))) as [raw|e] eqn:Er;
      cbn [await bind async].
    + eexists. split; [reflexivity|]. split; [cbn [map cb_chainId]; f_equal; exact Hmap|].
      intros [|i] c' e' Hc He; cbn [nth_error] in *.
      * injection Hc as <-. congruence.
      * eapply Hfail; eassumption.
    + eexists. split; [reflexivity|]. split; [cbn [map cb_chainId]; f_equal; exact Hmap|].
      intros [|i] c' e' Hc He; cbn [nth_error] in *.
      * injection Hc as <-. reflexivity.
      * eapply Hfail; eassumption.
Qed.

(** C1, as stated, fails: with a token on chain 137 listed before a token
    on chain 1, the chain-1 token comes out first. *)
Lemma chains_are_not_in_first_appearance_order :
  fst (getTokenBalances Examples.offline Examples.owner
         [Examples.usdc_polygon; Examples.usdc_mainnet] 1)
  = Resolved [Examples.zeroBalanceOf Examples.usdc_mainnet;
              Examples.zeroBalanceOf Examples.usdc_polygon] /\
  firstAppearanceOrder [Examples.usdc_polygon; Examples.usdc_mainnet]
  = [Examples.usdc_polygon; Examples.usdc_mainnet].
Proof. split; vm_compute; reflexivity. Qed.

(** Beyond the safe integers a chain id no longer reads back from its key:
    a token on chain 10^21 is grouped under the key [1e+21], which
    [parseInt] reads as chain 1, so that it is handed to the batcher of
    chain 1. *)
Example unsafe_chain_id_is_read_by_its_leading_digit :
  Object_entries (grouped [Examples.token (10 ^ 21) "USDC" "0x00"])
  = [("1e+21", [Examples.token (10 ^ 21) "USDC" "0x00"])] /\
  fst (getTokenBalances Examples.batcherDown Examples.owner
         [Examples.token (10 ^ 21) "USDC" "0x00"] 1)
  = Rejected (Payload "aggregate call reverted") /\
  multicallSupportsChain Examples.batcherDown (Num (10 ^ 21)) = false.
Proof. repeat split; vm_compute; reflexivity. Qed.

(** C1, amended: when the chain ids are safe integers and the batcher
    answers every batch submitted to it with one result per call,
    [getTokenBalances] resolves with as many balances as there are tokens;
    they carry the input tokens chain by chain, a rearrangement of the input
    in which the tokens of one chain keep their input order and the chains
    come in own-property order of their ids: the ids below 2^32 - 1
    ascending, then the others in order of first appearance. *)
Theorem getTokenBalances_chain_order
    (env : Env) (owner : string) (tokens : list TokenDefinition) (id : Z) :
  safeChainIds tokens ->
  batcherAnswers env owner tokens ->
  exists out chains small large,
    fst (getTokenBalances env owner tokens id) = Resolved out /\
    List.length out = List.length tokens /\
    map tokenFields out = map Some (byChain tokens chains) /\
    Permutation (byChain tokens chains) tokens /\
    chains = small ++ large /\
    StronglySorted Z.lt small /\
    (forall c, In c small <-> isArrayIndex c = true /\ In c (map chainId tokens)) /\
    large = firstAppearances (filter (fun c => negb (isArrayIndex c)) (map chainId tokens)).
Proof.
  intros Hsafe Hb.
  destruct (getTokenBalances_resolves env owner tokens id Hsafe Hb) as (out & Hout & Hmap).
  destruct (grouped_key_order tokens) as (Hsplit & Hsorted & Hsmall & Hlarge & Hnd).
  assert (Hperm : Permutation (byChain tokens (keys (grouped tokens))) tokens).
  { apply byChain_Permutation; [exact Hnd|].
    intros t Ht. apply grouped_keys, in_map, Ht. }
  exists out, (keys (grouped tokens)), (filter isArrayIndex (keys (grouped tokens))),
    (filter (fun c => negb (isArrayIndex c)) (keys (grouped tokens))).
  split; [exact Hout|].
  split.
  { rewrite <- (length_map tokenFields), Hmap, length_map. apply Permutation_length, Hperm. }
  split; [exact Hmap|]. split; [exact Hperm|].
  split; [exact Hsplit|]. split; [exact Hsorted|].
  split; [exact Hsmall | exact Hlarge].
Qed.

Lemma getTokenBalances_chain_order_witness :
  exists out chains small large,
    fst (getTokenBalances Examples.batcherAllFailed Examples.owner
           [Examples.usdc_polygon; Examples.usdc_mainnet; Examples.usdc_palm;
            Examples.usdt_polygon] 1) = Resolved out /\
    List.length out = 4%nat /\
    map tokenFields out
    = map Some (byChain [Examples.usdc_polygon; Examples.usdc_mainnet; Examples.usdc_palm;
                         Examples.usdt_polygon] chains) /\
    Permutation
      (byChain [Examples.usdc_polygon; Examples.usdc_mainnet; Examples.usdc_palm;
                Examples.usdt_polygon] chains)
      [Examples.usdc_polygon; Examples.usdc_mainnet; Examples.usdc_palm;
       Examples.usdt_polygon] /\
    chains = small ++ large /\
    StronglySorted Z.lt small /\
    (forall c, In c small <-> isArrayIndex c = true /\ In c [137; 1; 11297108109; 137]) /\
    large = [11297108109].
Proof.
  apply (getTokenBalances_chain_order Examples.batcherAllFailed Examples.owner
           [Examples.usdc_polygon; Examples.usdc_mainnet; Examples.usdc_palm;
            Examples.usdt_polygon] 1).
  - repeat constructor.
  - intros c _ _. eexists. split; [reflexivity|].
    unfold balanceCalls. rewrite !length_map. reflexivity.
Defined.

(** C3: a batched call that itself fails on a batching-capable chain makes
    [getTokenBalances] reject with that failure, where the per-token path,
    with every request failing, resolves with zero balances. *)
Theorem batch_failure_is_propagated :
  fst (getTokenBalances Examples.batcherDown Examples.owner
         [Examples.usdc_mainnet; Examples.usdc_polygon] 1)
  = Rejected (Payload "aggregate call reverted") /\
  fst (getTokenBalances Examples.offline Examples.owner
         [Examples.usdc_mainnet; Examples.usdc_polygon] 1)
  = Resolved [Examples.zeroBalanceOf Examples.usdc_mainnet;
              Examples.zeroBalanceOf Examples.usdc_polygon].
Proof. split; vm_compute; reflexivity. Qed.

(** C4: [getCurrencyBalances] always resolves with one entry per chain, in
    order, each tagged with its chain id; but the entry of a chain whose
    request failed is not a zero balance: it carries the raw balance [0x0]
    and a [displayValue] of [0.0], and no [displayBalance] at all. *)
Theorem failed_native_balance_has_no_displayBalance :
  (forall env address chains,
      exists out, getCurrencyBalances env address chains = Resolved out /\
                  map cb_chainId out = chains) /\
  getCurrencyBalances Examples.offline Examples.owner [1; 137]
  = Resolved [ {| cb_balance := "0x0"; cb_displayBalance := None;
                  cb_displayValue := Some "0.0"; cb_chainId := 1 |};
               {| cb_balance := "0x0"; cb_displayBalance := None;
                  cb_displayValue := Some "0.0"; cb_chainId := 137 |} ] /\
  createBalance "0x0" 18
  = {| balance := "0x0"; displayBalance := BigNumber_shiftedBy_toString "0x0" (-18) |}.
Proof.
  split; [|split; reflexivity].
  intros env address chains.
  destruct (getCurrencyBalances_total env address chains) as (out & Hout & Hmap & _).
  exists out. split; assumption.
Qed.

(** C8: on the batched path, given one result per call, the balances come
    back one per token and in the tokens' order; the entry at each position
    carries the token at that position, whose address the call at that
    position targets and at whose decimals that call decodes, with a zero
    balance (the raw balance [0x0], displayed at the token's own decimals)
    if the result at that position failed and with the decoded balance of
    that result if it succeeded. *)
Theorem batch_results_merge_by_position
    (env : Env) (owner : string) (tokens : list TokenDefinition) (chain : number)
    (results : list CallResult) :
  batchCall env chain (balanceCalls owner tokens) = Resolved results ->
  List.length results = List.length tokens ->
  exists out,
    getTokenBalancesFromMulticall env owner tokens chain = Resolved out /\
    List.length out = List.length tokens /\
    forall j token result,
      nth_error tokens j = Some token ->
      nth_error results j = Some result ->
      exists entry call,
        nth_error out j = Some entry /\
        nth_error (balanceCalls owner tokens) j = Some call /\
        target call = address token /\
        (forall bn,
            map (fun decode => decode bn) (returns call)
            = [ {| balance := toHexString bn;
                   displayBalance :=
                     BigNumber_shiftedBy_toString (toHexString bn) (- decimals token) |} ]) /\
        tokenFields entry = Some token /\
        (success result = false ->
         balanceFields entry
         = Some {| balance := "0x0";
                   displayBalance := BigNumber_shiftedBy_toString "0x0" (- decimals token) |}) /\
        (success result = true ->
         balanceFields entry = index (returnValues result) 0) /\
        (forall decoded others,
            success result = true -> returnValues result = decoded :: others ->
            balanceFields entry = Some decoded).
Proof.
  intros Hbatch Hlen.
  destruct (getTokenBalancesFromMulticall_resolves env owner tokens chain results Hbatch Hlen)
    as (out & Hout & Hl & Hnth & _).
  exists out. split; [exact Hout|]. split; [exact Hl|].
  intros j token result Ht Hr.
  exists (merged token result).
  eexists. split; [apply Hnth; assumption|].
  split; [unfold balanceCalls; apply map_nth_error, Ht|].
  cbn [target returns tokenFields balanceFields merged].
  split; [reflexivity|]. split; [reflexivity|]. split; [reflexivity|].
  split; [intros ->; reflexivity|]. split; [intros ->; reflexivity|].
  intros decoded others -> ->. reflexivity.
Qed.

Lemma batch_results_merge_by_position_witness :
  exists out,
    getTokenBalancesFromMulticall Examples.batcherPartial Examples.owner
      [Examples.usdc_mainnet; Examples.usdt_mainnet] (Num 1) = Resolved out /\
    List.length out = 2%nat /\
    forall j token result,
      nth_error [Examples.usdc_mainnet; Examples.usdt_mainnet] j = Some token ->
      nth_error [ {| success := true; returnValues := [createBalance "0x2a" 6] |};
                  {| success := false; returnValues := [] |} ] j = Some result ->
      exists entry call,
        nth_error out j = Some entry /\
        nth_error (balanceCalls Examples.owner
                     [Examples.usdc_mainnet; Examples.usdt_mainnet]) j = Some call /\
        target call = address token /\
        (forall bn,
            map (fun decode => decode bn) (returns call)
            = [ {| balance := toHexString bn;
                   displayBalance :=
                     BigNumber_shiftedBy_toString (toHexString bn) (- decimals token) |} ]) /\
        tokenFields entry = Some token /\
        (success result = false ->
         balanceFields entry
         = Some {| balance := "0x0";
                   displayBalance := BigNumber_shiftedBy_toString "0x0" (- decimals token) |}) /\
        (success result = true ->
         balanceFields entry = index (returnValues result) 0) /\
        (forall decoded others,
            success result = true -> returnValues result = decoded :: others ->
            balanceFields entry = Some decoded).
Proof.
  apply (batch_results_merge_by_position Examples.batcherPartial Examples.owner
           [Examples.usdc_mainnet; Examples.usdt_mainnet] (Num 1)
           [ {| success := true; returnValues := [createBalance "0x2a" 6] |};
             {| success := false; returnValues := [] |} ]);
    reflexivity.
Defined.

Example batch_results_merge_example :
  getTokenBalancesFromMulticall Examples.batcherPartial Examples.owner
    [Examples.usdc_mainnet; Examples.usdt_mainnet] (Num 1)
  = Resolved [ {| tokenFields := Some Examples.usdc_mainnet;
                  balanceFields :=
                    Some {| balance := "0x2a";
                            displayBalance := BigNumber_shiftedBy_toString "0x2a" (-6) |} |};
               {| tokenFields := Some Examples.usdt_mainnet;
                  balanceFields :=
                    Some {| balance := "0x0";
                            displayBalance := BigNumber_shiftedBy_toString "0x0" (-6) |} |} ].
Proof. reflexivity. Qed.

(* ================================================================== *)
(** * reducers.ts: further properties *)
(* ================================================================== *)

Import Relevant More.

(** X1: after the reduction, a chain id is bound exactly when some token
    has it, and then to the tokens of that chain, all of them and in input
    order; no chain id is bound twice and no group is empty. *)
Theorem grouped_lookup (tokens : list TokenDefinition) :
  (forall c, ~ In c (map chainId tokens) -> obj_get (grouped tokens) c = None) /\
  (forall c, In c (map chainId tokens) ->
             obj_get (grouped tokens) c = Some (tokensOfChain tokens c) /\
             tokensOfChain tokens c <> []) /\
  (forall c group, In (c, group) (grouped tokens) ->
                   group = tokensOfChain tokens c /\
                   Forall (fun token => chainId token = c) group) /\
  NoDup (keys (grouped tokens)).
Proof.
  assert (Hne : forall c, In c (map chainId tokens) -> tokensOfChain tokens c <> []).
  { intros c Hc Hnil. apply in_map_iff in Hc as (t & <- & Ht).
    assert (Hin : In t (tokensOfChain tokens (chainId t)))
      by (apply filter_In; split; [exact Ht | apply Z.eqb_refl]).
    rewrite Hnil in Hin. exact Hin. }
  split; [|split; [|split]].
  - intros c Hc. rewrite grouped_get.
    destruct (tokensOfChain tokens c) as [|t l] eqn:E; [reflexivity|].
    exfalso. apply Hc.
    assert (Hin : In t (tokensOfChain tokens c)) by (rewrite E; left; reflexivity).
    apply filter_In in Hin as [Hin Hc']. apply Z.eqb_eq in Hc'. subst c.
    apply in_map, Hin.
  - intros c Hc. split; [|apply Hne, Hc].
    rewrite grouped_get. specialize (Hne c Hc).
    destruct (tokensOfChain tokens c); [congruence | reflexivity].
  - intros c group Hin. rewrite (grouped_entries tokens) in Hin.
    apply in_map_iff in Hin as (c' & [= -> <-] & _).
    split; [reflexivity|].
    apply Forall_forall. intros t Ht. apply filter_In in Ht as [_ Ht].
    apply Z.eqb_eq, Ht.
  - apply ordered_NoDup, grouped_ordered.
Qed.

(** Reducing batch after batch with [relevantBalances] is one filter. *)
Lemma relevantBalances_fold (batches : list (list TokenBalance)) :
  forall acc,
    fold_left relevantBalances batches acc
    = acc ++ filter (fun t => gt_zero (parseInt (balanceString t) None)) (concat batches).
Proof.
  induction batches as [|batch batches IH]; intros acc; cbn [fold_left concat].
  - symmetry. apply app_nil_r.
  - rewrite IH. unfold relevantBalances. rewrite filter_app, app_assoc. reflexivity.
Qed.

(** X2: used as a reducer over batches of token balances, starting from
    nothing, [relevantBalances] yields the balances that read as a positive
    number, in the order of the batches and of each batch; what was
    accumulated before is kept, unfiltered, in front. *)
Theorem relevantBalances_reduce (batches : list (list TokenBalance)) (acc : list TokenBalance) :
  fold_left relevantBalances batches []
  = filter (fun t => gt_zero (parseInt (balanceString t) None)) (concat batches) /\
  fold_left relevantBalances batches acc = acc ++ fold_left relevantBalances batches [] /\
  (forall t, In t (fold_left relevantBalances batches acc) <->
             In t acc \/
             (exists batch, In batch batches /\ In t batch) /\
             gt_zero (parseInt (balanceString t) None) = true).
Proof.
  rewrite !relevantBalances_fold. cbn [app].
  split; [reflexivity|]. split; [reflexivity|].
  intros t. rewrite in_app_iff, filter_In, in_concat.
  split.
  - intros [H | [(batch & Hb & Ht) Hp]]; [left; exact H | right].
    split; [exists batch; split; assumption | exact Hp].
  - intros [H | [(batch & Hb & Ht) Hp]]; [left; exact H | right].
    split; [exists batch; split; assumption | exact Hp].
Qed.

Lemma hex_balance_positive (t : TokenBalance) (b : ExternalBalance) (z : Z) :
  balanceFields t = Some b -> hexValue (balance b) = Some z ->
  gt_zero (parseInt (balanceString t) None) = (0 <? z).
Proof.
  intros Hb Hz. unfold balanceString. rewrite Hb.
  rewrite (parseInt_hexValue _ _ Hz). reflexivity.
Qed.

(** X3: of token balances whose raw balance is a hex-encoded integer,
    [relevantBalances] appends exactly those whose value is above zero:
    a balance is judged by its value, whatever its spelling ([0x0], [0x00],
    leading zeros). *)
Theorem relevantBalances_hex (balances tokenBalances : list TokenBalance)
    (value : TokenBalance -> Z) :
  Forall (fun t => exists b, balanceFields t = Some b /\
                             hexValue (balance b) = Some (value t)) tokenBalances ->
  relevantBalances balances tokenBalances
  = balances ++ filter (fun t => 0 <? value t) tokenBalances.
Proof.
  intros H. unfold relevantBalances. f_equal.
  apply filter_ext_in. intros t Ht. rewrite Forall_forall in H.
  destruct (H t Ht) as (b & Hb & Hz). apply (hex_balance_positive t b _ Hb Hz).
Qed.

Lemma relevantBalances_hex_witness :
  relevantBalances []
    [ {| tokenFields := Some Examples.usdc_mainnet;
         balanceFields := Some (createBalance "0x2a" 6) |};
      zeroBalance Examples.usdt_mainnet;
      {| tokenFields := Some Examples.usdc_polygon;
         balanceFields := Some (createBalance "0x00" 6) |} ]
  = [ {| tokenFields := Some Examples.usdc_mainnet;
         balanceFields := Some (createBalance "0x2a" 6) |} ].
Proof.
  apply (relevantBalances_hex []
           [ {| tokenFields := Some Examples.usdc_mainnet;
                balanceFields := Some (createBalance "0x2a" 6) |};
             zeroBalance Examples.usdt_mainnet;
             {| tokenFields := Some Examples.usdc_polygon;
                balanceFields := Some (createBalance "0x00" 6) |} ]
           (fun t => match balanceFields t with
                     | Some b => match hexValue (balance b) with Some z => z | None => 0 end
                     | None => 0
                     end)).
  repeat constructor; eexists; split; reflexivity.
Defined.

(* ================================================================== *)
(** * scan.ts: further properties *)
(* ================================================================== *)

Section ScannerMore.

Variable env : Env.
Variable owner : string.

Lemma getTokenBalance_id (token : TokenDefinition) (id : Z) :
  snd (getTokenBalance env token owner id) = id + idsPerCall env owner.
Proof.
  unfold getTokenBalance, idsPerCall, encodes.
  destruct (encodeFunctionData_balanceOf env owner); cbn [snd]; lia.
Qed.

(** X4: [getTokenBalance] never rejects, and its answer is settled case by
    case.  When the owner cannot be encoded it answers [0x0] and takes no
    request id.  Otherwise it takes the next request id and sends one
    [eth_call] under it, for the token's chain and address; it answers
    [0x0] when the node rejects that request, when decoding the response
    throws and when the decoded result carries no balance, and it answers
    the hex string of the decoded balance in the one remaining case. *)
Theorem getTokenBalance_outcome (token : TokenDefinition) (id : Z) :
  let sent data :=
    request env (eth_call (id + 1) (chainParam (chainId token)) (address token)
                          "0x0" data "latest") in
  (exists raw, fst (getTokenBalance env token owner id) = Resolved raw) /\
  (forall e,
      encodeFunctionData_balanceOf env owner = Throw e ->
      getTokenBalance env token owner id = (Resolved "0x0", id)) /\
  (forall data,
      encodeFunctionData_balanceOf env owner = Normal data ->
      snd (getTokenBalance env token owner id) = id + 1 /\
      (forall e,
          sent data = Rejected e ->
          fst (getTokenBalance env token owner id) = Resolved "0x0") /\
      (forall response e,
          sent data = Resolved response ->
          decodeFunctionResult_balanceOf env response = Throw e ->
          fst (getTokenBalance env token owner id) = Resolved "0x0") /\
      (forall response,
          sent data = Resolved response ->
          decodeFunctionResult_balanceOf env response = Normal None ->
          fst (getTokenBalance env token owner id) = Resolved "0x0") /\
      (forall response bn,
          sent data = Resolved response ->
          decodeFunctionResult_balanceOf env response = Normal (Some bn) ->
          fst (getTokenBalance env token owner id) = Resolved (toHexString bn))).
Proof.
  cbv zeta. split; [apply getTokenBalance_resolves|].
  unfold getTokenBalance, chainParam. split.
  - intros e ->. reflexivity.
  - intros data ->. cbn [fst snd]. split; [reflexivity|].
    split; [|split; [|split]].
    + intros e ->. reflexivity.
    + intros response e -> Hd. cbn [await bind]. rewrite Hd. reflexivity.
    + intros response -> Hd. cbn [await bind]. rewrite Hd. reflexivity.
    + intros response bn -> Hd. cbn [await bind]. rewrite Hd. reflexivity.
Qed.

Lemma tokenBalancePromises_positional (tokens : list TokenDefinition) :
  forall id, exists out,
    tokenBalancePromises env owner tokens id
    = (map Resolved out, id + idsPerCall env owner * Z.of_nat (List.length tokens)) /\
    List.length out = List.length tokens /\
    forall i token,
      nth_error tokens i = Some token ->
      exists raw,
        fst (getTokenBalance env token owner (id + idsPerCall env owner * Z.of_nat i))
        = Resolved raw /\
        nth_error out i
        = Some {| tokenFields := Some token;
                  balanceFields := Some (createBalance raw (decimals token)) |}.
Proof.
  induction tokens as [|token tokens IH]; intros id; cbn [tokenBalancePromises].
  - exists []. split; [cbn; f_equal; lia|]. split; [reflexivity|].
    intros [|i] ? H; discriminate H.
  - destruct (getTokenBalance_resolves env owner token id) as [raw Hraw].
    pose proof (getTokenBalance_id token id) as Hid.
    assert (Hg : getTokenBalance env token owner id
                 = (Resolved raw, id + idsPerCall env owner))
      by (destruct (getTokenBalance env token owner id); cbn [fst snd] in *; congruence).
    clear Hraw Hid.
    rewrite Hg. destruct (IH (id + idsPerCall env owner)) as (out & Hout & Hlen & Hnth).
    rewrite Hout. cbn [await bind async].
    exists ({| tokenFields := Some token;
               balanceFields := Some (createBalance raw (decimals token)) |} :: out).
    split; [cbn [map List.length]; f_equal; lia|].
    split; [cbn [List.length]; congruence|].
    intros [|i] t Ht; cbn [nth_error] in *.
    + injection Ht as <-. exists raw. rewrite Z.mul_0_r, Z.add_0_r, Hg.
      split; reflexivity.
    + destruct (Hnth i t Ht) as (raw' & Hraw' & Hi). exists raw'. split; [|exact Hi].
      rewrite <- Hraw'. do 2 f_equal. lia.
Qed.

Lemma Promise_all_Resolved {A} (l : list A) : Promise_all (map Resolved l) = Resolved l.
Proof. induction l as [|a l IH]; cbn [map Promise_all]; [|rewrite IH]; reflexivity. Qed.

(** X5: the per-token path resolves with one balance per token, in the
    tokens' order; the balance at each position is the token at that
    position with the raw balance [getTokenBalance] answers for it,
    displayed at the token's own decimals, so a failed lookup zeroes that
    token only; the calls take consecutive request ids. *)
Theorem getTokenBalancesFromContracts_positional (tokens : list TokenDefinition) (id : Z) :
  exists out,
    getTokenBalancesFromContracts env owner tokens id
    = (Resolved out, id + idsPerCall env owner * Z.of_nat (List.length tokens)) /\
    List.length out = List.length tokens /\
    forall i token,
      nth_error tokens i = Some token ->
      exists raw,
        fst (getTokenBalance env token owner (id + idsPerCall env owner * Z.of_nat i))
        = Resolved raw /\
        nth_error out i
        = Some {| tokenFields := Some token;
                  balanceFields :=
                    Some {| balance := raw;
                            displayBalance :=
                              BigNumber_shiftedBy_toString raw (- decimals token) |} |}.
Proof.
  destruct (tokenBalancePromises_positional tokens id) as (out & Hout & Hlen & Hnth).
  exists out. unfold getTokenBalancesFromContracts. rewrite Hout, Promise_all_Resolved.
  split; [reflexivity|]. split; assumption.
Qed.

End ScannerMore.

(** ** The batched path outside the batcher's contract *)

Section BatchedMore.

Variable env : Env.
Variable owner : string.

Lemma mergeResult_out_of_range (tokens : list TokenDefinition) (result : CallResult) (i : nat) :
  (List.length tokens <= i)%nat ->
  mergeResult tokens result (Z.of_nat i)
  = if success result
    then Normal {| tokenFields := None; balanceFields := index (returnValues result) 0 |}
    else Throw TypeError.
Proof.
  intros Hi. unfold mergeResult, index.
  replace (Z.of_nat i <? 0) with false by (symmetry; apply Z.ltb_ge; lia).
  rewrite Nat2Z.id. replace (nth_error tokens i) with (@None TokenDefinition)
    by (symmetry; apply nth_error_None, Hi).
  destruct (success result); reflexivity.
Qed.

Lemma mergeResult_tokenFields (tokens : list TokenDefinition) (result : CallResult)
    (i : nat) (entry : TokenBalance) :
  mergeResult tokens result (Z.of_nat i) = Normal entry ->
  tokenFields entry = nth_error tokens i.
Proof.
  unfold mergeResult, index.
  replace (Z.of_nat i <? 0) with false by (symmetry; apply Z.ltb_ge; lia).
  rewrite Nat2Z.id.
  destruct (success result); cbn [bind].
  - intros [= <-]. reflexivity.
  - destruct (nth_error tokens i); cbn [deref bind]; [|discriminate].
    intros [= <-]. reflexivity.
Qed.

Lemma mergeResult_throws_TypeError (tokens : list TokenDefinition) (result : CallResult)
    (i : Z) (e : exn) :
  mergeResult tokens result i = Throw e -> e = TypeError.
Proof.
  unfold mergeResult. destruct (success result); cbn [bind]; [discriminate|].
  destruct (index tokens i); cbn [deref bind]; [discriminate|].
  intros [= <-]. reflexivity.
Qed.

(** A failed result beyond the tokens makes the merge throw. *)
Lemma mapi_mergeResult_throws (tokens : list TokenDefinition) (results : list CallResult) :
  forall (i j : nat) (result : CallResult),
    nth_error results j = Some result ->
    (List.length tokens <= i + j)%nat ->
    success result = false ->
    mapi_from (mergeResult tokens) (Z.of_nat i) results = Throw TypeError.
Proof.
  induction results as [|r results IH]; intros i j result Hj Hi Hs.
  - destruct j; discriminate Hj.
  - cbn [mapi_from]. destruct j as [|j]; cbn [nth_error] in Hj.
    + injection Hj as ->. rewrite mergeResult_out_of_range by lia. rewrite Hs. reflexivity.
    + replace (Z.of_nat i + 1) with (Z.of_nat (S i)) by lia.
      rewrite (IH (S i) j result Hj ltac:(lia) Hs).
      destruct (mergeResult tokens r (Z.of_nat i)) as [entry|e] eqn:Em; [reflexivity|].
      apply mergeResult_throws_TypeError in Em. subst e. reflexivity.
Qed.

(** Without such a result the merge completes, position by position. *)
Lemma mapi_mergeResult_completes (tokens : list TokenDefinition) (results : list CallResult) :
  forall i : nat,
    (forall j result, nth_error results j = Some result ->
                      (List.length tokens <= i + j)%nat -> success result = true) ->
    exists out,
      mapi_from (mergeResult tokens) (Z.of_nat i) results = Normal out /\
      List.length out = List.length results /\
      forall j entry, nth_error out j = Some entry ->
                      tokenFields entry = nth_error tokens (i + j).
Proof.
  induction results as [|r results IH]; intros i Hok; cbn [mapi_from].
  - exists []. repeat split. intros [|j] ? H; discriminate H.
  - destruct (mergeResult tokens r (Z.of_nat i)) as [entry|e] eqn:Em.
    + destruct (IH (S i)) as (out & Hout & Hlen & Hnth).
      { intros j result Hj Hi. apply (Hok (S j) result Hj). lia. }
      replace (Z.of_nat i + 1) with (Z.of_nat (S i)) by lia.
      rewrite Hout. cbn [bind]. exists (entry :: out).
      split; [reflexivity|]. split; [cbn [List.length]; congruence|].
      intros [|j] entry' Hj; cbn [nth_error] in Hj.
      * injection Hj as <-. rewrite Nat.add_0_r. apply (mergeResult_tokenFields _ _ _ _ Em).
      * rewrite (Hnth j entry' Hj). f_equal. lia.
    + exfalso. destruct (Nat.lt_ge_cases i (List.length tokens)) as [Hlt | Hge].
      * destruct (nth_error tokens i) as [t|] eqn:Et;
          [|apply nth_error_None in Et; lia].
        rewrite (mergeResult_in_range tokens r i t Et) in Em. discriminate Em.
      * rewrite mergeResult_out_of_range in Em by exact Hge.
        rewrite (Hok 0%nat r eq_refl) in Em by lia. discriminate Em.
Qed.

(** X6: what the batched path does with a reply that is not one result
    per call.  A shorter reply resolves with as many balances as results,
    for the leading tokens: the trailing tokens are dropped.  A longer reply
    rejects with a TypeError as soon as one of the surplus results is a
    failure, and otherwise resolves with one entry per result, the surplus
    entries carrying no token at all. *)
Theorem batched_reply_of_other_length
    (tokens : list TokenDefinition) (chain : number) (results : list CallResult) :
  batchCall env chain (balanceCalls owner tokens) = Resolved results ->
  ((List.length results <= List.length tokens)%nat ->
   exists out,
     getTokenBalancesFromMulticall env owner tokens chain = Resolved out /\
     map tokenFields out = map Some (firstn (List.length results) tokens)) /\
  ((exists j result, nth_error results j = Some result /\
                     (List.length tokens <= j)%nat /\ success result = false) ->
   getTokenBalancesFromMulticall env owner tokens chain = Rejected TypeError) /\
  ((forall j result, nth_error results j = Some result ->
                     (List.length tokens <= j)%nat -> success result = true) ->
   exists out,
     getTokenBalancesFromMulticall env owner tokens chain = Resolved out /\
     List.length out = List.length results /\
     forall j entry, nth_error out j = Some entry ->
                     tokenFields entry = nth_error tokens j).
Proof.
  intros Hbatch. unfold getTokenBalancesFromMulticall. rewrite Hbatch. cbn [await bind].
  assert (Hcompletes :
            (forall j result, nth_error results j = Some result ->
                              (List.length tokens <= j)%nat -> success result = true) ->
            exists out,
              async (mapi_from (mergeResult tokens) 0 results) = Resolved out /\
              List.length out = List.length results /\
              forall j entry, nth_error out j = Some entry ->
                              tokenFields entry = nth_error tokens j).
  { intros Hok. destruct (mapi_mergeResult_completes tokens results 0 Hok)
      as (out & Hout & Hlen & Hnth).
    change (Z.of_nat 0) with 0 in Hout. rewrite Hout. exists out.
    split; [reflexivity|]. split; [exact Hlen | exact Hnth]. }
  split; [|split].
  - intros Hshort. destruct Hcompletes as (out & Hout & Hlen & Hnth).
    { intros j result Hj Hge. exfalso.
      assert (nth_error results j <> None) by congruence.
      apply nth_error_Some in H. lia. }
    exists out. split; [exact Hout|].
    apply nth_error_ext. intros j. rewrite !nth_error_map, nth_error_firstn.
    destruct (nth_error out j) as [entry|] eqn:Ej; cbn [option_map].
    + rewrite (Hnth j entry Ej).
      assert (Hlt : (j < List.length results)%nat)
        by (rewrite <- Hlen; apply nth_error_Some; congruence).
      replace (j <? List.length results)%nat with true
        by (symmetry; apply Nat.ltb_lt, Hlt).
      destruct (nth_error tokens j) eqn:Et; [reflexivity|].
      apply nth_error_None in Et. lia.
    + apply nth_error_None in Ej.
      replace (j <? List.length results)%nat with false
        by (symmetry; apply Nat.ltb_ge; lia).
      reflexivity.
  - intros (j & result & Hj & Hge & Hs).
    pose proof (mapi_mergeResult_throws tokens results 0 j result Hj Hge Hs) as Hthrow.
    change (Z.of_nat 0) with 0 in Hthrow. rewrite Hthrow. reflexivity.
  - exact Hcompletes.
Qed.

End BatchedMore.

Lemma batched_reply_of_other_length_witness :
  getTokenBalancesFromMulticall Examples.batcherPartial Examples.owner
    [Examples.usdc_mainnet] (Num 1)
  = Rejected TypeError.
Proof.
  destruct (batched_reply_of_other_length Examples.batcherPartial Examples.owner
              [Examples.usdc_mainnet] (Num 1)
              [ {| success := true; returnValues := [createBalance "0x2a" 6] |};
                {| success := false; returnValues := [] |} ]
              eq_refl) as (_ & H & _).
  apply H. exists 1%nat, {| success := false; returnValues := [] |}.
  split; [reflexivity|]. split; [apply le_n | reflexivity].
Defined.

(** ** Which collaborator serves which chain *)

Lemma Permutation_filter {A} (f : A -> bool) (l l' : list A) :
  Permutation l l' -> Permutation (filter f l) (filter f l').
Proof.
  induction 1 as [|x l l' _ IH|x y l|l l' l'' _ IH1 _ IH2]; cbn [filter].
  - constructor.
  - destruct (f x); [constructor|]; exact IH.
  - destruct (f x), (f y); try apply perm_swap; apply Permutation_refl.
  - etransitivity; eassumption.
Qed.

Section Dispatch.

Variable env : Env.
Variable owner : string.

Lemma chainBalancePromises_id (o : TokensByChain) :
  safeKeys o ->
  forall id,
    snd (chainBalancePromises env owner (Object_entries o) id)
    = id + idsPerCall env owner
           * Z.of_nat (List.length
                         (concat (map (fun kv => if multicallSupportsChain env (Num (fst kv))
                                                 then [] else snd kv) o))).
Proof.
  intros Hsafe. induction Hsafe as [|[c tokens] o Hc _ IH]; intros id;
    cbn [Object_entries map fst snd chainBalancePromises concat].
  - cbn. lia.
  - cbn [fst] in Hc. rewrite (parseInt_ToString c Hc). fold (Object_entries o).
    destruct (multicallSupportsChain env (Num c)).
    + specialize (IH id).
      destruct (chainBalancePromises env owner (Object_entries o) id) as [ps id2].
      cbn [snd app] in *. exact IH.
    + destruct (tokenBalancePromises_positional env owner tokens id) as (out & Hout & _).
      unfold getTokenBalancesFromContracts. rewrite Hout.
      specialize (IH (id + idsPerCall env owner * Z.of_nat (List.length tokens))).
      destruct (chainBalancePromises env owner (Object_entries o)
                  (id + idsPerCall env owner * Z.of_nat (List.length tokens))) as [ps id2].
      cbn [snd] in *. rewrite IH, length_app. lia.
Qed.

Lemma unbatched_group (c : Z) (tokens : list TokenDefinition) :
  (if multicallSupportsChain env (Num c) then [] else tokensOfChain tokens c)
  = unbatched env (tokensOfChain tokens c).
Proof.
  unfold unbatched, tokensOfChain. induction tokens as [|t tokens IH]; cbn [filter].
  - destruct (multicallSupportsChain env (Num c)); reflexivity.
  - destruct (chainId t =? c) eqn:E; [|exact IH].
    apply Z.eqb_eq in E. cbn [filter]. rewrite E.
    destruct (multicallSupportsChain env (Num c)) eqn:Es; cbn [negb].
    + rewrite <- IH. reflexivity.
    + rewrite <- IH. reflexivity.
Qed.

(** X7: for chain ids that are safe integers, [getTokenBalances] advances
    the request-id counter by exactly the number of tokens it looks up one
    by one, those on chains without a batcher (by nothing when the owner
    cannot be encoded, as no request is then sent); this holds whatever the
    node and the batcher answer. *)
Theorem getTokenBalances_request_ids (tokens : list TokenDefinition) (id : Z) :
  safeChainIds tokens ->
  snd (getTokenBalances env owner tokens id)
  = id + idsPerCall env owner * Z.of_nat (List.length (unbatched env tokens)).
Proof.
  intros Hsafe. unfold getTokenBalances. fold (grouped tokens).
  pose proof (chainBalancePromises_id (grouped tokens) (grouped_safeKeys tokens Hsafe) id)
    as Hid.
  destruct (chainBalancePromises env owner (Object_entries (grouped tokens)) id) as [ps id'].
  cbn [snd] in *. rewrite Hid. do 3 f_equal.
  rewrite (grouped_entries tokens) at 1. rewrite map_map. cbn [fst snd].
  rewrite (map_ext _ (fun c => unbatched env (tokensOfChain tokens c)))
    by (intros c; apply unbatched_group).
  rewrite <- (map_map (tokensOfChain tokens) (unbatched env)).
  unfold unbatched at 1. rewrite concat_filter_map.
  apply Permutation_length, Permutation_filter.
  destruct (grouped_key_order tokens) as (_ & _ & _ & _ & Hnd).
  apply byChain_Permutation; [exact Hnd|].
  intros t Ht. apply grouped_keys, in_map, Ht.
Qed.

Lemma tokenBalancePromises_withBatchCall batchCall' (tokens : list TokenDefinition) :
  forall id,
    tokenBalancePromises (withBatchCall env batchCall') owner tokens id
    = tokenBalancePromises env owner tokens id.
Proof.
  induction tokens as [|t tokens IH]; intros id; cbn [tokenBalancePromises]; [reflexivity|].
  change (getTokenBalance (withBatchCall env batchCall') t owner id)
    with (getTokenBalance env t owner id).
  destruct (getTokenBalance env t owner id) as [p id1]. rewrite IH. reflexivity.
Qed.

Lemma chainBalancePromises_withBatchCall batchCall' (o : TokensByChain) :
  safeKeys o ->
  (forall c, In c (keys o) -> multicallSupportsChain env (Num c) = false) ->
  forall id,
    chainBalancePromises (withBatchCall env batchCall') owner (Object_entries o) id
    = chainBalancePromises env owner (Object_entries o) id.
Proof.
  intros Hsafe. induction Hsafe as [|[c tokens] o Hc _ IH]; intros Hno id;
    cbn [Object_entries map fst snd chainBalancePromises]; [reflexivity|].
  cbn [fst] in Hc. rewrite (parseInt_ToString c Hc). fold (Object_entries o).
  change (multicallSupportsChain (withBatchCall env batchCall') (Num c))
    with (multicallSupportsChain env (Num c)).
  rewrite (Hno c (or_introl eq_refl)).
  unfold getTokenBalancesFromContracts. rewrite tokenBalancePromises_withBatchCall.
  destruct (tokenBalancePromises env owner tokens id) as [balances id1].
  rewrite IH by (intros c' Hc'; apply Hno; right; exact Hc'). reflexivity.
Qed.


(** X8: when the chain ids are safe integers and no chain of the input
    has a batcher, [getTokenBalances] never consults the batcher: whatever
    stands behind [batchCall], the result and the request ids taken are the
    same. *)
Theorem unsupported_chains_bypass_the_batcher
    (tokens : list TokenDefinition) (id : Z)
    (batchCall' : number -> list Call -> promise (list CallResult)) :
  safeChainIds tokens ->
  (forall token, In token tokens ->
                 multicallSupportsChain env (Num (chainId token)) = false) ->
  getTokenBalances (withBatchCall env batchCall') owner tokens id
  = getTokenBalances env owner tokens id.
Proof.
  intros Hsafe Hno. unfold getTokenBalances. fold (grouped tokens).
  rewrite chainBalancePromises_withBatchCall;
    [reflexivity | apply grouped_safeKeys, Hsafe |].
  intros c Hc. apply grouped_keys, in_map_iff in Hc as (t & <- & Ht). apply Hno, Ht.
Qed.


End Dispatch.

Lemma getTokenBalances_request_ids_witness :
  snd (getTokenBalances Examples.batcherPartial Examples.owner
         [Examples.usdc_polygon; Examples.usdc_mainnet; Examples.usdt_polygon;
          Examples.usdt_mainnet] 1)
  = 3.
Proof.
  apply (getTokenBalances_request_ids Examples.batcherPartial Examples.owner
           [Examples.usdc_polygon; Examples.usdc_mainnet; Examples.usdt_polygon;
            Examples.usdt_mainnet] 1).
  repeat constructor.
Defined.

Lemma unsupported_chains_bypass_the_batcher_witness :
  getTokenBalances
    (withBatchCall Examples.offline (fun _ _ => Rejected (Payload "aggregate call reverted")))
    Examples.owner [Examples.usdc_polygon; Examples.usdc_mainnet] 1
  = getTokenBalances Examples.offline Examples.owner
      [Examples.usdc_polygon; Examples.usdc_mainnet] 1.
Proof.
  apply (unsupported_chains_bypass_the_batcher Examples.offline Examples.owner
           [Examples.usdc_polygon; Examples.usdc_mainnet] 1).
  - repeat constructor.
  - intros token _. reflexivity.
Defined.


(** ** An unreachable node *)

Section Unreachable.

Variable env : Env.
Variable owner : string.
Hypothesis unreachable : forall r, exists e, request env r = Rejected e.

Lemma getTokenBalance_unreachable (token : TokenDefinition) (id : Z) :
  fst (getTokenBalance env token owner id) = Resolved "0x0".
Proof.
  unfold getTokenBalance.
  destruct (encodeFunctionData_balanceOf env owner) as [data|]; cbn [fst]; [|reflexivity].
  match goal with |- context [request env ?r] => destruct (unreachable r) as [e ->] end.
  reflexivity.
Qed.

Lemma tokenBalancePromises_unreachable (tokens : list TokenDefinition) :
  forall id,
    fst (tokenBalancePromises env owner tokens id) = map Resolved (map zeroBalance tokens).
Proof.
  induction tokens as [|t tokens IH]; intros id; cbn [tokenBalancePromises]; [reflexivity|].
  pose proof (getTokenBalance_unreachable t id) as Ht.
  destruct (getTokenBalance env t owner id) as [p id1]. cbn [fst] in Ht. subst p.
  specialize (IH id1). destruct (tokenBalancePromises env owner tokens id1) as [ps id2].
  cbn [fst] in *. rewrite IH. reflexivity.
Qed.

Lemma chainBalancePromises_unreachable (o : TokensByChain) :
  safeKeys o ->
  (forall c, In c (keys o) -> multicallSupportsChain env (Num c) = false) ->
  forall id,
    fst (chainBalancePromises env owner (Object_entries o) id)
    = map Resolved (map (fun kv => map zeroBalance (snd kv)) o).
Proof.
  intros Hsafe. induction Hsafe as [|[c tokens] o Hc _ IH]; intros Hno id;
    cbn [Object_entries map fst snd chainBalancePromises]; [reflexivity|].
  cbn [fst] in Hc. rewrite (parseInt_ToString c Hc). fold (Object_entries o).
  rewrite (Hno c (or_introl eq_refl)).
  unfold getTokenBalancesFromContracts.
  pose proof (tokenBalancePromises_unreachable tokens id) as Ht.
  destruct (tokenBalancePromises env owner tokens id) as [balances id1].
  cbn [fst] in Ht. subst balances. rewrite Promise_all_Resolved.
  specialize (IH (fun c' Hc' => Hno c' (or_intror Hc')) id1).
  destruct (chainBalancePromises env owner (Object_entries o) id1) as [ps id2].
  cbn [fst] in *. rewrite IH. reflexivity.
Qed.

Lemma zero_balances_are_dropped (acc : list TokenBalance) (tokens : list TokenDefinition) :
  relevantBalances acc (map zeroBalance tokens) = acc.
Proof.
  unfold relevantBalances. rewrite <- (app_nil_r acc) at 2. f_equal.
  induction tokens as [|t tokens IH]; [reflexivity|]. exact IH.
Qed.

(** X10: with a node that fails every request, chain ids that are safe
    integers and no batcher for the chains of the input, [getTokenBalances]
    still resolves, with a zero balance (the raw balance [0x0], displayed at
    the token's own decimals) for every input token, and [relevantBalances]
    takes none of them: a failed lookup is never reported as a holding. *)
Theorem unreachable_node_yields_nothing_relevant (tokens : list TokenDefinition) (id : Z) :
  safeChainIds tokens ->
  (forall token, In token tokens ->
                 multicallSupportsChain env (Num (chainId token)) = false) ->
  exists listed,
    fst (getTokenBalances env owner tokens id) = Resolved (map zeroBalance listed) /\
    Permutation listed tokens /\
    forall acc, relevantBalances acc (map zeroBalance listed) = acc.
Proof.
  intros Hsafe Hno. exists (byChain tokens (keys (grouped tokens))).
  split; [|split].
  - unfold getTokenBalances. fold (grouped tokens).
    assert (Hkeys : forall c, In c (keys (grouped tokens)) ->
                              multicallSupportsChain env (Num c) = false).
    { intros c Hin. apply grouped_keys, in_map_iff in Hin as (t & <- & Ht). apply Hno, Ht. }
    pose proof (chainBalancePromises_unreachable (grouped tokens)
                  (grouped_safeKeys tokens Hsafe) Hkeys id) as Hc.
    destruct (chainBalancePromises env owner (Object_entries (grouped tokens)) id) as [ps id'].
    cbn [fst] in *. subst ps. rewrite Promise_all_Resolved. cbn [await bind async].
    f_equal. unfold byChain. rewrite concat_map, map_map.
    rewrite (grouped_entries tokens) at 1. rewrite map_map. reflexivity.
  - destruct (grouped_key_order tokens) as (_ & _ & _ & _ & Hnd).
    apply byChain_Permutation; [exact Hnd|].
    intros t Ht. apply grouped_keys, in_map, Ht.
  - intros acc. apply zero_balances_are_dropped.
Qed.

End Unreachable.

Lemma unreachable_node_yields_nothing_relevant_witness :
  exists listed,
    fst (getTokenBalances Examples.offline Examples.owner
           [Examples.usdc_polygon; Examples.usdc_mainnet] 1)
    = Resolved (map zeroBalance listed) /\
    Permutation listed [Examples.usdc_polygon; Examples.usdc_mainnet] /\
    forall acc, relevantBalances acc (map zeroBalance listed) = acc.
Proof.
  apply (unreachable_node_yields_nothing_relevant Examples.offline Examples.owner).
  - intros r. eexists. reflexivity.
  - repeat constructor.
  - intros token _. reflexivity.
Defined.

(** ** Sorted by chain *)

Lemma StronglySorted_app {A} (R : A -> A -> Prop) (l1 l2 : list A) :
  StronglySorted R l1 -> StronglySorted R l2 ->
  (forall a b, In a l1 -> In b l2 -> R a b) ->
  StronglySorted R (l1 ++ l2).
Proof.
  induction l1 as [|x l1 IH]; intros H1 H2 H12; cbn [app]; [exact H2|].
  inversion H1 as [|? ? Hs Hf]; subst. constructor.
  - apply IH; [exact Hs | exact H2|]. intros a b Ha Hb. apply H12; [right; exact Ha | exact Hb].
  - apply Forall_app. split; [exact Hf|].
    apply Forall_forall. intros b Hb. apply H12; [left; reflexivity | exact Hb].
Qed.

Lemma tokensOfChain_sorted (tokens : list TokenDefinition) (c : Z) :
  StronglySorted chain_le (tokensOfChain tokens c).
Proof.
  unfold tokensOfChain. induction tokens as [|t tokens IH]; cbn [filter]; [constructor|].
  destruct (chainId t =? c) eqn:E; [|exact IH].
  constructor; [exact IH|]. apply Forall_forall. intros t' Ht'.
  apply filter_In in Ht' as [_ Ht']. apply Z.eqb_eq in E, Ht'. unfold chain_le. lia.
Qed.

Lemma in_byChain (tokens : list TokenDefinition) (chains : list Z) (t : TokenDefinition) :
  In t (byChain tokens chains) -> In t tokens /\ In (chainId t) chains.
Proof.
  unfold byChain. intros H. apply in_concat in H as (l & Hl & Ht).
  apply in_map_iff in Hl as (c & <- & Hc). apply filter_In in Ht as [Ht E].
  apply Z.eqb_eq in E. subst c. split; assumption.
Qed.

Lemma byChain_sorted (tokens : list TokenDefinition) (chains : list Z) :
  StronglySorted Z.lt chains -> StronglySorted chain_le (byChain tokens chains).
Proof.
  induction chains as [|c chains IH]; intros Hs; [constructor|].
  inversion Hs as [|? ? Hs' Hf]; subst.
  change (byChain tokens (c :: chains))
    with (tokensOfChain tokens c ++ byChain tokens chains).
  apply StronglySorted_app; [apply tokensOfChain_sorted | apply IH, Hs'|].
  intros a b Ha Hb. apply filter_In in Ha as [_ Ha]. apply Z.eqb_eq in Ha.
  apply in_byChain in Hb as [_ Hb]. rewrite Forall_forall in Hf.
  specialize (Hf _ Hb). unfold chain_le. lia.
Qed.

Lemma tokensOfChain_byChain (tokens : list TokenDefinition) (chains : list Z) (c : Z) :
  NoDup chains ->
  tokensOfChain (byChain tokens chains) c
  = if existsb (Z.eqb c) chains then tokensOfChain tokens c else [].
Proof.
  induction chains as [|k chains IH]; intros Hnd; [reflexivity|].
  inversion Hnd as [|? ? Hnot Hnd']; subst.
  change (byChain tokens (k :: chains))
    with (tokensOfChain tokens k ++ byChain tokens chains).
  unfold tokensOfChain at 1. rewrite filter_app.
  fold (tokensOfChain (tokensOfChain tokens k) c).
  fold (tokensOfChain (byChain tokens chains) c). rewrite (IH Hnd'). cbn [existsb].
  destruct (c =? k) eqn:E; cbn [orb].
  - apply Z.eqb_eq in E. subst k.
    replace (existsb (Z.eqb c) chains) with false
      by (symmetry; apply not_true_is_false; intros H; apply existsb_eqb_In in H; contradiction).
    rewrite app_nil_r. unfold tokensOfChain. clear.
    induction tokens as [|t tokens IH]; cbn [filter]; [reflexivity|].
    destruct (chainId t =? c) eqn:E; cbn [filter]; [rewrite E; f_equal|]; exact IH.
  - replace (tokensOfChain (tokensOfChain tokens k) c) with (@nil TokenDefinition);
      [reflexivity|].
    unfold tokensOfChain. clear -E.
    induction tokens as [|t tokens IH]; cbn [filter]; [reflexivity|].
    destruct (chainId t =? k) eqn:Ek; cbn [filter]; [|exact IH].
    apply Z.eqb_eq in Ek. rewrite Ek, Z.eqb_sym, E. exact IH.
Qed.

(** X11: when every chain id of the input is an array index, and the
    batcher answers its batches, [getTokenBalances] returns the tokens
    sorted by ascending chain id, stably: the listing is a rearrangement of
    the input, non-decreasing in chain id, that keeps the input order among
    the tokens of each chain. *)
Theorem getTokenBalances_sorts_by_chain
    (env : Env) (owner : string) (tokens : list TokenDefinition) (id : Z) :
  batcherAnswers env owner tokens ->
  (forall token, In token tokens -> isArrayIndex (chainId token) = true) ->
  exists out listed,
    fst (getTokenBalances env owner tokens id) = Resolved out /\
    map tokenFields out = map Some listed /\
    Permutation listed tokens /\
    StronglySorted chain_le listed /\
    forall c, tokensOfChain listed c = tokensOfChain tokens c.
Proof.
  intros Hb Hidx.
  assert (Hsafe : safeChainIds tokens).
  { apply Forall_forall. intros token Ht. apply arrayIndex_safe, Hidx, Ht. }
  destruct (getTokenBalances_resolves env owner tokens id Hsafe Hb) as (out & Hout & Hmap).
  destruct (grouped_key_order tokens) as (Hsplit & Hsorted & _ & Hlarge & Hnd).
  exists out, (byChain tokens (keys (grouped tokens))).
  split; [exact Hout|]. split; [exact Hmap|]. split; [|split].
  - apply byChain_Permutation; [exact Hnd|].
    intros t Ht. apply grouped_keys, in_map, Ht.
  - apply byChain_sorted.
    replace (filter (fun c => negb (isArrayIndex c)) (map chainId tokens)) with (@nil Z)
      in Hlarge.
    + cbn [firstAppearances] in Hlarge. rewrite Hlarge, app_nil_r in Hsplit.
      rewrite Hsplit. exact Hsorted.
    + symmetry. clear -Hidx. induction tokens as [|t tokens IH]; [reflexivity|].
      cbn [map filter]. rewrite (Hidx t (or_introl eq_refl)). cbn [negb].
      apply IH. intros t' Ht'. apply Hidx. right. exact Ht'.
  - intros c. rewrite (tokensOfChain_byChain tokens _ c Hnd).
    destruct (existsb (Z.eqb c) (keys (grouped tokens))) eqn:E; [reflexivity|].
    symmetry. destruct (tokensOfChain tokens c) as [|t l] eqn:Et; [reflexivity|].
    exfalso. assert (Hin : In t (tokensOfChain tokens c)) by (rewrite Et; left; reflexivity).
    apply filter_In in Hin as [Hin Hc]. apply Z.eqb_eq in Hc. subst c.
    assert (existsb (Z.eqb (chainId t)) (keys (grouped tokens)) = true)
      by (apply existsb_eqb_In, grouped_keys, in_map, Hin).
    congruence.
Qed.

Lemma getTokenBalances_sorts_by_chain_witness :
  exists out listed,
    fst (getTokenBalances Examples.batcherAllFailed Examples.owner
           [Examples.usdc_polygon; Examples.usdc_mainnet; Examples.usdt_polygon;
            Examples.usdt_mainnet] 1) = Resolved out /\
    map tokenFields out = map Some listed /\
    Permutation listed [Examples.usdc_polygon; Examples.usdc_mainnet; Examples.usdt_polygon;
                        Examples.usdt_mainnet] /\
    StronglySorted chain_le listed /\
    forall c, tokensOfChain listed c
              = tokensOfChain [Examples.usdc_polygon; Examples.usdc_mainnet;
                               Examples.usdt_polygon; Examples.usdt_mainnet] c.
Proof.
  apply (getTokenBalances_sorts_by_chain Examples.batcherAllFailed Examples.owner
           [Examples.usdc_polygon; Examples.usdc_mainnet; Examples.usdt_polygon;
            Examples.usdt_mainnet] 1).
  - intros c _ _. eexists. split; [reflexivity|].
    unfold balanceCalls. rewrite !length_map. reflexivity.
  - intros token [<- | [<- | [<- | [<- | []]]]]; reflexivity.
Defined.

(** ** Chain ids on the wire *)

Lemma digitChar_lowerHex (d : Z) :
  0 <= d < 16 ->
  (((48 <=? N_of_ascii (digitChar d)) && (N_of_ascii (digitChar d) <=? 57))
   || ((97 <=? N_of_ascii (digitChar d)) && (N_of_ascii (digitChar d) <=? 102)))%N = true.
Proof.
  intros Hd. unfold digitChar. destruct (d <? 10) eqn:E.
  - apply Z.ltb_lt in E. rewrite N_ascii_embedding by lia.
    apply orb_true_iff. left. apply andb_true_iff. split; apply N.leb_le; lia.
  - apply Z.ltb_ge in E. rewrite N_ascii_embedding by lia.
    apply orb_true_iff. right. apply andb_true_iff. split; apply N.leb_le; lia.
Qed.

Lemma digitsAux_allLowerHex (fuel : nat) :
  forall z rest, allLowerHex rest = true -> allLowerHex (digitsAux fuel 16 z rest) = true.
Proof.
  induction fuel as [|fuel IH]; intros z rest Hrest; cbn [digitsAux]; [assumption|].
  assert (Hstep : allLowerHex (String (digitChar (z mod 16)) rest) = true).
  { cbn [allLowerHex]. rewrite digitChar_lowerHex by (apply Z.mod_pos_bound; lia).
    exact Hrest. }
  destruct (z / 16 =? 0); [exact Hstep | apply IH, Hstep].
Qed.

(** Hex digits never look like they carry the prefix already. *)
Lemma addHexPrefix_lowerHex (s : string) :
  allLowerHex s = true -> addHexPrefix s = String "0" (String "x" s).
Proof.
  intros Hs. destruct s as [|c s]; [reflexivity|].
  cbn [allLowerHex] in Hs. apply andb_true_iff in Hs as [Hc Hs].
  destruct c as [[] [] [] [] [] [] [] []]; try discriminate Hc; try reflexivity.
  destruct s as [|c s]; [reflexivity|].
  cbn [allLowerHex] in Hs. apply andb_true_iff in Hs as [Hc' _].
  destruct c as [[] [] [] [] [] [] [] []]; try discriminate Hc'; reflexivity.
Qed.

Lemma parseInt_hexString (z : Z) : 0 <= z -> parseInt (hexString z) (Some 16) = Num z.
Proof.
  intros Hz. rewrite hexString_eq. unfold parseInt.
  change (trimStart (String "0" (String "x" (digits 16 z))))
    with (String "0" (String "x" (digits 16 z))).
  change (stripSign (String "0" (String "x" (digits 16 z))))
    with (1, String "0" (String "x" (digits 16 z))).
  cbv beta iota.
  change (stripHexPrefix (String "0" (String "x" (digits 16 z)))) with (Some (digits 16 z)).
  cbv beta iota. rewrite parseDigits_digits by lia.
  change ((16 <? 2) || (36 <? 16)) with false. cbv iota. f_equal. lia.
Qed.

(** X12: the chain id that travels with every balance request,
    [addHexPrefix(chainId.toString(16))], is the [0x] hex encoding of a
    non-negative chain id, and reading it back the way the gas calculator
    reads a transaction's chain id, [parseInt(_, 16)], gives the chain id
    again; a negative chain id travels as [0x-...], which reads back as
    NaN. *)
Theorem chain_id_round_trip (c : Z) :
  (0 <= c ->
   chainParam c = hexString c /\
   hexValue (chainParam c) = Some c /\
   parseInt (chainParam c) (Some 16) = Num c /\
   forall fields,
     estimateGasTarget {| GasCalculator.chainId := chainParam c; txFields := fields |}
     = {| type := "ethereum"; chain_id := Num c |}) /\
  (c < 0 -> parseInt (chainParam c) (Some 16) = NaN /\ hexValue (chainParam c) = None).
Proof.
  split.
  - intros Hc.
    assert (Hparam : chainParam c = hexString c).
    { unfold chainParam, Number_toString.
      replace (c <? 0) with false by (symmetry; apply Z.ltb_ge; lia).
      rewrite addHexPrefix_lowerHex by (apply digitsAux_allLowerHex; reflexivity).
      reflexivity. }
    rewrite Hparam. split; [reflexivity|]. split; [apply hexValue_hexString, Hc|].
    split; [apply parseInt_hexString, Hc|].
    intros fields. unfold estimateGasTarget. cbn [GasCalculator.chainId].
    rewrite parseInt_hexString by exact Hc. reflexivity.
  - intros Hc. unfold chainParam, Number_toString.
    replace (c <? 0) with true by (symmetry; apply Z.ltb_lt; lia).
    change ("-" ++ digits 16 (- c))%string with (String "-" (digits 16 (- c))).
    split; reflexivity.
Qed.

(** ** Native balances, chain by chain *)

(** X13: [getCurrencyBalances] resolves with one entry per chain, and the
    entry at each position depends on the answer to that chain's own
    request alone: the answered raw balance with its 18-decimals display
    and the chain id when the request succeeded, the [0x0] entry when it
    failed; the request goes out for the given address, at the latest
    block, under the chain's hex id. *)
Theorem getCurrencyBalances_entries (env : Env) (address : string) (chains : list Z) :
  exists out,
    getCurrencyBalances env address chains = Resolved out /\
    List.length out = List.length chains /\
    forall i c,
      nth_error chains i = Some c ->
      (forall raw,
          request env (eth_getBalance address "latest" (chainParam c)) = Resolved raw ->
          nth_error out i
          = Some {| cb_balance := raw;
                    cb_displayBalance := Some (BigNumber_shiftedBy_toString raw (-18));
                    cb_displayValue := None;
                    cb_chainId := c |}) /\
      (forall e,
          request env (eth_getBalance address "latest" (chainParam c)) = Rejected e ->
          nth_error out i
          = Some {| cb_balance := "0x0";
                    cb_displayBalance := None;
                    cb_displayValue := Some "0.0";
                    cb_chainId := c |}).
Proof.
  unfold getCurrencyBalances, chainParam.
  induction chains as [|c chains IH]; cbn [map Promise_all].
  - exists []. repeat split; destruct i; discriminate.
  - destruct IH as (out & Hout & Hlen & Hnth). rewrite Hout.
    unfold getNativeCurrencyBalance at 1.
    destruct (request env (eth_getBalance address "latest"
                             (addHexPrefix (Number_toString (Num c) 16)))) as [raw|e] eqn:Er;
      cbn [await bind async]; eexists; (split; [reflexivity|]);
      (split; [cbn [List.length]; congruence|]);
      intros [|i] c' Hc; cbn [nth_error] in *;
      try (injection Hc as <-; rewrite Er; split; intros ? [= <-]; reflexivity);
      try (injection Hc as <-; rewrite Er; split; intros ? H; try discriminate H;
           injection H as <-; reflexivity);
      apply Hnth, Hc.
Qed.

(* ================================================================== *)
(** * gasCalculator.ts: further properties *)
(* ================================================================== *)

(** The block [_getFeeHistory] shapes at position [i] of a reply. *)
Lemma mapi_from_nth {A B} (f : A -> Z -> completion B) (g : A -> nat -> B) (l : list A) :
  forall i : nat,
    (forall j x, nth_error l j = Some x -> f x (Z.of_nat (i + j)) = Normal (g x (i + j)%nat)) ->
    exists out,
      mapi_from f (Z.of_nat i) l = Normal out /\
      List.length out = List.length l /\
      forall j x, nth_error l j = Some x -> nth_error out j = Some (g x (i + j)%nat).
Proof.
  induction l as [|a l IH]; intros i Hf; cbn [mapi_from].
  - exists []. repeat split. intros [|j] ? H; discriminate H.
  - pose proof (Hf 0%nat a eq_refl) as Ha. rewrite Nat.add_0_r in Ha. rewrite Ha.
    destruct (IH (S i)) as (out & Hout & Hlen & Hnth).
    { intros j x Hj. replace (S i + j)%nat with (i + S j)%nat by lia. apply Hf, Hj. }
    replace (Z.of_nat i + 1) with (Z.of_nat (S i)) by lia. rewrite Hout. cbn [bind].
    exists (g a i :: out). split; [reflexivity|]. split; [cbn [List.length]; congruence|].
    intros [|j] x Hj; cbn [nth_error] in *.
    + injection Hj as <-. rewrite Nat.add_0_r. reflexivity.
    + rewrite (Hnth j x Hj). do 2 f_equal. lia.
Qed.

Lemma index_of_nat {A} (l : list A) (i : nat) : index l (Z.of_nat i) = nth_error l i.
Proof.
  unfold index. replace (Z.of_nat i <? 0) with false by (symmetry; apply Z.ltb_ge; lia).
  rewrite Nat2Z.id. reflexivity.
Qed.

Lemma feeHistoryBlocks_present (baseFees : list string) (ratios : list float)
    (rewardRows : list (list string)) :
  exists blocks,
    feeHistoryBlocks {| baseFeePerGas := Some baseFees;
                        gasUsedRatio := Some ratios;
                        reward := Some rewardRows |} = Normal blocks /\
    List.length blocks = List.length baseFees /\
    forall i fee,
      nth_error baseFees i = Some fee ->
      nth_error blocks i
      = Some {| baseFee := parseInt fee (Some 16);
                rewards := map (fun r => parseInt r (Some 16))
                               (match nth_error rewardRows i with
                                | Some row => row
                                | None => []
                                end);
                blockGasUsedRatio := nth_error ratios i |}.
Proof.
  unfold feeHistoryBlocks. cbn [baseFeePerGas gasUsedRatio reward deref bind].
  destruct (mapi_from_nth
              (fun fee i =>
                 ratios0 <- Normal ratios ;;
                 rewardRows0 <- Normal rewardRows ;;
                 Normal {| baseFee := parseInt fee (Some 16);
                           rewards := map (fun r => parseInt r (Some 16))
                                          (match index rewardRows0 i with
                                           | Some r => r
                                           | None => []
                                           end);
                           blockGasUsedRatio := index ratios0 i |})
              (fun fee i =>
                 {| baseFee := parseInt fee (Some 16);
                    rewards := map (fun r => parseInt r (Some 16))
                                   (match nth_error rewardRows i with
                                    | Some row => row
                                    | None => []
                                    end);
                    blockGasUsedRatio := nth_error ratios i |})
              baseFees 0) as (blocks & Hblocks & Hlen & Hnth).
  { intros j x _. cbn [bind]. rewrite !index_of_nat. reflexivity. }
  exists blocks. split; [exact Hblocks|]. split; [exact Hlen | exact Hnth].
Qed.

Lemma feeHistoryBlocks_throws (feeHistory : FeeHistoryResponse) (e : exn) :
  feeHistoryBlocks feeHistory = Throw e <->
  e = TypeError /\
  (baseFeePerGas feeHistory = None \/
   exists fee fees,
     baseFeePerGas feeHistory = Some (fee :: fees) /\
     (gasUsedRatio feeHistory = None \/ reward feeHistory = None)).
Proof.
  destruct feeHistory as [[fees|] ratios rows]; cbn [baseFeePerGas gasUsedRatio reward].
  - destruct fees as [|fee fees].
    + unfold feeHistoryBlocks. cbn [baseFeePerGas deref bind mapi_from].
      split; [discriminate|].
      intros [_ [H | (fee & fees' & H & _)]]; discriminate H.
    + destruct ratios as [ratios|], rows as [rows|].
      * destruct (feeHistoryBlocks_present (fee :: fees) ratios rows) as (blocks & -> & _).
        split; [discriminate|].
        intros [_ [H | (fee' & fees' & _ & [H | H])]]; discriminate H.
      * unfold feeHistoryBlocks.
        cbn [baseFeePerGas gasUsedRatio reward deref bind mapi_from].
        split; [|intros [-> _]; reflexivity].
        intros [= <-]. split; [reflexivity|]. right. exists fee, fees. auto.
      * unfold feeHistoryBlocks.
        cbn [baseFeePerGas gasUsedRatio reward deref bind mapi_from].
        split; [|intros [-> _]; reflexivity].
        intros [= <-]. split; [reflexivity|]. right. exists fee, fees. auto.
      * unfold feeHistoryBlocks.
        cbn [baseFeePerGas gasUsedRatio reward deref bind mapi_from].
        split; [|intros [-> _]; reflexivity].
        intros [= <-]. split; [reflexivity|]. right. exists fee, fees. auto.
  - unfold feeHistoryBlocks. cbn [baseFeePerGas deref bind].
    split; [|intros [-> _]; reflexivity].
    intros [= <-]. split; [reflexivity | left; reflexivity].
Qed.

(** X14: from a reply that carries its three arrays, [_getFeeHistory]
    resolves with one block per base-fee entry, whatever the lengths of the
    other two arrays: block [i] has the base fee read from entry [i] as hex,
    the gas-used ratio at [i] if there is one, and the rewards of row [i]
    read as hex, none if the row is missing. *)
Theorem _getFeeHistory_shape (this : t) (numBlocks : Z) (percentiles : list Z)
    (newestBlock : string) (baseFees : list string) (ratios : list float)
    (rewardRows : list (list string)) :
  send_promise (connection this)
    (rpcPayload "eth_feeHistory" [PNum numBlocks; PStr newestBlock; PNums percentiles] 1)
  = Resolved {| baseFeePerGas := Some baseFees;
                gasUsedRatio := Some ratios;
                reward := Some rewardRows |} ->
  exists blocks,
    _getFeeHistory this numBlocks percentiles newestBlock = Resolved blocks /\
    List.length blocks = List.length baseFees /\
    forall i fee,
      nth_error baseFees i = Some fee ->
      nth_error blocks i
      = Some {| baseFee := parseInt fee (Some 16);
                rewards := map (fun r => parseInt r (Some 16))
                               (match nth_error rewardRows i with
                                | Some row => row
                                | None => []
                                end);
                blockGasUsedRatio := nth_error ratios i |}.
Proof.
  intros Hsend. unfold _getFeeHistory. rewrite Hsend. cbn [await bind].
  destruct (feeHistoryBlocks_present baseFees ratios rewardRows)
    as (blocks & Hblocks & Hlen & Hnth).
  rewrite Hblocks. exists blocks. split; [reflexivity|]. split; assumption.
Qed.

Lemma _getFeeHistory_shape_witness :
  exists blocks,
    _getFeeHistory (Examples.calculator "0x3b9aca00" (Resolved Examples.history_gwei))
      10 [10] "latest" = Resolved blocks /\
    List.length blocks = 4%nat /\
    forall i fee,
      nth_error ["0x64"; "0x64"; "0x64"; "0x6e"] i = Some fee ->
      nth_error blocks i
      = Some {| baseFee := parseInt fee (Some 16);
                rewards := map (fun r => parseInt r (Some 16))
                               (match nth_error [["0x35a4e900"]; ["0x3b9aca00"]; ["0x77359400"]] i with
                                | Some row => row
                                | None => []
                                end);
                blockGasUsedRatio := nth_error [0.5; 0.5; 0.5]%float i |}.
Proof.
  apply (_getFeeHistory_shape
           (Examples.calculator "0x3b9aca00" (Resolved Examples.history_gwei))
           10 [10] "latest"
           ["0x64"; "0x64"; "0x64"; "0x6e"] [0.5; 0.5; 0.5]%float
           [["0x35a4e900"]; ["0x3b9aca00"]; ["0x77359400"]]).
  reflexivity.
Defined.

(** X15: [_getFeeHistory] rejects in exactly two ways: with the
    transport's own error when the request fails, and with a TypeError when
    the reply lacks its base fees, or has at least one base fee but lacks
    its ratios or its rewards; a reply with an empty base-fee array
    resolves, with no block, even without the other arrays. *)
Theorem _getFeeHistory_rejections (this : t) (numBlocks : Z) (percentiles : list Z)
    (newestBlock : string) (e : exn) :
  let payload :=
    rpcPayload "eth_feeHistory" [PNum numBlocks; PStr newestBlock; PNums percentiles] 1 in
  (_getFeeHistory this numBlocks percentiles newestBlock = Rejected e <->
   send_promise (connection this) payload = Rejected e \/
   exists feeHistory,
     send_promise (connection this) payload = Resolved feeHistory /\
     e = TypeError /\
     (baseFeePerGas feeHistory = None \/
      exists fee fees,
        baseFeePerGas feeHistory = Some (fee :: fees) /\
        (gasUsedRatio feeHistory = None \/ reward feeHistory = None))) /\
  (forall feeHistory,
      send_promise (connection this) payload = Resolved feeHistory ->
      baseFeePerGas feeHistory = Some [] ->
      _getFeeHistory this numBlocks percentiles newestBlock = Resolved []).
Proof.
  cbv zeta. unfold _getFeeHistory.
  destruct (send_promise (connection this)
              (rpcPayload "eth_feeHistory"
                 [PNum numBlocks; PStr newestBlock; PNums percentiles] 1))
    as [fh|e0] eqn:Es; cbn [await bind].
  - split.
    + destruct (feeHistoryBlocks fh) as [blocks|e1] eqn:Eb; cbn [async].
      * split; [discriminate|].
        intros [H | (fh' & [= <-] & He & Hcases)]; [discriminate H|].
        assert (Hthrow : feeHistoryBlocks fh = Throw e)
          by (apply feeHistoryBlocks_throws; split; assumption).
        congruence.
      * split.
        -- intros [= <-]. right. exists fh. split; [reflexivity|].
           apply feeHistoryBlocks_throws, Eb.
        -- intros [H | (fh' & [= <-] & He & Hcases)]; [discriminate H|].
           assert (Hthrow : feeHistoryBlocks fh = Throw e)
             by (apply feeHistoryBlocks_throws; split; assumption).
           congruence.
    + intros fh' [= <-] Hempty. unfold feeHistoryBlocks. rewrite Hempty. reflexivity.
  - split.
    + split; [intros [= <-]; left; reflexivity|].
      intros [[= <-] | (fh & H & _)]; [reflexivity | discriminate H].
    + intros fh H. discriminate H.
Qed.

(** ** Which blocks and which rewards count *)

Lemma eligible_needs_ratio (block : Block) :
  blockGasUsedRatio block = None -> eligible block = false.
Proof. unfold eligible. intros ->. reflexivity. Qed.

Lemma eligibleRewardsBlocks_app (blocks blocks' : list Block) :
  eligibleRewardsBlocks (blocks ++ blocks')
  = eligibleRewardsBlocks blocks ++ eligibleRewardsBlocks blocks'.
Proof. unfold eligibleRewardsBlocks. rewrite filter_app, map_app. reflexivity. Qed.

Lemma eligibleRewardsBlocks_length (blocks : list Block) :
  (List.length (eligibleRewardsBlocks blocks) <= List.length blocks)%nat.
Proof.
  unfold eligibleRewardsBlocks. rewrite length_map.
  induction blocks as [|b blocks IH]; cbn [filter List.length]; [lia|].
  destruct (eligible b); cbn [List.length]; lia.
Qed.

Lemma filter_none {A} (f : A -> bool) (l : list A) :
  (forall x, In x l -> f x = false) -> filter f l = [].
Proof.
  induction l as [|a l IH]; intros H; [reflexivity|].
  cbn [filter]. rewrite (H a (or_introl eq_refl)). apply IH.
  intros x Hx. apply H. right. exact Hx.
Qed.

(** X16: base-fee entries beyond the gas-used ratios, such as the trailing
    entry for the upcoming block, make blocks that are never eligible: the
    eligible rewards of a shaped reply, and the reward selected from them,
    are those of its first blocks, as many as there are ratios, so there
    are at most that many. *)
Theorem blocks_without_ratio_are_not_eligible (baseFees : list string) (ratios : list float)
    (rewardRows : list (list string)) :
  exists blocks,
    feeHistoryBlocks {| baseFeePerGas := Some baseFees;
                        gasUsedRatio := Some ratios;
                        reward := Some rewardRows |} = Normal blocks /\
    eligibleRewardsBlocks blocks
    = eligibleRewardsBlocks (firstn (List.length ratios) blocks) /\
    (List.length (eligibleRewardsBlocks blocks) <= List.length ratios)%nat /\
    selectedReward blocks = selectedReward (firstn (List.length ratios) blocks) /\
    medianReward blocks = medianReward (firstn (List.length ratios) blocks).
Proof.
  destruct (feeHistoryBlocks_present baseFees ratios rewardRows)
    as (blocks & Hblocks & Hlen & Hnth).
  exists blocks. split; [exact Hblocks|].
  assert (Hrest : eligibleRewardsBlocks (skipn (List.length ratios) blocks) = []).
  { unfold eligibleRewardsBlocks. rewrite filter_none; [reflexivity|].
    intros b Hb. apply In_nth_error in Hb as [j Hj].
    rewrite nth_error_skipn in Hj.
    destruct (nth_error baseFees (List.length ratios + j)) as [fee|] eqn:Ef.
    - rewrite (Hnth _ fee Ef) in Hj. injection Hj as <-.
      apply eligible_needs_ratio. cbn [blockGasUsedRatio].
      apply nth_error_None. lia.
    - apply nth_error_None in Ef.
      assert (nth_error blocks (List.length ratios + j) <> None) by congruence.
      apply nth_error_Some in H. lia. }
  assert (Heq : eligibleRewardsBlocks blocks
                = eligibleRewardsBlocks (firstn (List.length ratios) blocks)).
  { rewrite <- (firstn_skipn (List.length ratios) blocks) at 1.
    rewrite eligibleRewardsBlocks_app, Hrest, app_nil_r. reflexivity. }
  split; [exact Heq|]. split; [|split].
  - rewrite Heq.
    etransitivity; [apply eligibleRewardsBlocks_length|].
    apply firstn_le_length.
  - unfold selectedReward. rewrite Heq. reflexivity.
  - unfold medianReward, selectedReward. rewrite Heq. reflexivity.
Qed.

Lemma index_undef_In {A} (l : list (option A)) (i : Z) (v : A) :
  index_undef l i = Some v -> In (Some v) l.
Proof.
  unfold index_undef, index. destruct (i <? 0); [discriminate|].
  destruct (nth_error l (Z.to_nat i)) as [x|] eqn:E; [|discriminate].
  intros ->. apply nth_error_In in E. exact E.
Qed.

(** X17: the priority fee is never made up: [medianReward] is either
    1 gwei or the first reward sample, a non-zero number, of some eligible
    block of the history. *)
Theorem medianReward_is_a_sample_or_oneGwei (blocks : list Block) :
  medianReward blocks = oneGwei \/
  exists block z,
    In block blocks /\ eligible block = true /\
    index (rewards block) 0 = Some (Num z) /\ z <> 0 /\
    medianReward blocks = Num z.
Proof.
  unfold medianReward, or_else.
  destruct (selectedReward blocks) as [x|] eqn:Es; [|left; reflexivity].
  destruct (truthy (Some x)) eqn:Et; [|left; reflexivity].
  right. destruct x as [|z]; [discriminate Et|].
  cbn [truthy] in Et. apply negb_true_iff, Z.eqb_neq in Et.
  unfold selectedReward in Es. apply index_undef_In in Es.
  unfold Array_sort in Es. apply sort_by_In in Es.
  unfold eligibleRewardsBlocks in Es. apply in_map_iff in Es as (block & Hr & Hb).
  apply filter_In in Hb as [Hb He].
  exists block, z. repeat split; assumption.
Qed.

Lemma medianReward_nonzero (blocks : list Block) : medianReward blocks <> Num 0.
Proof.
  unfold medianReward, or_else.
  destruct (selectedReward blocks) as [[|z]|]; cbn [truthy]; try discriminate.
  destruct (z =? 0) eqn:E; cbn [negb]; [discriminate|].
  apply Z.eqb_neq in E. congruence.
Qed.

(** X18: whatever [getFeePerGas] resolves with, the priority fee it
    carries is a hex-encoded integer above zero, and the total is
    hex-encoded too; when the estimate comes from a history, the base fee is
    hex-encoded, it is not below the base fee of the last block returned,
    and the total is the base fee plus the priority fee, so above the base
    fee. *)
Theorem resolved_fees_are_sound (this : t) (fees : Eip1559GasFees) :
  getFeePerGas this = Resolved fees ->
  (exists priority total,
      hexValue (maxPriorityFeePerGas fees) = Some priority /\
      hexValue (maxFeePerGas fees) = Some total /\
      0 < priority <= MAX_SAFE_INTEGER /\
      0 <= total <= MAX_SAFE_INTEGER) /\
  (tryFees this = Normal fees ->
   exists blocks lastBlock nextBlockFee base priority,
     _getFeeHistory this 10 [10] "latest" = Resolved blocks /\
     index blocks (length_ blocks - 1) = Some lastBlock /\
     baseFee lastBlock = Num nextBlockFee /\
     hexValue (maxBaseFeePerGas fees) = Some base /\
     hexValue (maxPriorityFeePerGas fees) = Some priority /\
     hexValue (maxFeePerGas fees) = Some (base + priority) /\
     0 <= nextBlockFee <= base /\
     base < base + priority).
Proof.
  intros H.
  assert (Hnormal :
            tryFees this = Normal fees ->
            exists blocks lastBlock n c m,
              _getFeeHistory this 10 [10] "latest" = Resolved blocks /\
              index blocks (length_ blocks - 1) = Some lastBlock /\
              baseFee lastBlock = Num n /\
              fees = {| maxBaseFeePerGas := hexString c;
                        maxPriorityFeePerGas := hexString m;
                        maxFeePerGas := hexString (c + m) |} /\
              0 <= n <= c /\ 0 < m /\ c + m <= MAX_SAFE_INTEGER).
  { unfold tryFees. intros Ht.
    destruct (_getFeeHistory this 10 [10] "latest") as [blocks|e]; [|discriminate Ht].
    cbn [await bind] in Ht.
    apply feesFromBlocks_Normal in Ht
      as (lastBlock & c & m & Hl & Hc & Hm & H0c & H0m & Hsum & ->).
    destruct (baseFee lastBlock) as [|n] eqn:En; [discriminate Hc|].
    destruct (calculatedFee_covers n c Hc) as [Hcover Hneg].
    pose proof (medianReward_nonzero blocks) as Hnz. rewrite Hm in Hnz.
    assert (m <> 0) by congruence.
    exists blocks, lastBlock, n, c, m. repeat split; try assumption; try reflexivity; lia. }
  split.
  - apply getFeePerGas_cases in H as [Ht | [_ Hd]].
    + destruct (Hnormal Ht) as (blocks & lastBlock & n & c & m & _ & _ & _ & -> & Hn & Hm & Hs).
      exists m, (c + m). cbn [maxPriorityFeePerGas maxFeePerGas].
      rewrite !hexValue_hexString by lia. repeat split; lia.
    + apply defaultGas_Normal in Hd as (d & _ & Hs & ->).
      exists 1000000000, (d + 1000000000). cbn [maxPriorityFeePerGas maxFeePerGas].
      rewrite hexValue_hexString by lia.
      repeat split; try reflexivity; try lia; unfold MAX_SAFE_INTEGER; lia.
  - intros Ht.
    destruct (Hnormal Ht) as (blocks & lastBlock & n & c & m & Hh & Hl & Hb & -> & Hn & Hm & Hs).
    exists blocks, lastBlock, n, c, m.
    cbn [maxBaseFeePerGas maxPriorityFeePerGas maxFeePerGas].
    rewrite !hexValue_hexString by lia. repeat split; try assumption; lia.
Qed.

Lemma resolved_fees_are_sound_witness :
  (exists priority total,
      hexValue "0x3" = Some priority /\
      hexValue "0x8f" = Some total /\
      0 < priority <= MAX_SAFE_INTEGER /\
      0 <= total <= MAX_SAFE_INTEGER) /\
  (tryFees (Examples.calculator "0x3b9aca00" (Resolved Examples.history_100_110))
   = Normal {| maxBaseFeePerGas := "0x8c"; maxPriorityFeePerGas := "0x3";
               maxFeePerGas := "0x8f" |} ->
   exists blocks lastBlock nextBlockFee base priority,
     _getFeeHistory (Examples.calculator "0x3b9aca00" (Resolved Examples.history_100_110))
       10 [10] "latest" = Resolved blocks /\
     index blocks (length_ blocks - 1) = Some lastBlock /\
     baseFee lastBlock = Num nextBlockFee /\
     hexValue "0x8c" = Some base /\
     hexValue "0x3" = Some priority /\
     hexValue "0x8f" = Some (base + priority) /\
     0 <= nextBlockFee <= base /\
     base < base + priority).
Proof.
  apply (resolved_fees_are_sound
           (Examples.calculator "0x3b9aca00" (Resolved Examples.history_100_110))
           {| maxBaseFeePerGas := "0x8c"; maxPriorityFeePerGas := "0x3";
              maxFeePerGas := "0x8f" |}).
  vm_compute. reflexivity.
Defined.

(** ** What the estimate reads of a history *)

Lemma eligibleRewardsBlocks_ext (blocks blocks' : list Block) :
  map (fun b => (blockGasUsedRatio b, index (rewards b) 0)) blocks
  = map (fun b => (blockGasUsedRatio b, index (rewards b) 0)) blocks' ->
  eligibleRewardsBlocks blocks = eligibleRewardsBlocks blocks'.
Proof.
  revert blocks'. induction blocks as [|b blocks IH]; intros [|b' blocks'] H;
    try discriminate H; [reflexivity|].
  cbn [map] in H. injection H as Hr Hi Hrest.
  assert (Hel : eligible b = eligible b') by (unfold eligible; rewrite Hr; reflexivity).
  specialize (IH blocks' Hrest).
  unfold eligibleRewardsBlocks in *. cbn [filter]. rewrite Hel.
  destruct (eligible b'); cbn [map]; [rewrite Hi; f_equal|]; exact IH.
Qed.

(** X19: of a history the estimate reads the base fee of the last block
    only, and of every block only the gas-used ratio and the first reward
    sample: two histories that agree on these give the same estimate, or
    fail alike, whatever their other base fees and reward samples. *)
Theorem estimate_reads_last_base_fee_only (blocks blocks' : list Block) :
  map (fun b => (blockGasUsedRatio b, index (rewards b) 0)) blocks
  = map (fun b => (blockGasUsedRatio b, index (rewards b) 0)) blocks' ->
  option_map baseFee (index blocks (length_ blocks - 1))
  = option_map baseFee (index blocks' (length_ blocks' - 1)) ->
  feesFromBlocks blocks = feesFromBlocks blocks'.
Proof.
  intros Hsamples Hlast.
  pose proof (eligibleRewardsBlocks_ext blocks blocks' Hsamples) as He.
  assert (Hm : medianReward blocks = medianReward blocks')
    by (unfold medianReward, selectedReward; rewrite He; reflexivity).
  unfold feesFromBlocks. rewrite Hm.
  destruct (index blocks (length_ blocks - 1)) as [b|],
           (index blocks' (length_ blocks' - 1)) as [b'|];
    cbn [option_map] in Hlast; try discriminate Hlast; [|reflexivity].
  injection Hlast as Hlast. cbn [deref bind]. rewrite Hlast. reflexivity.
Qed.

Lemma estimate_reads_last_base_fee_only_witness :
  feesFromBlocks
    [ {| baseFee := Num 100; rewards := [Num 3; Num 50]; blockGasUsedRatio := Some 0.5%float |};
      {| baseFee := Num 110; rewards := []; blockGasUsedRatio := None |} ]
  = feesFromBlocks
      [ {| baseFee := Num 7; rewards := [Num 3]; blockGasUsedRatio := Some 0.5%float |};
        {| baseFee := Num 110; rewards := []; blockGasUsedRatio := None |} ].
Proof.
  apply estimate_reads_last_base_fee_only; reflexivity.
Defined.

(** ** When sorting as strings is sorting by value *)

Lemma readDigits_decimal_step (c : ascii) (s : string) (a : Z) :
  ((48 <=? N_of_ascii c) && (N_of_ascii c <=? 57))%N = true ->
  readDigits 10 (String c s) (Some a)
  = readDigits 10 s (Some (10 * a + (Z.of_N (N_of_ascii c) - 48))).
Proof.
  intros Hc. apply andb_true_iff in Hc as [H1 H2]. apply N.leb_le in H1, H2.
  cbn [readDigits]. unfold digitValue. cbv zeta.
  replace ((48 <=? Z.of_N (N_of_ascii c)) && (Z.of_N (N_of_ascii c) <=? 57)) with true
    by (symmetry; apply andb_true_iff; split; apply Z.leb_le; lia).
  replace (Z.of_N (N_of_ascii c) - 48 <? 10) with true
    by (symmetry; apply Z.ltb_lt; lia).
  reflexivity.
Qed.

(** Two strings of decimal digits of the same length compare as the
    numbers they spell. *)
Lemma compare_decimal (s1 : string) :
  forall s2 a1 a2 v1 v2,
    allDecimal s1 = true -> allDecimal s2 = true ->
    String.length s1 = String.length s2 ->
    readDigits 10 s1 (Some a1) = Some v1 ->
    readDigits 10 s2 (Some a2) = Some v2 ->
    (a1 < a2 -> v1 < v2) /\ (a2 < a1 -> v2 < v1) /\
    (a1 = a2 -> Z.compare v1 v2 = String.compare s1 s2).
Proof.
  induction s1 as [|c1 s1 IH]; intros [|c2 s2] a1 a2 v1 v2 H1 H2 Hlen Hv1 Hv2;
    try discriminate Hlen.
  - cbn in Hv1, Hv2. injection Hv1 as <-. injection Hv2 as <-.
    repeat split; try lia. intros ->. apply Z.compare_refl.
  - cbn [allDecimal] in H1, H2.
    apply andb_true_iff in H1 as [Hc1 H1]. apply andb_true_iff in H2 as [Hc2 H2].
    rewrite (readDigits_decimal_step c1 s1 a1 Hc1) in Hv1.
    rewrite (readDigits_decimal_step c2 s2 a2 Hc2) in Hv2.
    injection Hlen as Hlen.
    destruct (IH s2 _ _ v1 v2 H1 H2 Hlen Hv1 Hv2) as (Hlt & Hgt & Heq).
    apply andb_true_iff in Hc1 as [L1 U1]. apply andb_true_iff in Hc2 as [L2 U2].
    apply N.leb_le in L1, U1, L2, U2.
    split; [intros Ha; apply Hlt; lia|]. split; [intros Ha; apply Hgt; lia|].
    intros ->. cbn [String.compare]. unfold Ascii.compare.
    destruct (N.compare_spec (N_of_ascii c1) (N_of_ascii c2)) as [E | E | E].
    + apply Heq. rewrite E. reflexivity.
    + apply Z.compare_lt_iff, Hlt. lia.
    + apply Z.compare_gt_iff, Hgt. lia.
Qed.

Lemma readDigits_digits_from_zero (z : Z) :
  0 <= z -> readDigits 10 (digits 10 z) (Some 0) = Some z.
Proof.
  intros Hz. pose proof (readDigits_digits 10 z ltac:(lia) Hz) as H.
  pose proof (digitsAux_nonempty (Z.to_nat (Z.log2 z)) 10 z "") as Hne.
  fold (digits 10 z) in Hne. destruct (digits 10 z); [congruence | exact H].
Qed.

Lemma ToString_nonneg (z : Z) :
  0 <= z <= MAX_SAFE_INTEGER -> ToString (Num z) = digits 10 z.
Proof.
  intros Hz. rewrite ToString_safe.
  - replace (z <? 0) with false by (symmetry; apply Z.ltb_ge; lia). reflexivity.
  - unfold Number_isSafeInteger. apply andb_true_iff.
    unfold MAX_SAFE_INTEGER in *. split; apply Z.leb_le; lia.
Qed.

Lemma SortCompare_same_width (a b : Z) :
  0 <= a <= MAX_SAFE_INTEGER -> 0 <= b <= MAX_SAFE_INTEGER ->
  String.length (ToString (Num a)) = String.length (ToString (Num b)) ->
  SortCompare_le (Some (Num a)) (Some (Num b)) = (a <=? b).
Proof.
  intros Ha Hb Hlen. unfold SortCompare_le, String.ltb.
  rewrite (ToString_nonneg a Ha), (ToString_nonneg b Hb) in *.
  destruct (compare_decimal (digits 10 b) (digits 10 a) 0 0 b a) as (_ & _ & Heq).
  - apply digitsAux_allDecimal. reflexivity.
  - apply digitsAux_allDecimal. reflexivity.
  - symmetry. exact Hlen.
  - apply readDigits_digits_from_zero, Hb.
  - apply readDigits_digits_from_zero, Ha.
  - rewrite <- (Heq eq_refl).
    destruct (Z.compare_spec b a) as [E | E | E]; cbn [negb]; symmetry.
    + apply Z.leb_le. lia.
    + apply Z.leb_gt. lia.
    + apply Z.leb_le. lia.
Qed.

Lemma sort_insert_map {A B} (f : A -> B) (le : A -> A -> bool) (le' : B -> B -> bool)
    (x : A) (l : list A) :
  (forall y, In y l -> le' (f x) (f y) = le x y) ->
  sort_insert le' (f x) (map f l) = map f (sort_insert le x l).
Proof.
  induction l as [|y l IH]; intros H; cbn [map sort_insert]; [reflexivity|].
  rewrite (H y (or_introl eq_refl)).
  destruct (le x y); cbn [map]; [reflexivity|].
  f_equal. apply IH. intros y' Hy'. apply H. right. exact Hy'.
Qed.

Lemma sort_by_map {A B} (f : A -> B) (le : A -> A -> bool) (le' : B -> B -> bool)
    (l : list A) :
  (forall x y, In x l -> In y l -> le' (f x) (f y) = le x y) ->
  sort_by le' (map f l) = map f (sort_by le l).
Proof.
  induction l as [|x l IH]; intros H; cbn [map sort_by]; [reflexivity|].
  rewrite IH by (intros a b Ha Hb; apply H; right; assumption).
  apply sort_insert_map. intros y Hy. apply sort_by_In in Hy.
  apply H; [left; reflexivity | right; exact Hy].
Qed.

Lemma sort_insert_length {A} (le : A -> A -> bool) (x : A) (l : list A) :
  List.length (sort_insert le x l) = S (List.length l).
Proof.
  induction l as [|y l IH]; cbn [sort_insert]; [reflexivity|].
  destruct (le x y); cbn [List.length]; [reflexivity | rewrite IH; reflexivity].
Qed.

Lemma sort_by_length {A} (le : A -> A -> bool) (l : list A) :
  List.length (sort_by le l) = List.length l.
Proof.
  induction l as [|x l IH]; cbn [sort_by]; [reflexivity|].
  rewrite sort_insert_length, IH. reflexivity.
Qed.

(** X20: when the eligible reward samples are non-negative safe integers
    that all have the same number of decimal digits, sorting them as strings
    is sorting them by value: the element selected is their lower median by
    value, and the priority fee is that median, or 1 gwei when it is 0. *)
Theorem same_width_rewards_give_the_numeric_median
    (blocks : list Block) (rewards : list Z) (width : nat) :
  eligibleRewardsBlocks blocks = map rewardSample rewards ->
  rewards <> [] ->
  Forall (fun z => 0 <= z <= MAX_SAFE_INTEGER /\
                   String.length (ToString (Num z)) = width) rewards ->
  Array_sort (eligibleRewardsBlocks blocks) = map rewardSample (sortAscending rewards) /\
  selectedReward blocks = Some (Num (lowerMedian rewards)) /\
  medianReward blocks
  = if lowerMedian rewards =? 0 then oneGwei else Num (lowerMedian rewards).
Proof.
  intros He Hne Hw. rewrite Forall_forall in Hw.
  assert (Hsort : Array_sort (eligibleRewardsBlocks blocks)
                  = map rewardSample (sortAscending rewards)).
  { rewrite He. unfold Array_sort, sortAscending. apply sort_by_map.
    intros x y Hx Hy. destruct (Hw x Hx) as [H0x Hlx], (Hw y Hy) as [H0y Hly].
    apply SortCompare_same_width; congruence. }
  assert (Hsel : selectedReward blocks = Some (Num (lowerMedian rewards))).
  { unfold selectedReward, index_undef, index, Math_floor_half, length_.
    rewrite Hsort, He, length_map.
    replace (Z.of_nat (List.length rewards) / 2 <? 0) with false
      by (symmetry; apply Z.ltb_ge, Z.div_pos; lia).
    change 2 with (Z.of_nat 2). rewrite <- Nat2Z.inj_div, Nat2Z.id, <- Nat.div2_div.
    rewrite nth_error_map. unfold lowerMedian.
    assert (Hlt : (Nat.div2 (List.length rewards) < List.length (sortAscending rewards))%nat).
    { unfold sortAscending. rewrite sort_by_length.
      destruct rewards as [|z l]; [congruence|]. apply Nat.lt_div2. cbn. lia. }
    rewrite (nth_error_nth' _ 1000000000 Hlt). reflexivity. }
  split; [exact Hsort|]. split; [exact Hsel|].
  unfold medianReward, or_else. rewrite Hsel. cbn [truthy].
  destruct (lowerMedian rewards =? 0); reflexivity.
Qed.

Lemma same_width_rewards_give_the_numeric_median_witness :
  Array_sort (eligibleRewardsBlocks Examples.blocks_zero)
  = map rewardSample (sortAscending [0; 5; 0]) /\
  selectedReward Examples.blocks_zero = Some (Num (lowerMedian [0; 5; 0])) /\
  medianReward Examples.blocks_zero
  = if lowerMedian [0; 5; 0] =? 0 then oneGwei else Num (lowerMedian [0; 5; 0]).
Proof.
  apply (same_width_rewards_give_the_numeric_median Examples.blocks_zero [0; 5; 0] 1).
  - reflexivity.
  - discriminate.
  - repeat constructor; vm_compute; discriminate.
Defined.
